(** * x-cli: the OAuth 1.0a signer and the watch-mode polling loop

    A shallow embedding of [x_cli/auth.py] and [x_cli/watch.py], with the
    properties their specification states about them.

    Conventions of the embedding.
    - A Python [str] is a Rocq [string], read as the UTF-8 bytes of the text.
      Code-point order and UTF-8 byte order agree, and [urllib.parse.quote]
      works on the UTF-8 bytes, so sorting and percent-encoding are exact;
      [str.lower] and [str.upper] are modelled on the ASCII letters only.
    - A Python [int] is a [Z].
    - A [dict] whose iteration order is observed is an association list that
      keeps insertion order ([PyDict]); the per-user counters, which are only
      looked up and summed, are a [gmap].
    - The HTTP client, the wall clock, [time.sleep], the random nonce and
      HMAC-SHA1 are capabilities supplied from outside.
    - The polling loop is given twice: pass by pass ([Watch]), and statement
      by statement with Ctrl+C before any statement and fetches that may
      raise any exception ([WatchSteps]); the first is a case of the
      second. *)

From Stdlib Require Import ZArith NArith Ascii String List Bool Lia Sorting.Sorted.
From Stdlib Require Import DecimalString.
From stdpp Require Import gmap strings list fin_maps.

Local Open Scope Z_scope.

(** ** Python string primitives *)

Module PyStr.

Definition code (c : ascii) : N := N_of_ascii c.

Definition between (lo hi : N) (c : ascii) : bool :=
  ((lo <=? code c) && (code c <=? hi))%N.

Definition is_upper_ascii : ascii -> bool := between 65 90.
Definition is_lower_ascii : ascii -> bool := between 97 122.
Definition is_digit_ascii : ascii -> bool := between 48 57.
Definition is_alpha_ascii (c : ascii) : bool := is_upper_ascii c || is_lower_ascii c.

Definition lower_char (c : ascii) : ascii :=
  if is_upper_ascii c then ascii_of_N (code c + 32) else c.

Definition upper_char (c : ascii) : ascii :=
  if is_lower_ascii c then ascii_of_N (code c - 32) else c.

Fixpoint map_chars (f : ascii -> ascii) (s : string) : string :=
  match s with
  | EmptyString => EmptyString
  | String c s' => String (f c) (map_chars f s')
  end.

(** [s.lower()] and [s.upper()] *)
Definition lower : string -> string := map_chars lower_char.
Definition upper : string -> string := map_chars upper_char.

(** [bool(s)]: a string is truthy when it is not empty *)
Definition truthy (s : string) : bool :=
  match s with EmptyString => false | String _ _ => true end.

(** [needle in hay] *)
Fixpoint contains (needle hay : string) : bool :=
  String.prefix needle hay ||
  match hay with
  | EmptyString => false
  | String _ hay' => contains needle hay'
  end.

(** what [needle in hay] means *)
Definition substring_of (needle hay : string) : Prop :=
  exists pre post, hay = pre +:+ needle +:+ post.

Fixpoint all_chars (p : ascii -> bool) (s : string) : bool :=
  match s with
  | EmptyString => true
  | String c s' => p c && all_chars p s'
  end.

Fixpoint has_char (c : ascii) (s : string) : bool :=
  match s with
  | EmptyString => false
  | String d s' => Ascii.eqb c d || has_char c s'
  end.

(** [s.partition(c)]: the text before the first [c] and, when [c] occurs,
    the text after it *)
Fixpoint partition (c : ascii) (s : string) : string * option string :=
  match s with
  | EmptyString => (EmptyString, None)
  | String d s' =>
      if Ascii.eqb c d then (EmptyString, Some s')
      else let '(a, b) := partition c s' in (String d a, b)
  end.

(** [s.split(c)] *)
Fixpoint split (c : ascii) (s : string) : list string :=
  match s with
  | EmptyString => [EmptyString]
  | String d s' =>
      if Ascii.eqb c d then EmptyString :: split c s'
      else match split c s' with
           | [] => [String d EmptyString]
           | w :: ws => String d w :: ws
           end
  end.

(** the longest prefix without a character of [stop], and the rest *)
Fixpoint span_until (stop : ascii -> bool) (s : string) : string * string :=
  match s with
  | EmptyString => (EmptyString, EmptyString)
  | String d s' =>
      if stop d then (EmptyString, s)
      else let '(a, b) := span_until stop s' in (String d a, b)
  end.

Fixpoint rev_onto (s acc : string) : string :=
  match s with
  | EmptyString => acc
  | String c s' => rev_onto s' (String c acc)
  end.

Definition reverse (s : string) : string := rev_onto s EmptyString.

(** the white space [int] skips around an ASCII literal *)
Definition is_space (c : ascii) : bool :=
  between 9 13 c || between 32 32 c.

Fixpoint lstrip (s : string) : string :=
  match s with
  | EmptyString => EmptyString
  | String c s' => if is_space c then lstrip s' else s
  end.

Definition strip (s : string) : string :=
  reverse (lstrip (reverse (lstrip s))).

Definition digit_value (c : ascii) : option Z :=
  if is_digit_ascii c then Some (Z.of_N (code c) - 48) else None.

(** the digits of an [int] literal: digits, single underscores between them *)
Fixpoint int_digits (acc : Z) (after_digit : bool) (s : string) : option Z :=
  match s with
  | EmptyString => if after_digit then Some acc else None
  | String c s' =>
      if Ascii.eqb c "_"%char then
        if after_digit then int_digits acc false s' else None
      else
        match digit_value c with
        | Some d => int_digits (10 * acc + d) true s'
        | None => None
        end
  end.

(** [int(s)] for a string [s]; [None] is [ValueError].  ASCII digits and
    white space; the interpreter's cap on the number of digits is left out. *)
Definition int (s : string) : option Z :=
  match strip s with
  | String "+"%char r => int_digits 0 false r
  | String "-"%char r => Z.opp <$> int_digits 0 false r
  | t => int_digits 0 false t
  end.

End PyStr.

(** ** Insertion-ordered dictionaries *)

Module PyDict.

Section Dict.
Context {V : Type}.

Definition t := list (string * V).

  (** [d.get(k)] *)
Fixpoint get (k : string) (d : t) : option V :=
    match d with
    | [] => None
    | (k', v) :: d' => if String.eqb k k' then Some v else get k d'
    end.

  (** [d[k] = v]: an existing key keeps its position *)
Fixpoint set (k : string) (v : V) (d : t) : t :=
    match d with
    | [] => [(k, v)]
    | (k', v') :: d' =>
        if String.eqb k k' then (k, v) :: d' else (k', v') :: set k v d'
    end.

  (** [d.update(items)] *)
Definition update (items : t) (d : t) : t :=
    fold_left (fun acc kv => set (fst kv) (snd kv) acc) items d.

Definition keys (d : t) : list string := map fst d.
End Dict.

Arguments t : clear implicits.

End PyDict.

(** ** [x_cli/auth.py] *)

Module Auth.

Import PyStr.

Record Credentials := {
  api_key : string;
  api_secret : string;
  access_token : string;
  access_token_secret : string;
  bearer_token : string
}.

(** *** [urllib.parse.quote(s, safe="")] *)

(** the bytes [quote] never escapes, as the library lists them *)
Definition always_safe : string :=
  "ABCDEFGHIJKLMNOPQRSTUVWXYZabcdefghijklmnopqrstuvwxyz0123456789_.-~".

Definition is_unreserved (c : ascii) : bool := has_char c always_safe.

Definition hex_digit (n : N) : ascii :=
  match String.get (N.to_nat n) "0123456789ABCDEF" with
  | Some d => d
  | None => "0"%char
  end.

(** ['%{:02X}'.format(b)] *)
Definition escape (c : ascii) : string :=
  String "%"%char
    (String (hex_digit (code c / 16)) (String (hex_digit (code c mod 16)) EmptyString)).

Definition quote_byte (c : ascii) : string :=
  if is_unreserved c then String c EmptyString else escape c.

Fixpoint _percent_encode (s : string) : string :=
  match s with
  | EmptyString => EmptyString
  | String c s' => quote_byte c +:+ _percent_encode s'
  end.

(** *** [urllib.parse.unquote], [parse_qsl], [parse_qs] *)

Definition hex_value (c : ascii) : option N :=
  if is_digit_ascii c then Some (code c - 48)%N
  else if between 65 70 c then Some (code c - 55)%N
  else if between 97 102 c then Some (code c - 87)%N
  else None.

(** [%XX] becomes the byte [XX]; a [%] without two hex digits after it stays.
    The decoded bytes are taken to be valid UTF-8 (the library replaces
    invalid sequences by U+FFFD). *)
Fixpoint unquote (s : string) : string :=
  match s with
  | EmptyString => EmptyString
  | String c s' =>
      if Ascii.eqb c "%"%char then
        match s' with
        | String h (String l rest) =>
            match hex_value h, hex_value l with
            | Some a, Some b => String (ascii_of_N (16 * a + b)) (unquote rest)
            | _, _ => String c (unquote s')
            end
        | _ => String c (unquote s')
        end
      else String c (unquote s')
  end.

Definition plus_to_space (s : string) : string :=
  map_chars (fun c => if Ascii.eqb c "+"%char then " "%char else c) s.

(** one field of the query, with [keep_blank_values=True] and no strict
    parsing: an empty field is skipped, a field without [=] has value [""] *)
Definition parse_field (name_value : string) : option (string * string) :=
  if truthy name_value then
    let '(n, v) := partition "="%char name_value in
    Some (unquote (plus_to_space n), unquote (plus_to_space (default EmptyString v)))
  else None.

Definition parse_qsl (qs : string) : list (string * string) :=
  omap parse_field (split "&"%char qs).

(** [parsed_result[name].append(value)], or a fresh one-element list *)
Fixpoint qs_add (name value : string) (d : PyDict.t (list string)) : PyDict.t (list string) :=
  match d with
  | [] => [(name, [value])]
  | (k, vs) :: d' =>
      if String.eqb name k then (k, vs ++ [value]) :: d'
      else (k, vs) :: qs_add name value d'
  end.

Definition parse_qs (qs : string) : PyDict.t (list string) :=
  fold_left (fun acc nv => qs_add (fst nv) (snd nv) acc) (parse_qsl qs) [].

(** *** [urllib.parse.urlparse] *)

Record ParseResult := {
  scheme : string;
  netloc : string;
  path : string;
  params : string;
  query : string;
  fragment : string
}.

Definition scheme_char (c : ascii) : bool :=
  is_alpha_ascii c || is_digit_ascii c || has_char c "+-.".

(** [scheme, url = url[:i].lower(), url[i+1:]] when the text before the first
    colon is a scheme *)
Definition split_scheme (url : string) : string * string :=
  match partition ":"%char url with
  | (String c pre, Some rest) =>
      if is_alpha_ascii c && all_chars scheme_char pre
      then (lower (String c pre), rest) else (EmptyString, url)
  | _ => (EmptyString, url)
  end.

(** [_splitnetloc(url, 2)] after a leading [//] *)
Definition split_netloc (url : string) : string * string :=
  match url with
  | String "/"%char (String "/"%char rest) => span_until (fun c => has_char c "/?#") rest
  | _ => (EmptyString, url)
  end.

(** [_splitparams]: the parameters of the last path segment *)
Definition splitparams (url : string) : string * string :=
  let '(tail_rev, dirs_rev) := span_until (Ascii.eqb "/"%char) (reverse url) in
  let '(seg, ps) := partition ";"%char (reverse tail_rev) in
  (reverse dirs_rev +:+ seg, default EmptyString ps).

Definition uses_params : list string :=
  ["" ; "ftp"; "hdl"; "prospero"; "http"; "imap"; "https"; "shttp"; "rtsp";
   "rtsps"; "rtspu"; "sip"; "sips"; "mms"; "sftp"; "tel"].

(** The components of a URL.  The library's removal of control characters
    and its checks of bracketed hosts are left out: the URL is taken to be
    free of them. *)
Definition urlparse (url : string) : ParseResult :=
  let '(sch, url1) := split_scheme url in
  let '(loc, url2) := split_netloc url1 in
  let '(url3, frag) := partition "#"%char url2 in
  let '(url4, qry) := partition "?"%char url3 in
  let '(pth, prm) :=
    if existsb (String.eqb sch) uses_params && has_char ";"%char url4
    then splitparams url4 else (url4, EmptyString) in
  {| scheme := sch; netloc := loc; path := pth; params := prm;
     query := default EmptyString qry; fragment := default EmptyString frag |}.

(** *** [sorted] on [(key, value)] tuples *)

(** Python's order on tuples of strings: by first component, then by second *)
Definition pair_leb (a b : string * string) : bool :=
  match String.compare (fst a) (fst b) with
  | Lt => true
  | Gt => false
  | Eq => String.leb (snd a) (snd b)
  end.

Fixpoint insert_sorted (x : string * string) (l : list (string * string)) :=
  match l with
  | [] => [x]
  | y :: l' => if pair_leb x y then x :: l else y :: insert_sorted x l'
  end.

Definition sorted (l : list (string * string)) : list (string * string) :=
  fold_right insert_sorted [] l.

(** *** [generate_oauth_header] *)

(** the double-quote character *)
Definition dquote : string := String "034"%char EmptyString.

Section Signer.
  (** [base64.b64encode(hmac.new(key, msg, hashlib.sha1).digest()).decode()] *)
Variable hmac_sha1_base64 : string -> string -> string.
  (** [secrets.token_hex(16)] and [str(int(time.time()))] of this call *)
Variable nonce timestamp : string.

Variable method url : string.
Variable creds : Credentials.
Variable extra : option (PyDict.t string).

Definition oauth_params : PyDict.t string :=
    [ ("oauth_consumer_key", api_key creds);
      ("oauth_nonce", nonce);
      ("oauth_signature_method", "HMAC-SHA1");
      ("oauth_timestamp", timestamp);
      ("oauth_token", access_token creds);
      ("oauth_version", "1.0") ].

Definition parsed : ParseResult := urlparse url.

  (** [all_params[k] = v[0]] for every key of the parsed query *)
Definition add_query (qs_params : PyDict.t (list string)) (d : PyDict.t string) :=
    fold_left (fun acc kvs =>
                 match snd kvs with
                 | v :: _ => PyDict.set (fst kvs) v acc
                 | [] => acc
                 end) qs_params d.

Definition all_params : PyDict.t string :=
    let with_extra :=
      match extra with
      | Some (p :: ps) => PyDict.update (p :: ps) oauth_params
      | _ => oauth_params
      end in
    if truthy (query parsed)
    then add_query (parse_qs (query parsed)) with_extra
    else with_extra.

Definition sorted_params : list (string * string) := sorted all_params.

Definition encode_pair (kv : string * string) : string :=
    _percent_encode (fst kv) +:+ "=" +:+ _percent_encode (snd kv).

Definition param_string : string :=
    String.concat "&" (map encode_pair sorted_params).

Definition base_url : string :=
    scheme parsed +:+ "://" +:+ netloc parsed +:+ path parsed.

Definition base_string : string :=
    upper method +:+ "&" +:+ _percent_encode base_url +:+ "&" +:+ _percent_encode param_string.

Definition signing_key : string :=
    _percent_encode (api_secret creds) +:+ "&" +:+ _percent_encode (access_token_secret creds).

Definition signature : string := hmac_sha1_base64 signing_key base_string.

Definition header_pair (kv : string * string) : string :=
    _percent_encode (fst kv) +:+ "=" +:+ dquote +:+ _percent_encode (snd kv) +:+ dquote.

Definition generate_oauth_header : string :=
    let oauth_params' := PyDict.set "oauth_signature" signature oauth_params in
    "OAuth " +:+ String.concat ", " (map header_pair (sorted oauth_params')).

(** The parameter string as the specification words it: the pairs are
    percent-encoded first and sorted by encoded key, then encoded value. *)
Definition encoded_params : list (string * string) :=
    map (fun kv => (_percent_encode (fst kv), _percent_encode (snd kv))) all_params.

Definition spec_param_string : string :=
    String.concat "&" (map (fun kv => fst kv +:+ "=" +:+ snd kv) (sorted encoded_params)).
End Signer.

End Auth.

(** ** [x_cli/watch.py] *)

Module Watch.

Import PyStr.

Record WatchTarget := {
  username : string;
  user_id : string;
  last_seen_id : option string
}.

Record WatchStats := {
  tweets_seen : Z;
  polls : Z;
  per_user : gmap string Z
}.

(** [WatchStats()] *)
Definition new_stats : WatchStats :=
  {| tweets_seen := 0; polls := 0; per_user := ∅ |}.

Definition _matches_filters (text : string) (filters : list string) : bool :=
  match filters with
  | [] => true
  | _ :: _ =>
      let text_lower := lower text in
      existsb (fun f => contains (lower f) text_lower) filters
  end.

(** *** The timeline payload *)

Record NoteTweet := { note_text : option string }.

(** The fields of a tweet object the loop reads; [tweet_id] is the ["id"]
    every tweet of the API carries. *)
Record Tweet := {
  tweet_id : string;
  tweet_text : option string;
  tweet_note : option NoteTweet
}.

(** the ["includes"] object, handed to the formatter as it came *)
Definition Includes := string.

Record Timeline := {
  data : list Tweet;
  includes : Includes
}.

(** what [client.get_timeline] returns, or raises as a [RuntimeError]: a
    payload, a rate limit ([RateLimitError] is a [RuntimeError]), or another
    [RuntimeError].  Its exceptions of other kinds are in
    [WatchSteps.CallResult]. *)
Inductive FetchResult :=
| FetchOk (d : Timeline)
| RateLimitError (reset_at : string)
| RuntimeError (msg : string).

(** the text shown for a tweet: the long-form note when it has one *)
Definition display_text (tw : Tweet) : string :=
  let text := default EmptyString (tweet_text tw) in
  match tweet_note tw with
  | Some {| note_text := Some t |} => if truthy t then t else text
  | _ => text
  end.

(** *** Capabilities the loop is given *)

Class Client (World : Type) := {
  (** [client.get_timeline(user_id, max_results, since_id)] *)
  get_timeline : string -> Z -> option string -> World -> FetchResult * World;
  (** [int(time.time())] *)
  time_time : World -> Z;
  (** [time.sleep(secs)] *)
  time_sleep : Z -> World -> World
}.

(** *** What the loop does to the outside *)

Inductive LogLine :=
| LogInitializing
| LogTracking (name uid : string)
| LogWatching (names : list string) (interval : Z)
| LogFilters (filters : list string)
| LogBlank
| LogRateLimited (wait : Z)
| LogError (name msg : string)
| LogReached (max_tweets : Z)
| LogSummary (n_polls n_seen : Z) (per_target : list (string * Z)).

Inductive Event :=
| Stderr (l : LogLine)
| Fetch (uid : string) (max_results : Z) (since_id : option string)
| FormatOutput (tw : Tweet) (inc : Includes) (mode title : string) (verbose : bool)
| Notify (name text : string)
| Sleep (secs : Z).

(** the arguments of [watch_loop] besides the client and the targets *)
Record Config := {
  interval : Z;
  filters : list string;
  notify : bool;
  max_tweets : option Z;
  mode : string;
  verbose : bool
}.

(** [max_tweets and stats.tweets_seen >= max_tweets] *)
Definition budget_reached (max : option Z) (seen : Z) : bool :=
  match max with
  | Some n => negb (n =? 0) && (n <=? seen)
  | None => false
  end.

(** [stats.tweets_seen += 1; stats.per_user[u] = stats.per_user.get(u, 0) + 1] *)
Definition count_tweet (u : string) (st : WatchStats) : WatchStats :=
  {| tweets_seen := tweets_seen st + 1;
     polls := polls st;
     per_user := <[u := default 0 (per_user st !! u) + 1]> (per_user st) |}.

(** [stats.polls += 1] *)
Definition count_poll (st : WatchStats) : WatchStats :=
  {| tweets_seen := tweets_seen st;
     polls := polls st + 1;
     per_user := per_user st |}.

(** [sum(stats.per_user.values())] *)
Definition per_user_total (m : gmap string Z) : Z :=
  map_fold (fun _ v acc => v + acc) 0 m.

Definition set_last_seen (i : option string) (t : WatchTarget) : WatchTarget :=
  {| username := username t; user_id := user_id t; last_seen_id := i |}.

(** the back-off after a rate limit: [reset_at] read as an epoch, or 60 s *)
Definition rate_limit_wait (reset_at : string) (now : Z) : Z :=
  match PyStr.int reset_at with
  | Some reset => Z.max 0 (reset - now) + 5
  | None => 60
  end.

Section Loop.
Context {World : Type} `{Client World}.

  (** the client's world, the targets (mutated in place), the statistics,
      and everything done to the outside so far *)
Record State := {
    world : World;
    targets : list WatchTarget;
    stats : WatchStats;
    trace : list Event
  }.

  (** A statement either falls through or executes [return]. *)
Inductive Result (A : Type) :=
  | Normal (a : A) (s : State)
  | Returned (s : State).
Arguments Normal {A} a s.
Arguments Returned {A} s.

Definition M (A : Type) := State -> Result A.

Definition ret {A} (a : A) : M A := fun s => Normal a s.

Definition bind {A B} (m : M A) (k : A -> M B) : M B :=
    fun s => match m s with
             | Normal a s' => k a s'
             | Returned s' => Returned s'
             end.

Definition return_ : M unit := fun s => Returned s.

Definition set_world (w : World) (s : State) : State :=
  {| world := w; targets := targets s; stats := stats s; trace := trace s |}.

Definition set_targets (ts : list WatchTarget) (s : State) : State :=
  {| world := world s; targets := ts; stats := stats s; trace := trace s |}.

Definition set_stats (st : WatchStats) (s : State) : State :=
  {| world := world s; targets := targets s; stats := st; trace := trace s |}.

Definition add_events (evs : list Event) (s : State) : State :=
  {| world := world s; targets := targets s; stats := stats s;
     trace := trace s ++ evs |}.

Definition emit (e : Event) : M unit := fun s => Normal tt (add_events [e] s).

Definition modify_stats (f : WatchStats -> WatchStats) : M unit := fun s =>
  Normal tt (set_stats (f (stats s)) s).

Definition modify_target (i : nat) (f : WatchTarget -> WatchTarget) : M unit := fun s =>
  Normal tt (set_targets (alter f i (targets s)) s).

(** run a capability on the client's world *)
Definition call {A} (f : World -> A * World) : M A := fun s =>
  let '(a, w) := f (world s) in Normal a (set_world w s).

Definition get_state : M State := fun s => Normal s s.

Definition when (b : bool) (m : M unit) : M unit := if b then m else ret tt.

  (** [for x in l: body(x)] *)
Fixpoint for_each {A} (l : list A) (body : A -> M unit) : M unit :=
    match l with
    | [] => ret tt
    | x :: l' => bind (body x) (fun _ => for_each l' body)
    end.
End Loop.

Arguments State World : clear implicits.
Arguments set_world {World} w s.
Arguments set_targets {World} ts s.
Arguments set_stats {World} st s.
Arguments add_events {World} evs s.
Arguments Normal {World A} a s.
Arguments Returned {World A} s.

Declare Scope watch_scope.
Delimit Scope watch_scope with watch.
Notation "x <- m1 ;; m2" := (bind m1 (fun x => m2))
  (at level 100, m1 at next level, right associativity) : watch_scope.
Notation "m1 ;; m2" := (bind m1 (fun _ => m2))
  (at level 100, right associativity) : watch_scope.

Section WatchLoop.
Context {World : Type} `{Client World}.
Variable cfg : Config.

Local Open Scope watch_scope.

Definition summary_line (s : State World) : LogLine :=
    LogSummary (polls (stats s)) (tweets_seen (stats s))
      (map (fun t => (username t, default 0 (per_user (stats s) !! username t)))
           (targets s)).

Definition _print_summary : M unit :=
    s <- get_state ;; emit (Stderr (summary_line s)).

  (** the body of [for tweet in reversed(tweets)] *)
Definition process_tweet (name : string) (inc : Includes) (tw : Tweet) : M unit :=
    let text := display_text tw in
    if negb (_matches_filters text (filters cfg)) then ret tt
    else
      emit (FormatOutput tw inc (mode cfg) ("@" +:+ name) (verbose cfg)) ;;
      when (notify cfg) (emit (Notify name text)) ;;
      modify_stats (count_tweet name) ;;
      s <- get_state ;;
      if budget_reached (max_tweets cfg) (tweets_seen (stats s)) then
        emit (Stderr (LogReached (default 0 (max_tweets cfg)))) ;;
        _print_summary ;;
        return_
      else ret tt.

  (** the body of [for target in targets], for the target at index [i] *)
Definition poll_target (i : nat) : M unit :=
    s <- get_state ;;
    match targets s !! i with
    | None => ret tt
    | Some target =>
        emit (Fetch (user_id target) 10 (last_seen_id target)) ;;
        r <- call (get_timeline (user_id target) 10 (last_seen_id target)) ;;
        match r with
        | RateLimitError reset_at =>
            s' <- get_state ;;
            let wait := rate_limit_wait reset_at (time_time (world s')) in
            emit (Stderr (LogRateLimited wait)) ;;
            emit (Sleep wait) ;;
            call (fun w => (tt, time_sleep wait w))
        | RuntimeError msg =>
            emit (Stderr (LogError (username target) msg))
        | FetchOk d =>
            match data d with
            | [] => ret tt
            | newest :: _ =>
                for_each (rev (data d)) (process_tweet (username target) (includes d)) ;;
                modify_target i (set_last_seen (Some (tweet_id newest)))
            end
        end
    end.

  (** one pass of [for target in targets] *)
Definition run_pass : M unit :=
    s <- get_state ;; for_each (seq 0 (length (targets s))) poll_target.

  (** [_seed_last_seen] for the target at index [i], with a fetch that
      returns or raises a [RuntimeError]: the [RuntimeError] is swallowed *)
Definition _seed_last_seen (i : nat) : M unit :=
    s <- get_state ;;
    match targets s !! i with
    | None => ret tt
    | Some target =>
        emit (Fetch (user_id target) 5 None) ;;
        r <- call (get_timeline (user_id target) 5 None) ;;
        match r with
        | FetchOk {| data := newest :: _ |} =>
            modify_target i (set_last_seen (Some (tweet_id newest)))
        | _ => ret tt
        end ;;
        emit (Stderr (LogTracking (username target) (user_id target)))
    end.

Definition initialize : M unit :=
    emit (Stderr LogInitializing) ;;
    s <- get_state ;;
    for_each (seq 0 (length (targets s))) _seed_last_seen ;;
    emit (Stderr (LogWatching (map username (targets s)) (interval cfg))) ;;
    when (match filters cfg with [] => false | _ => true end)
         (emit (Stderr (LogFilters (filters cfg)))) ;;
    emit (Stderr LogBlank).

  (** how a session ends *)
Inductive Outcome := BudgetReached | Interrupted.

  (** [while True]: [fuel] full passes are made before Ctrl+C arrives, as
      the next pass begins; the handler prints the summary.  Ctrl+C at any
      other statement is in [WatchSteps.watch_loop_steps]. *)
Fixpoint polling (fuel : nat) (s : State World) : Outcome * State World :=
    match fuel with
    | O =>
        match _print_summary s with
        | Normal _ s' | Returned s' => (Interrupted, s')
        end
    | S fuel' =>
        match (run_pass ;; modify_stats count_poll ;; emit (Sleep (interval cfg)) ;;
               call (fun w => (tt, time_sleep (interval cfg) w))) s with
        | Returned s' => (BudgetReached, s')
        | Normal _ s' => polling fuel' s'
        end
    end.

Definition initial_state (ts : list WatchTarget) (w : World) : State World :=
    {| world := w; targets := ts; stats := new_stats; trace := [] |}.

  (** [watch_loop] when initialization runs to its end and Ctrl+C arrives
      after [fuel] passes *)
Definition watch_loop (ts : list WatchTarget) (w : World) (fuel : nat)
    : Outcome * State World :=
    match initialize (initial_state ts w) with
    | Normal _ s | Returned s => polling fuel s
    end.
End WatchLoop.

(** what rendering one matching tweet does to the outside *)
Definition tweet_events (cfg : Config) (name : string) (inc : Includes) (tw : Tweet)
  : list Event :=
  FormatOutput tw inc (mode cfg) ("@" +:+ name) (verbose cfg)
    :: (if notify cfg then [Notify name (display_text tw)] else []).

(** the state a statement leaves, whichever way it ends *)
Definition result_state {World A : Type} (r : @Result World A) : State World :=
  match r with
  | Normal _ s | Returned s => s
  end.

(** what the statistics are to satisfy: the total is the sum of the
    per-user counters, and no counter is negative *)
Definition stats_ok (st : WatchStats) : Prop :=
  tweets_seen st = per_user_total (per_user st) /\
  0 <= tweets_seen st /\
  0 <= polls st /\
  forall u n, per_user st !! u = Some n -> 0 <= n.

(** the same arguments with another item budget *)
Definition with_max_tweets (m : option Z) (cfg : Config) : Config :=
  {| interval := interval cfg; filters := filters cfg; notify := notify cfg;
     max_tweets := m; mode := mode cfg; verbose := verbose cfg |}.

(** the tweets handed to the formatter, in the order they were *)
Definition rendered (tr : list Event) : list Tweet :=
  omap (fun e => match e with FormatOutput tw _ _ _ _ => Some tw | _ => None end) tr.

(** *** Cursors in time order *)

(** [cursor_le id_le a b]: cursor [b] is not behind cursor [a], for an order
    [id_le] on tweet identifiers; no cursor at all is behind every cursor *)
Definition cursor_le (id_le : relation string) (a b : option string) : Prop :=
  match a, b with
  | None, _ => True
  | Some x, Some y => id_le x y
  | Some _, None => False
  end.

(** tweet identifiers are decimal numbers that grow with time *)
Definition snowflake (i : string) : Z := default 0 (PyStr.int i).

Definition snowflake_le (a b : string) : Prop := snowflake a <= snowflake b.

Definition newer_than (since : option string) (tw : Tweet) : bool :=
  match since with
  | None => true
  | Some c => snowflake c <? snowflake (tweet_id tw)
  end.

(** a target later in the session: the same account, its cursor not behind *)
Definition target_le (id_le : relation string) (t t' : WatchTarget) : Prop :=
  username t = username t' /\
  user_id t = user_id t' /\
  cursor_le id_le (last_seen_id t) (last_seen_id t').

(** a client that answers a fetch with nothing older than the [since_id]
    it was given *)
Definition honours_since_id {World : Type} `{Client World} (id_le : relation string) : Prop :=
  forall uid n since w d w' newest rest,
    get_timeline uid n since w = (FetchOk d, w') ->
    data d = newest :: rest ->
    cursor_le id_le since (Some (tweet_id newest)).

(** the filter of the session applied to a tweet *)
Definition tweet_matches (cfg : Config) (tw : Tweet) : bool :=
  _matches_filters (display_text tw) (filters cfg).

(** the number of tweets rendered so far *)
Definition rendered_count {World : Type} (s : State World) : Z :=
  Z.of_nat (length (rendered (trace s))).

(** a session still under a budget of [N]: every rendered tweet is counted,
    and fewer than [N] are *)
Definition within_budget {World : Type} (N : Z) (s : State World) : Prop :=
  rendered_count s = tweets_seen (stats s) /\ tweets_seen (stats s) < N.

(** a session stopped by a budget of [N]: the [N]-th tweet was rendered,
    notified and counted, and then only the two closing lines were printed *)
Definition stopped_at_budget {World : Type} (cfg : Config) (N : Z) (s : State World) : Prop :=
  rendered_count s = N /\
  tweets_seen (stats s) = N /\
  exists pre name inc tw,
    trace s = pre ++ tweet_events cfg name inc tw
                  ++ [Stderr (LogReached N); Stderr (summary_line s)] /\
    Z.of_nat (length (rendered pre)) = N - 1.

(** *** Two clients to run the loop against *)

(** A replayed session: the client answers each call with the next entry of
    a script, whatever it is asked. *)
Record Replay := { clock : Z; script : list FetchResult }.

#[export] Instance replay_client : Client Replay := {|
  get_timeline := fun _ _ _ w =>
    match script w with
    | [] => (FetchOk {| data := []; includes := EmptyString |}, w)
    | r :: rs => (r, {| clock := clock w; script := rs |})
    end;
  time_time := clock;
  time_sleep := fun secs w => {| clock := clock w + secs; script := script w |}
|}.

(** A simulated timeline service: each call takes the next batch of its
    feed and returns the tweets of it that are newer than [since_id]. *)
Record Service := { service_clock : Z; feed : list (list Tweet) }.

#[export] Instance service_client : Client Service := {|
  get_timeline := fun _ _ since w =>
    match feed w with
    | [] => (FetchOk {| data := []; includes := EmptyString |}, w)
    | b :: bs =>
        (FetchOk {| data := List.filter (newer_than since) b; includes := EmptyString |},
         {| service_clock := service_clock w; feed := bs |})
    end;
  time_time := service_clock;
  time_sleep := fun secs w => {| service_clock := service_clock w + secs; feed := feed w |}
|}.

(** *** A small session to run *)

Definition sample_config : Config :=
  {| interval := 30; filters := []; notify := false; max_tweets := None;
     mode := "human"; verbose := false |}.

Definition sample_tweet (i text : string) : Tweet :=
  {| tweet_id := i; tweet_text := Some text; tweet_note := None |}.

Definition sample_timeline (tws : list Tweet) : FetchResult :=
  FetchOk {| data := tws; includes := EmptyString |}.

Definition sample_target (name uid : string) (cursor : option string) : WatchTarget :=
  {| username := name; user_id := uid; last_seen_id := cursor |}.

(** a state of the loop in the middle of a session *)
Definition sample_state {World : Type} (ts : list WatchTarget) (w : World) : State World :=
  {| world := w; targets := ts; stats := new_stats; trace := [] |}.

End Watch.


(** ** More of Python's text operations *)

Module PyText.

Import PyStr.

(** a UTF-8 continuation byte: it belongs to the character begun before it *)
Definition is_continuation (c : ascii) : bool := between 128 191 c.

(** [s[:n]], counted in characters *)
Fixpoint take_chars (n : nat) (s : string) : string :=
  match s with
  | EmptyString => EmptyString
  | String c s' =>
      if is_continuation c then String c (take_chars n s')
      else match n with
           | O => EmptyString
           | S n' => String c (take_chars n' s')
           end
  end.

(** [len(s)], counted in characters *)
Fixpoint len_chars (s : string) : nat :=
  match s with
  | EmptyString => O
  | String c s' => if is_continuation c then len_chars s' else S (len_chars s')
  end.

(** [s.replace(c, by)] for a one-character ASCII pattern *)
Fixpoint replace_char (c : ascii) (by_ : string) (s : string) : string :=
  match s with
  | EmptyString => EmptyString
  | String d s' =>
      if Ascii.eqb c d then by_ +:+ replace_char c by_ s'
      else String d (replace_char c by_ s')
  end.

(** [s.lstrip(chars)] *)
Fixpoint lstrip_chars (chars : string) (s : string) : string :=
  match s with
  | EmptyString => EmptyString
  | String c s' => if has_char c chars then lstrip_chars chars s' else s
  end.

(** [str(n)] for an integer *)
Definition str_int (n : Z) : string :=
  DecimalString.NilZero.string_of_int (Z.to_int n).

End PyText.

(** ** [load_credentials] of [x_cli/auth.py] *)

Module AuthCredentials.

Import PyStr Auth.

(** how [load_credentials] ends: with the credentials, or by [SystemExit] *)
Inductive Loaded (A : Type) :=
| Ok (a : A)
| SystemExit (msg : string).
Arguments Ok {A} a.
Arguments SystemExit {A} msg.

Definition and_then {A B : Type} (m : Loaded A) (k : A -> Loaded B) : Loaded B :=
  match m with
  | Ok a => k a
  | SystemExit msg => SystemExit msg
  end.

Definition missing_message (name : string) : string :=
  "Missing env var: " +:+ name +:+ ". " +:+
  "Set X_API_KEY, X_API_SECRET, X_ACCESS_TOKEN, X_ACCESS_TOKEN_SECRET, X_BEARER_TOKEN.".

(** [require(name)], on [os.environ] as the two [.env] files left it *)
Definition require (environ : gmap string string) (name : string) : Loaded string :=
  match environ !! name with
  | Some val => if truthy val then Ok val else SystemExit (missing_message name)
  | None => SystemExit (missing_message name)
  end.

Definition load_credentials (environ : gmap string string) : Loaded Credentials :=
  and_then (require environ "X_API_KEY") (fun k =>
  and_then (require environ "X_API_SECRET") (fun s =>
  and_then (require environ "X_ACCESS_TOKEN") (fun t =>
  and_then (require environ "X_ACCESS_TOKEN_SECRET") (fun ts =>
  and_then (require environ "X_BEARER_TOKEN") (fun b =>
  Ok {| api_key := k; api_secret := s; access_token := t;
        access_token_secret := ts; bearer_token := b |}))))).

(** the variables read, in the order they are read *)
Definition required_names : list string :=
  ["X_API_KEY"; "X_API_SECRET"; "X_ACCESS_TOKEN"; "X_ACCESS_TOKEN_SECRET";
   "X_BEARER_TOKEN"].

(** a variable that is set to a non-empty value *)
Definition is_set (environ : gmap string string) (name : string) : bool :=
  match environ !! name with
  | Some val => truthy val
  | None => false
  end.

End AuthCredentials.

(** ** [x_cli/api.py]: responses and the timeline request *)

Module Api.

Import PyStr PyText.

Definition API_BASE : string := "https://api.x.com/2".

(** one entry of the ["errors"] list of a response *)
Record ApiError := {
  detail : option string;
  message : option string
}.

(** the JSON object of a response: its ["errors"] and the rest of it *)
Record Body (P : Type) := {
  errors : list ApiError;
  payload : P
}.
Arguments errors {P} b.
Arguments payload {P} b.

(** an [httpx.Response]: [header] is [resp.headers.get], [json] is [None]
    when the body does not parse *)
Record Response (P : Type) := {
  status_code : Z;
  header : string -> option string;
  json : option (Body P);
  text : string
}.
Arguments status_code {P} r.
Arguments header {P} r.
Arguments json {P} r.
Arguments text {P} r.

(** what [_handle] does with a response *)
Inductive Handled (P : Type) :=
| Returns (data : Body P)
| RaisesRateLimit (reset_at : string)
| RaisesRuntime (msg : string)
| RaisesJSONDecode.
Arguments Returns {P} data.
Arguments RaisesRateLimit {P} reset_at.
Arguments RaisesRuntime {P} msg.
Arguments RaisesJSONDecode {P}.

(** [resp.is_success] *)
Definition is_success {P : Type} (resp : Response P) : bool :=
  (200 <=? status_code resp) && (status_code resp <=? 299).

(** [e.get("detail") or e.get("message", "")] *)
Definition error_text (e : ApiError) : string :=
  match detail e with
  | Some d => if truthy d then d else default EmptyString (message e)
  | None => default EmptyString (message e)
  end.

Definition _handle {P : Type} (resp : Response P) : Handled P :=
  if status_code resp =? 429 then
    RaisesRateLimit (default "unknown" (header resp "x-rate-limit-reset"))
  else
    match json resp with
    | None => RaisesJSONDecode
    | Some data =>
        if negb (is_success resp) then
          let joined := String.concat "; " (map error_text (errors data)) in
          let msg := if truthy joined then joined else take_chars 500 (text resp) in
          RaisesRuntime ("API error (HTTP " +:+ str_int (status_code resp) +:+ "): " +:+ msg)
        else Returns data
    end.

(** the query parameters [get_timeline] sends *)
Definition timeline_params (max_results : Z) (since_id : option string) : PyDict.t string :=
  let max_results := Z.max 5 (Z.min max_results 100) in
  let params :=
    [ ("max_results", str_int max_results);
      ("tweet.fields",
       "created_at,public_metrics,author_id,conversation_id,entities,lang,note_tweet");
      ("expansions", "author_id,attachments.media_keys,referenced_tweets.id");
      ("user.fields", "name,username,verified");
      ("media.fields", "url,preview_image_url,type") ] in
  match since_id with
  | Some i => if truthy i then PyDict.set "since_id" i params else params
  | None => params
  end.

(** the URL [get_timeline] asks *)
Definition timeline_url (user_id : string) : string :=
  API_BASE +:+ "/users/" +:+ user_id +:+ "/tweets".

End Api.

(** ** [x_cli/utils.py] *)

Module Utils.

Import PyText.

Definition strip_at (username : string) : string := lstrip_chars "@" username.

End Utils.

(** ** [_notify] of [x_cli/watch.py] *)

Module WatchNotify.

Import PyStr PyText Auth.

Definition backslash : ascii := "092"%char.
Definition line_feed : ascii := "010"%char.
Definition quote_mark : ascii := "034"%char.

(** [text[:100].replace(QUOTE, BACKSLASH QUOTE).replace(NEWLINE, " ")] *)
Definition preview (text : string) : string :=
  replace_char line_feed " "
    (replace_char quote_mark (String backslash (String quote_mark EmptyString))
       (take_chars 100 text)).

(** the AppleScript handed to [osascript] on macOS *)
Definition notification_script (username text : string) : string :=
  "display notification " +:+ dquote +:+ preview text +:+ dquote +:+
  " with title " +:+ dquote +:+ "x-cli: @" +:+ username +:+ dquote.

(** every double quote of [s] comes right after a backslash *)
Fixpoint quotes_escaped (after_backslash : bool) (s : string) : bool :=
  match s with
  | EmptyString => true
  | String c s' =>
      (negb (Ascii.eqb c quote_mark) || after_backslash)
      && quotes_escaped (Ascii.eqb c backslash) s'
  end.

End WatchNotify.

(** ** Observations on a session *)

Module WatchObs.

Import Watch.

(** the accounts asked for, in the order of the calls *)
Definition fetched (tr : list Event) : list string :=
  omap (fun e => match e with Fetch uid _ _ => Some uid | _ => None end) tr.

Definition is_notify (e : Event) : bool :=
  match e with Notify _ _ => true | _ => false end.

Definition is_sleep (e : Event) : bool :=
  match e with Sleep _ => true | _ => false end.

(** the total of the per-target lines of a summary *)
Definition sum_counts (l : list (string * Z)) : Z :=
  fold_right (fun p acc => snd p + acc) 0 l.

(** every counter of [per_user] belongs to a watched account *)
Definition counted_are_targets {World : Type} (s : State World) : Prop :=
  forall u, is_Some (per_user (stats s) !! u) -> u ∈ map username (targets s).

(** the per-target lines [_print_summary] prints *)
Definition summary_counts {World : Type} (s : State World) : list (string * Z) :=
  map (fun t => (username t, default 0 (per_user (stats s) !! username t))) (targets s).

(** what a session with arguments [cfg] may do to the outside: render a
    tweet that passes the filter, in the mode and verbosity asked for;
    notify when notifications are on; log, fetch and sleep *)
Definition event_allowed (cfg : Config) (e : Event) : bool :=
  match e with
  | FormatOutput tw _ m _ v =>
      tweet_matches cfg tw && String.eqb m (mode cfg) && Bool.eqb v (verbose cfg)
  | Notify _ _ => notify cfg
  | _ => true
  end.

(** [s'] comes after [s] in a session: the trace has grown by allowed
    events, and the accounts watched are the same *)
Definition evolves {World : Type} (cfg : Config) (s s' : State World) : Prop :=
  (exists evs, trace s' = trace s ++ evs /\ forallb (event_allowed cfg) evs = true) /\
  map username (targets s') = map username (targets s) /\
  map user_id (targets s') = map user_id (targets s).

End WatchObs.

(** ** [watch_loop] of [x_cli/watch.py], statement by statement

    The loop once more, at the grain of its statements.  Ctrl+C may arrive
    before any statement: inside [try:] the handler of watch.py:167-168
    prints the summary, before [try:] (watch.py:91-103) the
    [KeyboardInterrupt] leaves [watch_loop].  A fetch may also end by an
    exception that is no [RuntimeError]; neither [except] clause catches it
    and it leaves [watch_loop] as well.  A statement is taken whole: Ctrl+C
    that arrives while a call waits counts as arriving before the call, and
    the handler itself runs to its end.  [Watch.watch_loop] is the case of
    a Ctrl+C that arrives as a new pass begins. *)

Module WatchSteps.

Import PyStr Watch.

(** [stats.tweets_seen += 1] (watch.py:153) *)
Definition line_153 (st : WatchStats) : WatchStats :=
  {| tweets_seen := tweets_seen st + 1;
     polls := polls st;
     per_user := per_user st |}.

(** [stats.per_user[u] = stats.per_user.get(u, 0) + 1] (watch.py:154) *)
Definition line_154 (u : string) (st : WatchStats) : WatchStats :=
  {| tweets_seen := tweets_seen st;
     polls := polls st;
     per_user := <[u := default 0 (per_user st !! u) + 1]> (per_user st) |}.

(** how a call of [client.get_timeline] ends: as [FetchResult] has it, or by
    an exception that is no [RuntimeError] ([json.JSONDecodeError] out of
    [resp.json()] at api.py:49, a transport error of [httpx] at api.py:132) *)
Inductive CallResult :=
| Completes (r : FetchResult)
| OtherError (exc : string).

Class Remote (World : Type) := {
  (** [client.get_timeline(user_id, max_results, since_id)] *)
  call_timeline : string -> Z -> option string -> World -> CallResult * World;
  (** [int(time.time())] *)
  clock_time : World -> Z;
  (** [time.sleep(secs)] *)
  clock_sleep : Z -> World -> World
}.

(** a client whose calls end as [FetchResult] has it *)
#[export] Instance remote_of_client {World : Type} `{Client World} : Remote World := {|
  call_timeline := fun uid n since w =>
    let '(r, w') := get_timeline uid n since w in (Completes r, w');
  clock_time := time_time;
  clock_sleep := time_sleep
|}.

(** why a statement did not fall through to the next one *)
Inductive Stop :=
| ByReturn                           (** [return] (watch.py:159) *)
| ByKeyboardInterrupt (line : nat)   (** Ctrl+C, when the statement at [line] was next *)
| ByException (exc : string).        (** an exception that is no [RuntimeError] *)

Section Steps.
Context {World : Type} `{Remote World}.

(** A statement run with Ctrl+C [fuel] statements away: it falls through,
    with the statements that are left until Ctrl+C, or it stops. *)
Inductive Run (A : Type) :=
| Done (a : A) (s : State World) (fuel : nat)
| Stopped (why : Stop) (s : State World).
Arguments Done {A} a s fuel.
Arguments Stopped {A} why s.

Definition MS (A : Type) := nat -> State World -> Run A.

Definition sret {A} (a : A) : MS A := fun fuel s => Done a s fuel.

Definition sbind {A B} (m : MS A) (k : A -> MS B) : MS B :=
  fun fuel s => match m fuel s with
                | Done a s' fuel' => k a fuel' s'
                | Stopped why s' => Stopped why s'
                end.

Definition sget : MS (State World) := fun fuel s => Done s s fuel.

(** the statement at [line], which changes the state by [f] *)
Definition stmt (line : nat) (f : State World -> State World) : MS unit :=
  fun fuel s => match fuel with
                | O => Stopped (ByKeyboardInterrupt line) s
                | S fuel' => Done tt (f s) fuel'
                end.

(** [return] at [line] *)
Definition stmt_return (line : nat) : MS unit :=
  fun fuel s => match fuel with
                | O => Stopped (ByKeyboardInterrupt line) s
                | S _ => Stopped ByReturn s
                end.

(** [client.get_timeline(uid, max_results=n, since_id=since)] at [line] *)
Definition stmt_fetch (line : nat) (uid : string) (n : Z) (since : option string)
  : MS FetchResult :=
  fun fuel s => match fuel with
                | O => Stopped (ByKeyboardInterrupt line) s
                | S fuel' =>
                    let s1 := add_events [Fetch uid n since] s in
                    match call_timeline uid n since (world s) with
                    | (Completes r, w) => Done r (set_world w s1) fuel'
                    | (OtherError exc, w) => Stopped (ByException exc) (set_world w s1)
                    end
                end.

(** [time.sleep(secs)] *)
Definition sleep (secs : Z) (s : State World) : State World :=
  set_world (clock_sleep secs (world s)) (add_events [Sleep secs] s).

(** [_stderr.print(...)] *)
Definition print (l : LogLine) (s : State World) : State World :=
  add_events [Stderr l] s.

(** [for x in l: body(x)] *)
Fixpoint sfor_each {A} (l : list A) (body : A -> MS unit) : MS unit :=
  match l with
  | [] => sret tt
  | x :: l' => sbind (body x) (fun _ => sfor_each l' body)
  end.
End Steps.

Arguments Run World A : clear implicits.
Arguments MS World A : clear implicits.
Arguments Done {World A} a s fuel.
Arguments Stopped {World A} why s.

Declare Scope steps_scope.
Delimit Scope steps_scope with steps.
Notation "x <- m1 ;; m2" := (sbind m1 (fun x => m2))
  (at level 100, m1 at next level, right associativity) : steps_scope.
Notation "m1 ;; m2" := (sbind m1 (fun _ => m2))
  (at level 100, right associativity) : steps_scope.

Section WatchLoopSteps.
Context {World : Type} `{Remote World}.
Variable cfg : Config.

Local Open Scope steps_scope.

(** the body of [for tweet in reversed(tweets)] (watch.py:135-159) *)
Definition process_tweet_steps (name : string) (inc : Includes) (tw : Tweet) : MS World unit :=
  let text := display_text tw in
  if negb (_matches_filters text (filters cfg)) then sret tt
  else
    stmt 148 (add_events [FormatOutput tw inc (mode cfg) ("@" +:+ name) (verbose cfg)]) ;;
    (if notify cfg then stmt 151 (add_events [Notify name text]) else sret tt) ;;
    stmt 153 (fun s => set_stats (line_153 (stats s)) s) ;;
    stmt 154 (fun s => set_stats (line_154 name (stats s)) s) ;;
    s <- sget ;;
    if budget_reached (max_tweets cfg) (tweets_seen (stats s)) then
      stmt 157 (print (LogReached (default 0 (max_tweets cfg)))) ;;
      stmt 158 (fun s => print (summary_line s) s) ;;
      stmt_return 159
    else sret tt.

(** the body of [for target in targets] (watch.py:108-162), for the target
    at index [i] *)
Definition poll_target_steps (i : nat) : MS World unit :=
  s <- sget ;;
  match targets s !! i with
  | None => sret tt
  | Some target =>
      r <- stmt_fetch 109 (user_id target) 10 (last_seen_id target) ;;
      match r with
      | RateLimitError reset_at =>
          s' <- sget ;;
          let wait := rate_limit_wait reset_at (clock_time (world s')) in
          stmt 120 (print (LogRateLimited wait)) ;;
          stmt 121 (sleep wait)
      | RuntimeError msg =>
          stmt 124 (print (LogError (username target) msg))
      | FetchOk d =>
          match data d with
          | [] => sret tt
          | newest :: _ =>
              sfor_each (rev (data d))
                        (process_tweet_steps (username target) (includes d)) ;;
              stmt 162 (fun s => set_targets
                                   (alter (set_last_seen (Some (tweet_id newest))) i (targets s)) s)
          end
      end
  end.

(** one turn of [while True] (watch.py:107-165) *)
Definition run_pass_steps : MS World unit :=
  s <- sget ;;
  sfor_each (seq 0 (length (targets s))) poll_target_steps ;;
  stmt 164 (fun s => set_stats (count_poll (stats s)) s) ;;
  stmt 165 (sleep (interval cfg)).

(** [_seed_last_seen] and the line printed after it (watch.py:96-97), for
    the target at index [i]; [except RuntimeError] lets Ctrl+C and every
    other exception through *)
Definition seed_steps (i : nat) : MS World unit :=
  s <- sget ;;
  match targets s !! i with
  | None => sret tt
  | Some target =>
      r <- stmt_fetch 62 (user_id target) 5 None ;;
      match r with
      | FetchOk {| data := newest :: _ |} =>
          stmt 65 (fun s => set_targets
                              (alter (set_last_seen (Some (tweet_id newest))) i (targets s)) s)
      | _ => sret tt
      end ;;
      stmt 97 (print (LogTracking (username target) (user_id target)))
  end.

(** watch.py:94-103 *)
Definition initialize_steps : MS World unit :=
  stmt 94 (print LogInitializing) ;;
  s <- sget ;;
  sfor_each (seq 0 (length (targets s))) seed_steps ;;
  s' <- sget ;;
  stmt 100 (print (LogWatching (map username (targets s')) (interval cfg))) ;;
  (match filters cfg with
   | [] => sret tt
   | _ :: _ => stmt 102 (print (LogFilters (filters cfg)))
   end) ;;
  stmt 103 (print LogBlank).

(** [while True], for [turns] turns at most.  A turn takes two statements
    or more, so with more turns than statements are left it is Ctrl+C, the
    budget or an exception that ends the loop, and [turns] is immaterial. *)
Fixpoint loop_steps (turns fuel : nat) (s : State World) : Stop * State World :=
  match turns with
  | O => (ByKeyboardInterrupt 106, s)
  | S turns' =>
      match run_pass_steps fuel s with
      | Done _ s' fuel' => loop_steps turns' fuel' s'
      | Stopped why s' => (why, s')
      end
  end.

(** how [watch_loop] is left *)
Inductive Ending :=
| EndBudget                    (** by [return], the summary printed at line 158 *)
| EndInterrupted (line : nat)  (** by Ctrl+C inside [try:], the handler printed the summary *)
| EndAborted (line : nat)      (** by Ctrl+C before [try:]: [KeyboardInterrupt] propagates *)
| EndCrashed (exc : string).   (** by an exception that propagates *)

(** [try: while True: ... except KeyboardInterrupt: _print_summary(...)] *)
Definition try_loop (fuel : nat) (s : State World) : Ending * State World :=
  match loop_steps (S fuel) fuel s with
  | (ByReturn, s') => (EndBudget, s')
  | (ByKeyboardInterrupt line, s') => (EndInterrupted line, print (summary_line s') s')
  | (ByException exc, s') => (EndCrashed exc, s')
  end.

(** [watch_loop] when Ctrl+C arrives [fuel] statements after its start;
    initialization has no [return] *)
Definition watch_loop_steps (ts : list WatchTarget) (w : World) (fuel : nat)
  : Ending * State World :=
  match initialize_steps fuel (initial_state ts w) with
  | Done _ s fuel' => try_loop fuel' s
  | Stopped (ByKeyboardInterrupt line) s => (EndAborted line, s)
  | Stopped (ByException exc) s => (EndCrashed exc, s)
  | Stopped ByReturn s => (EndBudget, s)
  end.

(** [triple P m Q E]: from a state with [P], statement [m] falls through to
    a state with [Q] or stops in a state with [E] *)
Definition triple {A} (P : State World -> Prop) (m : MS World A)
    (Q : A -> State World -> Prop) (E : Stop -> State World -> Prop) : Prop :=
  forall fuel s, P s ->
    match m fuel s with
    | Done a s' _ => Q a s'
    | Stopped why s' => E why s'
    end.
End WatchLoopSteps.

(** the state a statement leaves, whichever way it ends *)
Definition run_state {World A : Type} (r : Run World A) : State World :=
  match r with
  | Done _ s _ | Stopped _ s => s
  end.

(** [ms], given [cost] statements or more, does what [r] says *)
Definition runs_as {World A : Type} (r : Result A) (ms : MS World A) (s : State World)
    (cost : nat) : Prop :=
  match r with
  | Normal a s' => forall k, ms (cost + k)%nat s = Done a s' k
  | Returned s' => forall k, ms (cost + k)%nat s = Stopped ByReturn s'
  end.

(** the statistics between lines 153 and 154: the total is one ahead of the
    per-user counters, and no counter is negative *)
Definition stats_between (st : WatchStats) : Prop :=
  tweets_seen st = per_user_total (per_user st) + 1 /\
  0 <= tweets_seen st /\
  0 <= polls st /\
  forall u n, per_user st !! u = Some n -> 0 <= n.

(** what the statistics satisfy where a statement stops: Ctrl+C with line
    154 next finds them between the two updates *)
Definition stats_when (why : Stop) (st : WatchStats) : Prop :=
  match why with
  | ByKeyboardInterrupt line => if (line =? 154)%nat then stats_between st else stats_ok st
  | _ => stats_ok st
  end.

(** a remote that answers a fetch with nothing older than the [since_id]
    it was given *)
Definition answers_since_id {World : Type} `{Remote World} (id_le : relation string) : Prop :=
  forall uid n since w d w' newest rest,
    call_timeline uid n since w = (Completes (FetchOk d), w') ->
    data d = newest :: rest ->
    cursor_le id_le since (Some (tweet_id newest)).

(** a summary, as [_print_summary] prints it *)
Definition is_summary (e : Event) : bool :=
  match e with Stderr (LogSummary _ _ _) => true | _ => false end.

(** no summary has been printed *)
Definition no_summary {World : Type} (s : State World) : Prop :=
  forallb (fun e => negb (is_summary e)) (trace s) = true.

(** the accounts watched are [names], and every counter of [per_user]
    belongs to one of them *)
Definition counted_among {World : Type} (names : list string) (s : State World) : Prop :=
  map username (targets s) = names /\
  forall u, is_Some (per_user (stats s) !! u) -> u ∈ names.

(** the statements between the rendering of a tweet and the [return] that a
    reached budget executes *)
Definition after_rendering (line : nat) : bool :=
  existsb (Nat.eqb line) [151; 153; 154; 157; 158; 159]%nat.

(** *** The same run with Ctrl+C one statement later *)

(** [later] is what [sooner] becomes when Ctrl+C comes one statement later:
    a run that fell through, returned or raised is the same run; a run that
    Ctrl+C stopped has gone on by one statement at most, to a state that
    [rel] relates to the one it was stopped in *)
Definition one_more {World A : Type} (rel : relation (State World))
    (sooner later : Run World A) : Prop :=
  match sooner with
  | Done a s k => later = Done a s (S k)
  | Stopped (ByKeyboardInterrupt _) s =>
      match later with
      | Done _ s' k' => k' = O /\ rel s s'
      | Stopped _ s' => rel s s'
      end
  | Stopped why s => later = Stopped why s
  end.

(** from a state with [P], one statement more takes [m] on by [rel] *)
Definition steady {World A : Type} (P : State World -> Prop) (rel : relation (State World))
    (m : MS World A) : Prop :=
  forall fuel s, P s -> one_more rel (m fuel s) (m (S fuel) s).

(** with no statement left, [m] leaves the state as it is *)
Definition idle {World A : Type} (m : MS World A) : Prop :=
  forall s, match m O s with
            | Done _ s' k => s' = s /\ k = O
            | Stopped _ s' => s' = s
            end.

(** the targets of [s'] are those of [s], with no cursor behind *)
Definition cursors_le {World : Type} (id_le : relation string) (s s' : State World) : Prop :=
  Forall2 (target_le id_le) (targets s) (targets s').

(** A replayed session whose calls may also end by another exception. *)
Record Tape := { tape_clock : Z; tape : list CallResult }.

#[export] Instance tape_remote : Remote Tape := {|
  call_timeline := fun _ _ _ w =>
    match tape w with
    | [] => (Completes (FetchOk {| data := []; includes := EmptyString |}), w)
    | r :: rs => (r, {| tape_clock := tape_clock w; tape := rs |})
    end;
  clock_time := tape_clock;
  clock_sleep := fun secs w => {| tape_clock := tape_clock w + secs; tape := tape w |}
|}.

End WatchSteps.

(** * Properties of the signer *)

Module AuthProofs.

Import PyStr Auth.

(** ** Percent-encoding *)

Ltac each_byte c := destruct c as [[] [] [] [] [] [] [] []].

Lemma is_unreserved_ranges (c : ascii) :
  is_unreserved c = is_alpha_ascii c || is_digit_ascii c || has_char c "-._~".
Proof. each_byte c; reflexivity. Qed.

Lemma percent_encode_cons (c : ascii) (s : string) :
  _percent_encode (String c s) =
  if is_unreserved c then String c (_percent_encode s)
  else String "%"%char
         (String (hex_digit (code c / 16))
            (String (hex_digit (code c mod 16)) (_percent_encode s))).
Proof. simpl. unfold quote_byte. destruct (is_unreserved c); reflexivity. Qed.

Lemma percent_encode_unreserved (s : string) :
  all_chars is_unreserved s = true -> _percent_encode s = s.
Proof.
  induction s as [|c s IH]; simpl; [reflexivity|].
  intros [Hc Hs]%andb_true_iff.
  unfold quote_byte. rewrite Hc. simpl. f_equal. auto.
Qed.

Lemma unquote_escape (c : ascii) : unquote (escape c) = String c EmptyString.
Proof. each_byte c; reflexivity. Qed.

Lemma escape_upper_hex (c : ascii) :
  all_chars (fun d => negb (is_lower_ascii d)) (escape c) = true.
Proof. each_byte c; reflexivity. Qed.

Lemma has_char_append (c : ascii) (a b : string) :
  has_char c (a +:+ b) = has_char c a || has_char c b.
Proof.
  induction a as [|d a IH]; simpl; [reflexivity|].
  rewrite IH. apply orb_assoc.
Qed.

Lemma quote_byte_alphabet (c : ascii) :
  all_chars (fun d => is_unreserved d || Ascii.eqb d "%"%char) (quote_byte c) = true.
Proof. each_byte c; reflexivity. Qed.

Lemma all_chars_append (p : ascii -> bool) (a b : string) :
  all_chars p (a +:+ b) = all_chars p a && all_chars p b.
Proof.
  induction a as [|d a IH]; simpl; [reflexivity|].
  rewrite IH. apply andb_assoc.
Qed.

Lemma percent_encode_alphabet (s : string) :
  all_chars (fun d => is_unreserved d || Ascii.eqb d "%"%char) (_percent_encode s) = true.
Proof.
  induction s as [|c s IH]; simpl; [reflexivity|].
  rewrite all_chars_append, quote_byte_alphabet, IH. reflexivity.
Qed.

Lemma all_chars_has_char (p : ascii -> bool) (c : ascii) (s : string) :
  all_chars p s = true -> p c = false -> has_char c s = false.
Proof.
  induction s as [|d s IH]; simpl; [reflexivity|].
  intros [Hd Hs]%andb_true_iff Hc.
  rewrite (IH Hs Hc), orb_false_r.
  destruct (Ascii.eqb_spec c d) as [->|]; [congruence | reflexivity].
Qed.

(** C8. [_percent_encode] leaves a string of unreserved characters (letters,
    digits, [-], [.], [_], [~]) as it is, and replaces every other byte by
    [%] and its two upper-case hex digits; space becomes [%20], never [+],
    and [/], [:], [?], [&], [=] are escaped. *)
Theorem percent_encode_unreserved_kept_others_escaped :
  (forall c, is_unreserved c = is_alpha_ascii c || is_digit_ascii c || has_char c "-._~") /\
  (forall s, all_chars is_unreserved s = true -> _percent_encode s = s) /\
  (forall c s, is_unreserved c = true ->
     _percent_encode (String c s) = String c (_percent_encode s)) /\
  (forall c s, is_unreserved c = false ->
     _percent_encode (String c s) = escape c +:+ _percent_encode s /\
     unquote (escape c) = String c EmptyString /\
     String.length (escape c) = 3%nat /\
     all_chars (fun d => negb (is_lower_ascii d)) (escape c) = true) /\
  (forall s, has_char "+"%char (_percent_encode s) = false /\
             has_char " "%char (_percent_encode s) = false) /\
  _percent_encode " " = "%20" /\
  _percent_encode "/" = "%2F" /\
  _percent_encode ":" = "%3A" /\
  _percent_encode "?" = "%3F" /\
  _percent_encode "&" = "%26" /\
  _percent_encode "=" = "%3D".
Proof.
  split; [exact is_unreserved_ranges|].
  split; [exact percent_encode_unreserved|].
  split.
  { intros c s Hc. simpl. unfold quote_byte. rewrite Hc. reflexivity. }
  split.
  { intros c s Hc. simpl. unfold quote_byte. rewrite Hc.
    split; [reflexivity|]. split; [apply unquote_escape|].
    split; [reflexivity | apply escape_upper_hex]. }
  split.
  { intros s; split;
      (eapply all_chars_has_char; [apply percent_encode_alphabet | reflexivity]). }
  repeat split.
Qed.

Lemma percent_encode_unreserved_kept_others_escaped_witness :
  _percent_encode "tweet.fields" = "tweet.fields" /\
  _percent_encode "~x" = String "~"%char (_percent_encode "x") /\
  _percent_encode "a b" = "a%20b".
Proof.
  destruct percent_encode_unreserved_kept_others_escaped
    as (_ & Hid & Hkeep & Hesc & _).
  split; [apply (Hid "tweet.fields"); reflexivity|].
  split; [apply (Hkeep "~"%char "x"); reflexivity|].
  change (_percent_encode "a b") with
    (String "a"%char (_percent_encode (String " "%char "b"))).
  rewrite (proj1 (Hesc " "%char "b" eq_refl)). reflexivity.
Defined.

(** ** Strings *)

Lemma append_cons (x : ascii) (a b : string) :
  String x a +:+ b = String x (a +:+ b).
Proof. reflexivity. Qed.

Lemma append_assoc (a b c : string) : (a +:+ b) +:+ c = a +:+ (b +:+ c).
Proof.
  induction a as [|x a IH]; [reflexivity|].
  now rewrite !append_cons, IH.
Qed.

Lemma append_empty_r (a : string) : a +:+ EmptyString = a.
Proof.
  induction a as [|x a IH]; [reflexivity|].
  now rewrite append_cons, IH.
Qed.

Lemma substring_of_here (n rest : string) : substring_of n (n +:+ rest).
Proof. exists EmptyString, rest. reflexivity. Qed.

Lemma substring_of_append_l (n a b : string) :
  substring_of n a -> substring_of n (a +:+ b).
Proof.
  intros (pre & post & ->). exists pre, (post +:+ b).
  now rewrite !append_assoc.
Qed.

Lemma substring_of_append_r (n a b : string) :
  substring_of n b -> substring_of n (a +:+ b).
Proof.
  intros (pre & post & ->). exists (a +:+ pre), post.
  now rewrite !append_assoc.
Qed.

Lemma substring_of_concat (n sep x : string) (l : list string) :
  x ∈ l -> substring_of n x -> substring_of n (String.concat sep l).
Proof.
  intros Hin Hx. induction Hin as [x l | x y l Hin IH].
  - destruct l as [|y l]; simpl; [assumption|].
    now apply substring_of_append_l.
  - destruct l as [|z l]; [inversion Hin|].
    change (String.concat sep (y :: z :: l))
      with (y +:+ sep +:+ String.concat sep (z :: l)).
    apply substring_of_append_r, substring_of_append_r, IH, Hx.
Qed.

(** ** The header *)

(** C7. The header is ["OAuth "] followed by the comma-space-joined pairs
    [percent_encode(key)="percent_encode(value)"] of the six oauth
    parameters and the signature, in key order; the extra and query
    parameters are not among them.  So it starts with ["OAuth "] and has
    the fields [oauth_consumer_key], [oauth_token] and [oauth_signature]. *)
Theorem header_is_sorted_oauth_pairs
    (hmac : string -> string -> string) (nonce timestamp method url : string)
    (creds : Credentials) (extra : option (PyDict.t string)) :
  let header := generate_oauth_header hmac nonce timestamp method url creds extra in
  header =
    "OAuth " +:+ String.concat ", " (map header_pair
      [ ("oauth_consumer_key", api_key creds);
        ("oauth_nonce", nonce);
        ("oauth_signature", signature hmac nonce timestamp method url creds extra);
        ("oauth_signature_method", "HMAC-SHA1");
        ("oauth_timestamp", timestamp);
        ("oauth_token", access_token creds);
        ("oauth_version", "1.0") ]) /\
  String.prefix "OAuth " header = true /\
  substring_of ("oauth_consumer_key=" +:+ dquote +:+ _percent_encode (api_key creds) +:+ dquote) header /\
  substring_of ("oauth_token=" +:+ dquote +:+ _percent_encode (access_token creds) +:+ dquote) header /\
  substring_of ("oauth_signature=" +:+ dquote +:+
                _percent_encode (signature hmac nonce timestamp method url creds extra) +:+ dquote)
               header.
Proof.
  intros header.
  assert (Hshape : header =
    "OAuth " +:+ String.concat ", " (map header_pair
      [ ("oauth_consumer_key", api_key creds);
        ("oauth_nonce", nonce);
        ("oauth_signature", signature hmac nonce timestamp method url creds extra);
        ("oauth_signature_method", "HMAC-SHA1");
        ("oauth_timestamp", timestamp);
        ("oauth_token", access_token creds);
        ("oauth_version", "1.0") ])) by reflexivity.
  split; [exact Hshape|]. split; [reflexivity|].
  rewrite Hshape.
  repeat split; apply substring_of_append_r;
    eapply substring_of_concat;
    try (apply substring_of_here with (rest := EmptyString)).
  - apply list_elem_of_In. left. unfold header_pair. simpl fst. simpl snd.
    rewrite append_empty_r. reflexivity.
  - apply list_elem_of_In. do 5 right. left. unfold header_pair. simpl fst. simpl snd.
    rewrite append_empty_r. reflexivity.
  - apply list_elem_of_In. do 2 right. left. unfold header_pair. simpl fst. simpl snd.
    rewrite append_empty_r. reflexivity.
Qed.

(** ** Sorting keeps the pairs *)

Lemma elem_of_insert_sorted (x y : string * string) (l : list (string * string)) :
  x ∈ insert_sorted y l <-> x = y \/ x ∈ l.
Proof.
  induction l as [|z l IH]; simpl.
  - rewrite list_elem_of_singleton, elem_of_nil. tauto.
  - destruct (pair_leb y z).
    + rewrite elem_of_cons. reflexivity.
    + rewrite !elem_of_cons, IH. tauto.
Qed.

Lemma elem_of_sorted (x : string * string) (l : list (string * string)) :
  x ∈ sorted l <-> x ∈ l.
Proof.
  induction l as [|y l IH]; simpl; [reflexivity|].
  rewrite elem_of_insert_sorted, IH, elem_of_cons. reflexivity.
Qed.

(** ** Dictionaries *)

Section DictFacts.
Context {V : Type}.
Implicit Types (d : PyDict.t V) (k : string) (v : V).

Lemma get_set_eq k v d : PyDict.get k (PyDict.set k v d) = Some v.
Proof.
  induction d as [|[k' v'] d IH]; simpl.
  - now rewrite String.eqb_refl.
  - destruct (String.eqb_spec k k') as [->|Hne]; simpl.
    + now rewrite String.eqb_refl.
    + destruct (String.eqb_spec k k'); [contradiction | exact IH].
Qed.

Lemma get_set_ne k k' v d : k <> k' -> PyDict.get k (PyDict.set k' v d) = PyDict.get k d.
Proof.
  intros Hne. induction d as [|[k0 v0] d IH]; simpl.
  - destruct (String.eqb_spec k k'); [contradiction | reflexivity].
  - destruct (String.eqb_spec k' k0) as [->|Hne0]; simpl.
    + destruct (String.eqb_spec k k0); [contradiction | reflexivity].
    + destruct (String.eqb_spec k k0); [reflexivity | exact IH].
Qed.

Lemma get_elem_of k v d : PyDict.get k d = Some v -> (k, v) ∈ d.
Proof.
  induction d as [|[k0 v0] d IH]; simpl; [discriminate|].
  destruct (String.eqb_spec k k0) as [->|Hne].
  - intros [= ->]. left.
  - intros Hg. right. auto.
Qed.
End DictFacts.

(** ** The parsed query *)

Lemma qs_add_keys (n v k : string) (d : PyDict.t (list string)) :
  k ∈ map fst (qs_add n v d) -> k = n \/ k ∈ map fst d.
Proof.
  induction d as [|[k0 vs0] d IH]; simpl.
  - rewrite list_elem_of_singleton. auto.
  - destruct (String.eqb_spec n k0) as [->|Hne]; simpl; [auto|].
    rewrite !elem_of_cons. intros [->|Hin]; [auto|].
    destruct (IH Hin); auto.
Qed.

Lemma qs_add_NoDup (n v : string) (d : PyDict.t (list string)) :
  NoDup (map fst d) -> NoDup (map fst (qs_add n v d)).
Proof.
  induction d as [|[k0 vs0] d IH]; simpl.
  - intros _. apply NoDup_singleton.
  - destruct (String.eqb_spec n k0) as [->|Hne]; simpl; [auto|].
    rewrite !NoDup_cons. intros [Hnotin Hnd]. split; [|auto].
    intros [->|Hin]%qs_add_keys; [congruence | contradiction].
Qed.

Lemma parse_qs_NoDup (qs : string) : NoDup (map fst (parse_qs qs)).
Proof.
  unfold parse_qs.
  assert (Hgen : forall pairs d, NoDup (map fst d) ->
            NoDup (map fst (fold_left
              (fun acc nv => qs_add (fst nv) (snd nv) acc) pairs d))).
  { induction pairs as [|p pairs IH]; simpl; [auto|].
    intros d Hd. apply IH, qs_add_NoDup, Hd. }
  apply Hgen. constructor.
Qed.

Lemma add_query_cons (k : string) (vs : list string)
    (qs : PyDict.t (list string)) (d : PyDict.t string) :
  add_query ((k, vs) :: qs) d =
  add_query qs (match vs with v :: _ => PyDict.set k v d | [] => d end).
Proof. reflexivity. Qed.

Lemma add_query_get_other (k : string) (qs : PyDict.t (list string)) (d : PyDict.t string) :
  k ∉ map fst qs -> PyDict.get k (add_query qs d) = PyDict.get k d.
Proof.
  revert d. induction qs as [|[k0 vs0] qs IH]; [reflexivity|].
  intros d Hnotin. simpl in Hnotin.
  rewrite not_elem_of_cons in Hnotin. destruct Hnotin as [Hne Hnotin].
  rewrite add_query_cons, IH by assumption.
  destruct vs0 as [|v0 vs0]; [reflexivity|].
  now apply get_set_ne.
Qed.

Lemma add_query_get_first (k v : string) (vs : list string)
    (qs : PyDict.t (list string)) (d : PyDict.t string) :
  NoDup (map fst qs) -> (k, v :: vs) ∈ qs ->
  PyDict.get k (add_query qs d) = Some v.
Proof.
  revert d. induction qs as [|[k0 vs0] qs IH]; intros d Hnd Hin.
  - inversion Hin.
  - simpl in Hnd. rewrite NoDup_cons in Hnd. destruct Hnd as [Hnotin Hnd].
    rewrite add_query_cons.
    rewrite elem_of_cons in Hin. destruct Hin as [[= <- <-]|Hin].
    + rewrite add_query_get_other by assumption. apply get_set_eq.
    + now apply IH.
Qed.

(** ** The signature base string *)

(** What the signer does with a repeated query key: the second pair of
    [?a=1&a=2] is parsed out of the URL and is not signed. *)
Lemma repeated_query_key_is_dropped :
  let url := "https://api.example.com/2/tweets?a=1&a=2" in
  let creds := {| api_key := "ck"; api_secret := "cs"; access_token := "at";
                  access_token_secret := "ats"; bearer_token := "bt" |} in
  (("a", "2") ∈ parse_qsl (query (urlparse url))) /\
  (("a", "2") ∉ sorted_params "nonce" "1700000000" url creds None) /\
  param_string "nonce" "1700000000" url creds None =
    "a=1&oauth_consumer_key=ck&oauth_nonce=nonce&oauth_signature_method=HMAC-SHA1&oauth_timestamp=1700000000&oauth_token=at&oauth_version=1.0".
Proof.
  cbv zeta. split; [|split].
  - apply list_elem_of_In. vm_compute. auto.
  - rewrite list_elem_of_In. vm_compute. intuition discriminate.
  - vm_compute. reflexivity.
Qed.

Lemma parse_qs_keys_cover (qs : string) (k v : string) :
  (k, v) ∈ parse_qsl qs -> exists v1 vs, (k, v1 :: vs) ∈ parse_qs qs.
Proof.
  unfold parse_qs.
  assert (Hadd : forall n x d, exists v1 vs, (n, v1 :: vs) ∈ qs_add n x d).
  { intros n x d. induction d as [|[k0 vs0] d IH]; simpl.
    - exists x, []. left.
    - destruct (String.eqb_spec n k0) as [->|Hne].
      + destruct vs0 as [|v0 vs0]; [exists x, [] | exists v0, (vs0 ++ [x])]; left.
      + destruct IH as (v1 & vs & Hin). exists v1, vs. now right. }
  assert (Hkeep : forall n x d k1 v1 vs, (k1, v1 :: vs) ∈ d ->
            exists vs', (k1, v1 :: vs') ∈ qs_add n x d).
  { intros n x d k1 v1 vs. induction d as [|[k0 vs0] d IH]; simpl; intros Hin.
    - inversion Hin.
    - rewrite elem_of_cons in Hin. destruct Hin as [[= <- <-]|Hin].
      + destruct (String.eqb_spec n k1) as [->|Hne];
          [exists (vs ++ [x]) | exists vs]; left.
      + destruct (String.eqb_spec n k0).
        * exists vs. right. exact Hin.
        * destruct (IH Hin) as (vs' & Hin'). exists vs'. right. exact Hin'. }
  assert (Hfold : forall pairs d k1 v1 vs, (k1, v1 :: vs) ∈ d ->
            exists vs', (k1, v1 :: vs') ∈
              fold_left (fun acc nv => qs_add (fst nv) (snd nv) acc) pairs d).
  { induction pairs as [|p pairs IH]; simpl; intros d k1 v1 vs Hin; [eauto|].
    destruct (Hkeep (fst p) (snd p) d k1 v1 vs Hin) as (vs' & Hin'). eauto. }
  generalize (@nil (string * list string)).
  induction (parse_qsl qs) as [|p pairs IH]; simpl; intros d Hin.
  - inversion Hin.
  - rewrite elem_of_cons in Hin. destruct Hin as [<-|Hin]; [|eauto].
    simpl. destruct (Hadd k v d) as (v1 & vs & Hin1).
    destruct (Hfold pairs _ _ _ _ Hin1) as (vs' & Hin'). eauto.
Qed.

(** ** The base URL has no query *)

Lemma has_char_rev_onto (c : ascii) (s acc : string) :
  has_char c (rev_onto s acc) = has_char c s || has_char c acc.
Proof.
  revert acc. induction s as [|d s IH]; intros acc; simpl; [reflexivity|].
  rewrite IH. simpl. destruct (Ascii.eqb c d), (has_char c s); reflexivity.
Qed.

Lemma has_char_reverse (c : ascii) (s : string) :
  has_char c (reverse s) = has_char c s.
Proof. unfold reverse. rewrite has_char_rev_onto. simpl. apply orb_false_r. Qed.

Lemma partition_chars (c d : ascii) (s : string) :
  has_char d s = false ->
  has_char d (fst (partition c s)) = false /\
  has_char d (default EmptyString (snd (partition c s))) = false.
Proof.
  induction s as [|x s IH]; simpl; [auto|].
  intros [Hx Hs]%orb_false_iff.
  destruct (Ascii.eqb c x); simpl; [auto|].
  destruct (partition c s) as [a b]. simpl in *.
  rewrite Hx. simpl. auto.
Qed.

Lemma partition_fst_free (c : ascii) (s : string) :
  has_char c (fst (partition c s)) = false.
Proof.
  induction s as [|x s IH]; simpl; [reflexivity|].
  destruct (Ascii.eqb c x) eqn:Hcx; simpl; [reflexivity|].
  destruct (partition c s) as [a b]. simpl in *. now rewrite Hcx.
Qed.

Lemma span_until_chars (stop : ascii -> bool) (d : ascii) (s : string) :
  has_char d s = false ->
  has_char d (fst (span_until stop s)) = false /\
  has_char d (snd (span_until stop s)) = false.
Proof.
  induction s as [|x s IH]; simpl; [auto|].
  intros Hxs. pose proof Hxs as [Hx Hs]%orb_false_iff.
  destruct (stop x); simpl; [auto|].
  destruct (span_until stop s) as [a b]. simpl in *.
  rewrite Hx. simpl. auto.
Qed.

Lemma span_until_fst_free (stop : ascii -> bool) (d : ascii) (s : string) :
  stop d = true -> has_char d (fst (span_until stop s)) = false.
Proof.
  intros Hd. induction s as [|x s IH]; simpl; [reflexivity|].
  destruct (stop x) eqn:Hx; simpl; [reflexivity|].
  destruct (span_until stop s) as [a b]. simpl in *.
  destruct (Ascii.eqb_spec d x) as [->|]; [congruence | exact IH].
Qed.

Lemma splitparams_chars (d : ascii) (s : string) :
  has_char d s = false -> has_char d (fst (splitparams s)) = false.
Proof.
  intros Hs. unfold splitparams.
  pose proof (span_until_chars (Ascii.eqb "/"%char) d (reverse s)) as Hspan.
  rewrite has_char_reverse in Hspan. specialize (Hspan Hs).
  destruct (span_until (Ascii.eqb "/"%char) (reverse s)) as [tail_rev dirs_rev].
  simpl in Hspan. destruct Hspan as [Htail Hdirs].
  pose proof (partition_chars ";"%char d (reverse tail_rev)) as Hpart.
  rewrite has_char_reverse in Hpart. specialize (Hpart Htail).
  destruct (partition ";"%char (reverse tail_rev)) as [seg ps]. simpl in *.
  rewrite has_char_append, has_char_reverse, Hdirs. apply Hpart.
Qed.

Lemma scheme_has_no_question_mark (url : string) :
  has_char "?"%char (fst (split_scheme url)) = false.
Proof.
  unfold split_scheme.
  destruct (partition ":"%char url) as [[|c pre] [rest|]]; try reflexivity.
  destruct (is_alpha_ascii c && all_chars scheme_char pre) eqn:Hok; [|reflexivity].
  apply andb_true_iff in Hok. destruct Hok as [Hc Hpre].
  assert (Hall : all_chars scheme_char (String c pre) = true).
  { simpl. rewrite Hpre. unfold scheme_char. now rewrite Hc. }
  clear Hc Hpre. simpl fst. generalize dependent (String c pre).
  intros s. unfold lower. induction s as [|x s IH]; simpl; [reflexivity|].
  intros [Hx Hs]%andb_true_iff. rewrite (IH Hs), orb_false_r.
  clear -Hx. each_byte x; try reflexivity; discriminate Hx.
Qed.

Lemma base_url_has_no_query (url : string) :
  has_char "?"%char (base_url url) = false.
Proof.
  unfold base_url, parsed, urlparse.
  pose proof (scheme_has_no_question_mark url) as Hsch.
  destruct (split_scheme url) as [sch url1]. simpl in Hsch.
  assert (Hloc : has_char "?"%char (fst (split_netloc url1)) = false).
  { unfold split_netloc.
    destruct url1 as [|a r]; [reflexivity|].
    destruct (Ascii.eqb_spec a "/"%char) as [->|Ha];
      [|each_byte a; try reflexivity; congruence].
    destruct r as [|b r]; [reflexivity|].
    destruct (Ascii.eqb_spec b "/"%char) as [->|Hb];
      [|each_byte b; try reflexivity; congruence].
    now apply span_until_fst_free. }
  destruct (split_netloc url1) as [loc url2]. simpl in Hloc.
  destruct (partition "#"%char url2) as [url3 frag].
  pose proof (partition_fst_free "?"%char url3) as Hpath.
  destruct (partition "?"%char url3) as [url4 qry]. simpl in Hpath.
  assert (Hpth : has_char "?"%char
            (fst (if existsb (String.eqb sch) uses_params && has_char ";"%char url4
                  then splitparams url4 else (url4, EmptyString))) = false).
  { destruct (existsb (String.eqb sch) uses_params && has_char ";"%char url4);
      [now apply splitparams_chars | exact Hpath]. }
  destruct (if existsb (String.eqb sch) uses_params && has_char ";"%char url4
            then splitparams url4 else (url4, EmptyString)) as [pth prm].
  simpl in *. rewrite !has_char_append, Hsch, Hloc, Hpth. reflexivity.
Qed.

Lemma parse_qs_empty : parse_qs EmptyString = [].
Proof. reflexivity. Qed.

(** C3 (as the code has it). The signature base string is the upper-cased
    method, the percent-encoded base URL and the percent-encoded parameter
    string, joined by [&]; the base URL is scheme, host and path and holds no
    query; every key of the URL's query is signed, with the first value the
    query gives it. *)
Theorem base_string_signs_first_value_of_query_keys
    (nonce timestamp method url : string) (creds : Credentials)
    (extra : option (PyDict.t string)) :
  let p := urlparse url in
  let signed := sorted_params nonce timestamp url creds extra in
  base_string nonce timestamp method url creds extra =
    upper method +:+ "&"
      +:+ _percent_encode (scheme p +:+ "://" +:+ netloc p +:+ path p) +:+ "&"
      +:+ _percent_encode (String.concat "&" (map encode_pair signed)) /\
  has_char "?"%char (scheme p +:+ "://" +:+ netloc p +:+ path p) = false /\
  (forall k v vs, (k, v :: vs) ∈ parse_qs (query p) -> (k, v) ∈ signed) /\
  (forall k v, (k, v) ∈ parse_qsl (query p) -> exists v1, (k, v1) ∈ signed).
Proof.
  intros p signed.
  assert (Hfirst : forall k v vs,
            (k, v :: vs) ∈ parse_qs (query p) -> (k, v) ∈ signed).
  { intros k v vs Hin. subst signed. unfold sorted_params.
    apply elem_of_sorted. unfold all_params, parsed. fold p.
    destruct (query p) as [|c q] eqn:Hq.
    - rewrite parse_qs_empty in Hin. inversion Hin.
    - cbn [truthy]. eapply get_elem_of, add_query_get_first;
        [apply parse_qs_NoDup | exact Hin]. }
  split; [reflexivity|]. split; [apply base_url_has_no_query|].
  split; [exact Hfirst|].
  intros k v Hin. destruct (parse_qs_keys_cover _ _ _ Hin) as (v1 & vs & Hin1).
  exists v1. eapply Hfirst, Hin1.
Qed.

Lemma base_string_signs_first_value_of_query_keys_witness :
  ("tweet.fields", "created_at") ∈
    sorted_params "nonce" "1700000000"
      "https://api.example.com/2/tweets/123?tweet.fields=created_at"
      {| api_key := "ck"; api_secret := "cs"; access_token := "at";
         access_token_secret := "ats"; bearer_token := "bt" |} None.
Proof.
  refine (proj1 (proj2 (proj2
    (base_string_signs_first_value_of_query_keys "nonce" "1700000000" "GET"
       "https://api.example.com/2/tweets/123?tweet.fields=created_at"
       {| api_key := "ck"; api_secret := "cs"; access_token := "at";
          access_token_secret := "ats"; bearer_token := "bt" |} None)))
    "tweet.fields" "created_at" [] _).
  apply list_elem_of_In. vm_compute. left. reflexivity.
Defined.

(** ** The order of the signed parameters *)

Lemma pair_leb_total (a b : string * string) :
  pair_leb a b = false -> pair_leb b a = true.
Proof.
  unfold pair_leb. rewrite (String.compare_antisym (fst a) (fst b)).
  destruct (String.compare (fst b) (fst a)); simpl; intros Hab;
    [|reflexivity|discriminate].
  destruct (String.leb_total (snd a) (snd b)); congruence.
Qed.

(** [sorted] orders by the raw key, then the raw value *)
Lemma sorted_is_sorted (l : list (string * string)) :
  Sorted (fun a b => pair_leb a b = true) (sorted l).
Proof.
  induction l as [|x l IH]; simpl; [constructor|].
  generalize dependent (sorted l). clear l. intros l Hl.
  induction Hl as [|y l Hl IHl Hhd]; simpl.
  - repeat constructor.
  - destruct (pair_leb x y) eqn:Hxy.
    + repeat constructor; assumption.
    + constructor; [exact IHl|].
      destruct Hhd as [|z l Hyz]; simpl.
      * constructor. now apply pair_leb_total.
      * destruct (pair_leb x z); constructor; [now apply pair_leb_total | assumption].
Qed.

(** C2. At a URL whose query keys are [a:b] and [a.b] the signer orders the
    parameters by the raw keys ([a.b] first), although [a:b] encodes to
    [a%3Ab], which sorts before [a.b]: its parameter string is not the one
    sorted by percent-encoded key. *)
Theorem params_sorted_by_raw_key_not_encoded_key :
  let url := "https://api.x.com/2/tweets?a:b=1&a.b=2" in
  let creds := {| api_key := "ck"; api_secret := "cs"; access_token := "at";
                  access_token_secret := "ats"; bearer_token := "bt" |} in
  map fst (sorted_params "nonce" "1700000000" url creds None) =
    ["a.b"; "a:b"; "oauth_consumer_key"; "oauth_nonce"; "oauth_signature_method";
     "oauth_timestamp"; "oauth_token"; "oauth_version"] /\
  String.ltb (_percent_encode "a:b") (_percent_encode "a.b") = true /\
  param_string "nonce" "1700000000" url creds None =
    "a.b=2&a%3Ab=1&oauth_consumer_key=ck&oauth_nonce=nonce&oauth_signature_method=HMAC-SHA1&oauth_timestamp=1700000000&oauth_token=at&oauth_version=1.0" /\
  spec_param_string "nonce" "1700000000" url creds None =
    "a%3Ab=1&a.b=2&oauth_consumer_key=ck&oauth_nonce=nonce&oauth_signature_method=HMAC-SHA1&oauth_timestamp=1700000000&oauth_token=at&oauth_version=1.0" /\
  param_string "nonce" "1700000000" url creds None <>
    spec_param_string "nonce" "1700000000" url creds None.
Proof.
  cbv zeta. repeat split; try (vm_compute; reflexivity).
  vm_compute. discriminate.
Qed.

End AuthProofs.


(** * Properties of the watch loop *)

Module WatchProofs.

Import PyStr Watch.

(** ** The filter *)

Lemma prefix_spec (n h : string) :
  String.prefix n h = true <-> exists post, h = n +:+ post.
Proof.
  revert h. induction n as [|a n IH]; intros h; simpl.
  - destruct h; split; eauto.
  - destruct h as [|b h]; simpl.
    + split; [discriminate | intros (post & Hpost); discriminate Hpost].
    + destruct (ascii_dec a b) as [->|Hne].
      * rewrite IH. split; intros (post & Hpost); exists post.
        -- now rewrite Hpost.
        -- now injection Hpost.
      * split; [discriminate|].
        intros (post & Hpost). injection Hpost as Hab _. congruence.
Qed.

Lemma contains_spec (n h : string) :
  contains n h = true <-> substring_of n h.
Proof.
  induction h as [|c h IH].
  - change (contains n EmptyString) with (String.prefix n EmptyString || false).
    rewrite orb_false_r, prefix_spec. split.
    + intros (post & Hpost). exists EmptyString, post. exact Hpost.
    + intros ([|x pre] & post & Hh); [eauto | discriminate Hh].
  - change (contains n (String c h))
      with (String.prefix n (String c h) || contains n h).
    rewrite orb_true_iff, prefix_spec, IH. split.
    + intros [(post & Hpost) | (pre & post & Hh)].
      * exists EmptyString, post. exact Hpost.
      * exists (String c pre), post. now rewrite Hh.
    + intros ([|x pre] & post & Hh).
      * left. exists post. exact Hh.
      * right. injection Hh as _ Hh. exists pre, post. exact Hh.
Qed.

Lemma matches_nonempty (text : string) (kws : list string) :
  kws <> [] ->
  _matches_filters text kws =
  existsb (fun g => contains g (lower text)) (map lower kws).
Proof.
  intros Hne. destruct kws as [|k kws]; [now destruct Hne|]. clear Hne.
  unfold _matches_filters. generalize (k :: kws). intros l.
  induction l as [|x l IH]; simpl; [reflexivity | now rewrite IH].
Qed.

Lemma lower_empty_iff (k : string) : lower k = EmptyString <-> k = EmptyString.
Proof.
  destruct k; unfold lower; simpl; split; intros Hk;
    first [reflexivity | discriminate Hk].
Qed.

(** The filter against the empty text when a keyword is itself empty:
    the filter list is not empty and the text still matches. *)
Lemma empty_keyword_matches_empty_text :
  [EmptyString] <> @nil string /\ _matches_filters EmptyString [EmptyString] = true.
Proof. split; [discriminate | reflexivity]. Qed.

(** C6 (as the code has it). With no filters every text matches; with
    filters, a text matches exactly when the lower-cased form of some keyword
    is a substring of the lower-cased text, so only the lower-cased forms of
    text and keywords matter; the empty text matches no list of non-empty
    keywords. *)
Theorem matches_filters_case_insensitive_substring :
  (forall text, _matches_filters text [] = true) /\
  (forall kws, kws <> [] -> (forall k, k ∈ kws -> k <> EmptyString) ->
     _matches_filters EmptyString kws = false) /\
  (forall text kws, kws <> [] ->
     (_matches_filters text kws = true <->
      exists k, k ∈ kws /\ substring_of (lower k) (lower text))) /\
  (forall t1 t2 k1 k2, lower t1 = lower t2 -> map lower k1 = map lower k2 ->
     _matches_filters t1 k1 = _matches_filters t2 k2).
Proof.
  assert (Hiff : forall text kws, kws <> [] ->
     (_matches_filters text kws = true <->
      exists k, k ∈ kws /\ substring_of (lower k) (lower text))).
  { intros text kws Hne. rewrite matches_nonempty by assumption.
    rewrite existsb_exists. split.
    - intros (g & Hg & Hc). apply in_map_iff in Hg. destruct Hg as (k & <- & Hk).
      exists k. split; [now apply list_elem_of_In | now apply contains_spec].
    - intros (k & Hk & Hsub). exists (lower k). split.
      + apply in_map. now apply list_elem_of_In.
      + now apply contains_spec. }
  split; [reflexivity|]. split; [|split; [exact Hiff|]].
  - intros kws Hne Hall.
    destruct (_matches_filters EmptyString kws) eqn:Hm; [|reflexivity].
    apply Hiff in Hm; [|assumption].
    destruct Hm as (k & Hk & pre & post & Hsub). exfalso. apply (Hall k Hk).
    apply lower_empty_iff. simpl in Hsub.
    destruct pre; [|discriminate Hsub].
    destruct (lower k); [reflexivity | discriminate Hsub].
  - intros t1 t2 k1 k2 Ht Hk.
    destruct k1 as [|a k1], k2 as [|b k2]; try discriminate Hk; [reflexivity|].
    rewrite !matches_nonempty by discriminate. now rewrite Ht, Hk.
Qed.

Lemma matches_filters_case_insensitive_substring_witness :
  _matches_filters EmptyString ["keyword"] = false /\
  _matches_filters "NVIDIA is pumping" ["flow"; "nvidia"] = true /\
  _matches_filters "nvidia is pumping" ["NVIDIA"] =
    _matches_filters "NVIDIA IS PUMPING" ["nvidia"].
Proof.
  destruct matches_filters_case_insensitive_substring as (_ & Hempty & Hiff & Hcase).
  split; [|split].
  - apply (Hempty ["keyword"]); [discriminate|].
    intros k Hk. apply list_elem_of_In in Hk. simpl in Hk.
    destruct Hk as [<-|[]]. discriminate.
  - apply (Hiff "NVIDIA is pumping" ["flow"; "nvidia"]); [discriminate|].
    exists "nvidia". split; [apply list_elem_of_In; simpl; auto|].
    exists EmptyString, " is pumping". reflexivity.
  - apply (Hcase "nvidia is pumping" "NVIDIA IS PUMPING" ["NVIDIA"] ["nvidia"]);
      reflexivity.
Defined.

(** ** The statements of the loop, one at a time *)

Ltac unfold_m :=
  unfold bind, ret, emit, call, get_state, modify_stats, modify_target,
    when, return_, _print_summary.

Section LoopFacts.
Context {World : Type} `{Client World}.
Variable cfg : Config.

Lemma add_events_app (e1 e2 : list Event) (s : State World) :
  add_events e2 (add_events e1 s) = add_events (e1 ++ e2) s.
Proof. unfold add_events. simpl. now rewrite <- List.app_assoc. Qed.

Lemma process_tweet_skip (name : string) (inc : Includes) (tw : Tweet) (s : State World) :
  _matches_filters (display_text tw) (filters cfg) = false ->
  process_tweet cfg name inc tw s = Normal tt s.
Proof. intros Hm. unfold process_tweet. now rewrite Hm. Qed.

Lemma process_tweet_match (name : string) (inc : Includes) (tw : Tweet) (s : State World) :
  _matches_filters (display_text tw) (filters cfg) = true ->
  process_tweet cfg name inc tw s =
  let s1 := set_stats (count_tweet name (stats s))
              (add_events (tweet_events cfg name inc tw) s) in
  if budget_reached (max_tweets cfg) (tweets_seen (stats s) + 1)
  then Returned (add_events [Stderr (LogReached (default 0 (max_tweets cfg)));
                             Stderr (summary_line s1)] s1)
  else Normal tt s1.
Proof.
  intros Hm. unfold process_tweet, tweet_events. rewrite Hm. simpl negb. cbv iota.
  unfold_m. destruct (notify cfg); simpl;
    destruct (budget_reached (max_tweets cfg) (tweets_seen (stats s) + 1));
    unfold set_stats, add_events, summary_line; simpl;
    rewrite <- ?List.app_assoc; reflexivity.
Qed.

Lemma poll_target_eq (i : nat) (s : State World) :
  poll_target cfg i s =
  match targets s !! i with
  | None => Normal tt s
  | Some target =>
      let '(r, w) := get_timeline (user_id target) 10 (last_seen_id target) (world s) in
      let s1 := set_world w
                  (add_events [Fetch (user_id target) 10 (last_seen_id target)] s) in
      match r with
      | RateLimitError reset_at =>
          let wait := rate_limit_wait reset_at (time_time w) in
          Normal tt (set_world (time_sleep wait w)
                       (add_events [Stderr (LogRateLimited wait); Sleep wait] s1))
      | RuntimeError msg =>
          Normal tt (add_events [Stderr (LogError (username target) msg)] s1)
      | FetchOk d =>
          match data d with
          | [] => Normal tt s1
          | newest :: _ =>
              match for_each (rev (data d))
                      (process_tweet cfg (username target) (includes d)) s1 with
              | Normal _ s2 =>
                  Normal tt (set_targets
                    (alter (set_last_seen (Some (tweet_id newest))) i (targets s2)) s2)
              | Returned s2 => Returned s2
              end
          end
      end
  end.
Proof.
  unfold poll_target. unfold_m.
  destruct (targets s !! i) as [target|]; [|reflexivity].
  simpl. destruct (get_timeline _ _ _ _) as [r w]. simpl.
  destruct r as [d|reset_at|msg]; simpl.
  - destruct (data d) as [|newest rest]; [reflexivity|].
    destruct (for_each _ _ _); reflexivity.
  - unfold set_world, add_events. simpl. rewrite <- ?List.app_assoc. reflexivity.
  - reflexivity.
Qed.

(** a loop keeps what each round keeps, and stops where a round returns *)
Lemma for_each_ind {A : Type} (P Q : State World -> Prop)
    (body : A -> M unit) (l : list A) :
  (forall x s, x ∈ l -> P s ->
     match body x s with Normal _ s' => P s' | Returned s' => Q s' end) ->
  forall s, P s ->
    match for_each l body s with Normal _ s' => P s' | Returned s' => Q s' end.
Proof.
  induction l as [|x l IH]; intros Hbody s HP; simpl; [exact HP|].
  unfold bind. pose proof (Hbody x s ltac:(left) HP) as Hx.
  destruct (body x s) as [[] s'|s']; [|exact Hx].
  apply IH; [|exact Hx]. intros y s0 Hy. apply Hbody. now right.
Qed.

Lemma for_each_returned {A : Type} (body : A -> M unit) (x : A) (l : list A)
    (s s' : State World) :
  body x s = Returned s' -> for_each (x :: l) body s = Returned s'.
Proof. intros Hx. simpl. unfold bind. now rewrite Hx. Qed.

Lemma for_each_normal {A : Type} (body : A -> M unit) (x : A) (l : list A)
    (s s' : State World) :
  body x s = Normal tt s' -> for_each (x :: l) body s = for_each l body s'.
Proof. intros Hx. simpl. unfold bind. now rewrite Hx. Qed.

Lemma for_each_app {A : Type} (body : A -> M unit) (l1 l2 : list A) (s : State World) :
  for_each (l1 ++ l2) body s =
  match for_each l1 body s with
  | Normal _ s' => for_each l2 body s'
  | Returned s' => Returned s'
  end.
Proof.
  revert s. induction l1 as [|x l1 IH]; intros s; simpl; [reflexivity|].
  unfold bind. destruct (body x s) as [[] s'|s']; [apply IH | reflexivity].
Qed.

Lemma for_each_ext {A : Type} (f g : A -> M unit) (l : list A) (s : State World) :
  (forall x s0, f x s0 = g x s0) -> for_each l f s = for_each l g s.
Proof.
  intros Hfg. revert s. induction l as [|x l IH]; intros s; simpl; [reflexivity|].
  unfold bind. rewrite Hfg. destruct (g x s); [apply IH | reflexivity].
Qed.

Lemma polling_S (fuel : nat) (s : State World) :
  polling cfg (S fuel) s =
  match run_pass cfg s with
  | Returned s' => (BudgetReached, s')
  | Normal _ s1 =>
      polling cfg fuel
        (set_world (time_sleep (interval cfg) (world s1))
           (add_events [Sleep (interval cfg)] (set_stats (count_poll (stats s1)) s1)))
  end.
Proof.
  cbn [polling]. unfold_m. destruct (run_pass cfg s); reflexivity.
Qed.

Lemma polling_O (s : State World) :
  polling cfg 0 s = (Interrupted, add_events [Stderr (summary_line s)] s).
Proof. reflexivity. Qed.

End LoopFacts.

(** ** A rate-limited target *)

Section RateLimit.
Context {World : Type} `{Client World}.
Variable cfg : Config.

(** C5. When the fetch for a target fails with a rate limit, the loop logs
    and sleeps [max(0, reset_at - now) + 5] seconds when [reset_at] reads as
    an integer, and 60 seconds when it does not; the targets (so the cursor)
    and the statistics stay as they were, and the pass goes on with the next
    target. *)
Theorem rate_limited_target_waits_and_keeps_cursor
    (i : nat) (rest : list nat) (s : State World) (target : WatchTarget)
    (reset_at : string) (w : World) :
  targets s !! i = Some target ->
  get_timeline (user_id target) 10 (last_seen_id target) (world s)
    = (RateLimitError reset_at, w) ->
  let wait :=
    match PyStr.int reset_at with
    | Some reset => Z.max 0 (reset - time_time w) + 5
    | None => 60
    end in
  let s' :=
    set_world (time_sleep wait w)
      (add_events [Fetch (user_id target) 10 (last_seen_id target);
                   Stderr (LogRateLimited wait); Sleep wait] s) in
  poll_target cfg i s = Normal tt s' /\
  targets s' = targets s /\
  stats s' = stats s /\
  for_each (i :: rest) (poll_target cfg) s = for_each rest (poll_target cfg) s'.
Proof.
  intros Hi Hfetch wait s'.
  assert (Hpoll : poll_target cfg i s = Normal tt s').
  { rewrite poll_target_eq, Hi, Hfetch. cbv zeta.
    subst s' wait. unfold rate_limit_wait, set_world, add_events. simpl.
    rewrite <- List.app_assoc. reflexivity. }
  split; [exact Hpoll|]. split; [reflexivity|]. split; [reflexivity|].
  now apply for_each_normal.
Qed.

End RateLimit.

Lemma rate_limited_target_waits_and_keeps_cursor_witness :
  poll_target sample_config 0
    (sample_state [sample_target "A" "1" (Some "100")]
       {| clock := 1000; script := [RateLimitError "1010"] |})
  = Normal tt
      {| world := {| clock := 1015; script := [] |};
         targets := [sample_target "A" "1" (Some "100")];
         stats := new_stats;
         trace := [Fetch "1" 10 (Some "100"); Stderr (LogRateLimited 15); Sleep 15] |}
  /\
  poll_target sample_config 0
    (sample_state [sample_target "A" "1" (Some "100")]
       {| clock := 1000; script := [RateLimitError "unknown"] |})
  = Normal tt
      {| world := {| clock := 1060; script := [] |};
         targets := [sample_target "A" "1" (Some "100")];
         stats := new_stats;
         trace := [Fetch "1" 10 (Some "100"); Stderr (LogRateLimited 60); Sleep 60] |}.
Proof.
  split.
  - exact (proj1 (rate_limited_target_waits_and_keeps_cursor sample_config 0 []
      (sample_state [sample_target "A" "1" (Some "100")]
         {| clock := 1000; script := [RateLimitError "1010"] |})
      (sample_target "A" "1" (Some "100")) "1010"
      {| clock := 1000; script := [] |} eq_refl eq_refl)).
  - exact (proj1 (rate_limited_target_waits_and_keeps_cursor sample_config 0 []
      (sample_state [sample_target "A" "1" (Some "100")]
         {| clock := 1000; script := [RateLimitError "unknown"] |})
      (sample_target "A" "1" (Some "100")) "unknown"
      {| clock := 1000; script := [] |} eq_refl eq_refl)).
Defined.

(** ** The statistics *)

Lemma per_user_total_count (u : string) (m : gmap string Z) :
  per_user_total (<[u := default 0 (m !! u) + 1]> m) = per_user_total m + 1.
Proof.
  unfold per_user_total.
  assert (Hcomm : forall z1 z2 y : Z, z1 + (z2 + y) = z2 + (z1 + y))
    by (intros; lia).
  destruct (m !! u) as [n|] eqn:Hu; simpl.
  - rewrite <- insert_delete_eq.
    rewrite map_fold_insert_L; [|intros; apply Hcomm | apply lookup_delete_eq].
    rewrite (map_fold_delete_L _ _ u n m); [lia | intros; apply Hcomm | exact Hu].
  - rewrite map_fold_insert_L; [lia | intros; apply Hcomm | exact Hu].
Qed.

Lemma stats_ok_new : stats_ok new_stats.
Proof.
  unfold stats_ok, new_stats, per_user_total. simpl.
  rewrite map_fold_empty. repeat split; try lia.
  intros u n Hu. rewrite lookup_empty in Hu. discriminate.
Qed.

Lemma stats_ok_count_tweet (u : string) (st : WatchStats) :
  stats_ok st -> stats_ok (count_tweet u st).
Proof.
  intros (Hsum & Hseen & Hpolls & Hper). unfold stats_ok, count_tweet. simpl.
  rewrite per_user_total_count.
  repeat split; try lia.
  intros k n. rewrite lookup_insert. case_decide as Hk.
  - intros [= <-]. destruct (per_user st !! u) as [v|] eqn:Hv; simpl; [|lia].
    specialize (Hper u v Hv). lia.
  - apply Hper.
Qed.

Lemma stats_ok_count_poll (st : WatchStats) : stats_ok st -> stats_ok (count_poll st).
Proof.
  intros (Hsum & Hseen & Hpolls & Hper). unfold stats_ok, count_poll. simpl.
  repeat split; try assumption; lia.
Qed.

Lemma rendered_app (a b : list Event) : rendered (a ++ b) = rendered a ++ rendered b.
Proof. unfold rendered. apply omap_app. Qed.

Section Initialize.
Context {World : Type} `{Client World}.
Variable cfg : Config.

(** seeding touches the cursors only *)
Lemma seed_last_seen_normal (i : nat) (s : State World) :
  exists s', _seed_last_seen i s = Normal tt s' /\
             stats s' = stats s /\
             rendered (trace s') = rendered (trace s).
Proof.
  unfold _seed_last_seen. unfold_m.
  destruct (targets s !! i) as [target|]; [|eauto].
  simpl. destruct (get_timeline _ _ _ _) as [r w]. simpl.
  destruct r as [[[|newest rest] inc]|reset_at|msg]; simpl;
    eexists; (split; [reflexivity|]); simpl;
    rewrite ?rendered_app; simpl; rewrite ?app_nil_r; auto.
Qed.

Lemma initialize_normal (s : State World) :
  exists s', initialize cfg s = Normal tt s' /\
             stats s' = stats s /\
             rendered (trace s') = rendered (trace s).
Proof.
  unfold initialize. unfold bind at 1. unfold emit at 1.
  unfold bind at 1. unfold get_state at 1. unfold bind at 1.
  set (s0 := add_events [Stderr LogInitializing] s).
  pose proof (for_each_ind
    (fun s' => stats s' = stats s /\ rendered (trace s') = rendered (trace s))
    (fun _ => False) _seed_last_seen (seq 0 (length (targets s0)))) as Hloop.
  specialize (Hloop ltac:(
    intros i s1 _ [Hst Htr];
    destruct (seed_last_seen_normal i s1) as (s2 & -> & Hst2 & Htr2);
    split; congruence) s0 ltac:(
    subst s0; simpl; rewrite rendered_app; simpl; rewrite app_nil_r; auto)).
  destruct (for_each _ _ s0) as [[] s1|s1]; [|contradiction].
  destruct Hloop as [Hst Htr]. unfold_m.
  destruct (filters cfg); simpl; eexists; (split; [reflexivity|]); simpl;
    rewrite ?rendered_app, Htr; simpl; rewrite ?app_nil_r; auto.
Qed.

End Initialize.

Section Statistics.
Context {World : Type} `{Client World}.
Variable cfg : Config.

Lemma process_tweet_stats_ok (name : string) (inc : Includes) (tw : Tweet) (s : State World) :
  stats_ok (stats s) ->
  stats_ok (stats (result_state (process_tweet cfg name inc tw s))).
Proof.
  intros Hok.
  destruct (_matches_filters (display_text tw) (filters cfg)) eqn:Hm.
  - rewrite process_tweet_match by assumption. cbv zeta.
    destruct (budget_reached _ _); simpl; now apply stats_ok_count_tweet.
  - rewrite process_tweet_skip by assumption. exact Hok.
Qed.

Lemma for_each_stats_ok {A : Type} (body : A -> M unit) (l : list A) (s : State World) :
  (forall x s0, stats_ok (stats s0) -> stats_ok (stats (result_state (body x s0)))) ->
  stats_ok (stats s) -> stats_ok (stats (result_state (for_each l body s))).
Proof.
  intros Hbody Hok.
  pose proof (for_each_ind (fun s' => stats_ok (stats s'))
                (fun s' => stats_ok (stats s')) body l) as Hloop.
  specialize (Hloop ltac:(
    intros x s0 _ H0; specialize (Hbody x s0 H0);
    destruct (body x s0); exact Hbody) s Hok).
  destruct (for_each l body s); exact Hloop.
Qed.

Lemma poll_target_stats_ok (i : nat) (s : State World) :
  stats_ok (stats s) -> stats_ok (stats (result_state (poll_target cfg i s))).
Proof.
  intros Hok. rewrite poll_target_eq.
  destruct (targets s !! i) as [target|]; [|exact Hok].
  destruct (get_timeline _ _ _ _) as [r w]. cbv zeta.
  destruct r as [d|reset_at|msg]; [|exact Hok|exact Hok].
  destruct (data d) as [|newest rest]; [exact Hok|].
  pose proof (for_each_stats_ok (process_tweet cfg (username target) (includes d))
    (rev (newest :: rest))
    (set_world w (add_events [Fetch (user_id target) 10 (last_seen_id target)] s))
    (process_tweet_stats_ok _ _) Hok) as Hloop.
  destruct (for_each _ _ _); exact Hloop.
Qed.

Lemma run_pass_stats_ok (s : State World) :
  stats_ok (stats s) -> stats_ok (stats (result_state (run_pass cfg s))).
Proof.
  intros Hok. unfold run_pass, bind, get_state.
  now apply for_each_stats_ok; [apply poll_target_stats_ok|].
Qed.

Lemma polling_stats_ok (fuel : nat) (s : State World) :
  stats_ok (stats s) -> stats_ok (stats (snd (polling cfg fuel s))).
Proof.
  revert s. induction fuel as [|fuel IH]; intros s Hok; [exact Hok|].
  rewrite polling_S. pose proof (run_pass_stats_ok s Hok) as Hpass.
  destruct (run_pass cfg s) as [[] s1|s1]; simpl in Hpass; [|exact Hpass].
  apply IH. simpl. now apply stats_ok_count_poll.
Qed.

End Statistics.

(** ** One batch *)

Lemma rendered_tweet_events (cfg : Config) (name : string) (inc : Includes) (tw : Tweet) :
  rendered (tweet_events cfg name inc tw) = [tw].
Proof. unfold tweet_events. destruct (notify cfg); reflexivity. Qed.

Section Batch.
Context {World : Type} `{Client World}.
Variable cfg : Config.

(** the tweets of a batch are taken in list order; the matching ones are
    rendered and counted; a [return] can only be the budget *)
Lemma process_batch_spec (name : string) (inc : Includes) (l : list Tweet) (s : State World) :
  match for_each l (process_tweet cfg name inc) s with
  | Normal _ s' =>
      targets s' = targets s /\ world s' = world s /\
      rendered (trace s') = rendered (trace s) ++ List.filter (tweet_matches cfg) l /\
      tweets_seen (stats s') =
        tweets_seen (stats s) + Z.of_nat (length (List.filter (tweet_matches cfg) l))
  | Returned s' =>
      targets s' = targets s /\
      budget_reached (max_tweets cfg) (tweets_seen (stats s')) = true
  end.
Proof.
  revert s. induction l as [|tw l IH]; intros s.
  - simpl. rewrite app_nil_r, Z.add_0_r. repeat split.
  - simpl for_each. unfold bind. simpl List.filter.
    destruct (tweet_matches cfg tw) eqn:Hm; unfold tweet_matches in Hm.
    + rewrite process_tweet_match by assumption. cbv zeta.
      destruct (budget_reached (max_tweets cfg) (tweets_seen (stats s) + 1)) eqn:Hb.
      * split; [reflexivity | exact Hb].
      * specialize (IH (set_stats (count_tweet name (stats s))
                          (add_events (tweet_events cfg name inc tw) s))).
        destruct (for_each l _ _) as [[] s'|s']; [|exact IH].
        destruct IH as (Hts & Hw & Htr & Hseen).
        split; [exact Hts|]. split; [exact Hw|]. split.
        -- rewrite Htr. simpl. rewrite rendered_app, rendered_tweet_events.
           now rewrite <- List.app_assoc.
        -- rewrite Hseen. unfold set_stats, count_tweet.
           cbn [stats tweets_seen length]. lia.
    + rewrite process_tweet_skip by assumption. apply IH.
Qed.

End Batch.

(** ** A budget of zero *)

Section ZeroBudget.
Context {World : Type} `{Client World}.
Variable cfg : Config.
Hypothesis no_budget : forall n, budget_reached (max_tweets cfg) n = false.

Lemma process_tweet_no_budget (name : string) (inc : Includes) (tw : Tweet) (s : State World) :
  process_tweet cfg name inc tw s =
  process_tweet (with_max_tweets None cfg) name inc tw s.
Proof.
  destruct (_matches_filters (display_text tw) (filters cfg)) eqn:Hm.
  - rewrite !process_tweet_match by assumption. cbv zeta.
    rewrite no_budget. reflexivity.
  - rewrite !process_tweet_skip by assumption. reflexivity.
Qed.

Lemma poll_target_no_budget (i : nat) (s : State World) :
  poll_target cfg i s = poll_target (with_max_tweets None cfg) i s.
Proof.
  rewrite !poll_target_eq.
  destruct (targets s !! i) as [target|]; [|reflexivity].
  destruct (get_timeline _ _ _ _) as [r w]. cbv zeta.
  destruct r as [d|reset_at|msg]; try reflexivity.
  destruct (data d) as [|newest rest]; [reflexivity|].
  rewrite (for_each_ext (process_tweet cfg (username target) (includes d))
             (process_tweet (with_max_tweets None cfg) (username target) (includes d)));
    [reflexivity|].
  intros tw s0. apply process_tweet_no_budget.
Qed.

Lemma run_pass_no_budget (s : State World) :
  run_pass cfg s = run_pass (with_max_tweets None cfg) s.
Proof.
  unfold run_pass, bind, get_state. apply for_each_ext.
  intros i s0. apply poll_target_no_budget.
Qed.

Lemma run_pass_never_returns (s : State World) :
  exists s', run_pass cfg s = Normal tt s'.
Proof.
  unfold run_pass, bind, get_state.
  pose proof (for_each_ind (fun _ => True) (fun _ => False) (poll_target cfg)
                (seq 0 (length (targets s)))) as Hloop.
  specialize (Hloop ltac:(
    intros i s0 _ _; rewrite poll_target_eq;
    destruct (targets s0 !! i) as [target|]; [|exact I];
    destruct (get_timeline _ _ _ _) as [r w]; cbv zeta;
    destruct r as [d|reset_at|msg]; try exact I;
    destruct (data d) as [|newest rest]; [exact I|];
    pose proof (process_batch_spec cfg (username target) (includes d)
      (rev (newest :: rest))
      (set_world w (add_events [Fetch (user_id target) 10 (last_seen_id target)] s0)))
      as Hbatch;
    destruct (for_each _ _ _) as [[] s1|s1]; [exact I|];
    destruct Hbatch as [_ Hb]; rewrite no_budget in Hb; discriminate Hb) s I).
  destruct (for_each _ _ s) as [[] s'|s']; [eauto | contradiction].
Qed.

Lemma polling_no_budget (fuel : nat) (s : State World) :
  polling cfg fuel s = polling (with_max_tweets None cfg) fuel s /\
  fst (polling cfg fuel s) = Interrupted.
Proof.
  revert s. induction fuel as [|fuel IH]; intros s; [split; reflexivity|].
  rewrite !polling_S, <- run_pass_no_budget.
  destruct (run_pass_never_returns s) as (s' & ->).
  apply IH.
Qed.

End ZeroBudget.

Lemma budget_reached_zero (n : Z) : budget_reached (Some 0) n = false.
Proof. reflexivity. Qed.

Lemma filter_no_filters (cfg : Config) (l : list Tweet) :
  filters cfg = [] -> List.filter (tweet_matches cfg) l = l.
Proof.
  intros Hf. induction l as [|tw l IH]; simpl; [reflexivity|].
  unfold tweet_matches at 1. rewrite Hf. simpl. now rewrite IH.
Qed.

(** with a budget of zero and no filters, a session on a replayed batch of
    [n] tweets renders all [n] of them *)
Lemma zero_budget_renders_whole_batch (n : nat) :
  length (rendered (trace (snd
    (watch_loop (with_max_tweets (Some 0) sample_config)
       [sample_target "A" "1" None]
       {| clock := 0;
          script := [sample_timeline [];
                     sample_timeline (repeat (sample_tweet "7" "x") n)] |}
       1)))) = n.
Proof.
  set (cfg := with_max_tweets (Some 0) sample_config).
  unfold watch_loop.
  set (s1 := {| world := {| clock := 0;
                            script := [sample_timeline (repeat (sample_tweet "7" "x") n)] |};
                targets := [sample_target "A" "1" None];
                stats := new_stats;
                trace := [Stderr LogInitializing; Fetch "1" 5 None;
                          Stderr (LogTracking "A" "1");
                          Stderr (LogWatching ["A"] 30); Stderr LogBlank] |}).
  change (initialize cfg (initial_state [sample_target "A" "1" None] _))
    with (Normal tt s1).
  cbv beta iota. rewrite polling_S. unfold run_pass, bind, get_state.
  change (seq 0 (length (targets s1))) with [0%nat].
  cbn [for_each]. unfold bind, ret. rewrite poll_target_eq.
  change (targets s1 !! 0%nat) with (Some (sample_target "A" "1" None)).
  cbv zeta. destruct n as [|n]; [reflexivity|].
  cbn [get_timeline replay_client world s1 script sample_timeline data repeat].
  match goal with
  | |- context [for_each ?l (process_tweet cfg ?name ?inc) ?s] =>
      pose proof (process_batch_spec cfg name inc l s) as Hbatch;
      destruct (for_each l (process_tweet cfg name inc) s) as [[] s2|s2]
  end.
  - destruct Hbatch as (_ & _ & Htr & _).
    rewrite polling_O. cbn [snd trace add_events set_world set_stats set_targets].
    rewrite !rendered_app, Htr, filter_no_filters by reflexivity.
    cbn [rendered omap trace add_events set_world]. simpl rendered.
    rewrite !app_nil_r, length_app. simpl length at 1.
    rewrite length_rev. simpl. now rewrite repeat_length.
  - destruct Hbatch as [_ Hb]. discriminate Hb.
Qed.

(** C10. With an item budget of exactly 0 the loop does what it does with
    no budget: the session is the same, step for step, as with [max_tweets
    = None], it never ends by the budget, and it can render any number of
    items. *)
Theorem zero_budget_behaves_as_no_budget
    {World : Type} `{Client World} (cfg : Config)
    (ts : list WatchTarget) (w : World) (fuel : nat) :
  max_tweets cfg = Some 0 ->
  watch_loop cfg ts w fuel = watch_loop (with_max_tweets None cfg) ts w fuel /\
  fst (watch_loop cfg ts w fuel) = Interrupted /\
  (forall n : nat, exists (ts' : list WatchTarget) (w' : Replay) (fuel' : nat),
     length (rendered (trace (snd
       (watch_loop (with_max_tweets (Some 0) sample_config) ts' w' fuel')))) = n).
Proof.
  intros Hmax.
  assert (Hno : forall n, budget_reached (max_tweets cfg) n = false)
    by (intros n; rewrite Hmax; reflexivity).
  unfold watch_loop.
  change (initialize (with_max_tweets None cfg) (initial_state ts w))
    with (initialize cfg (initial_state ts w)).
  destruct (initialize cfg (initial_state ts w)) as [[] s|s];
    (split; [apply polling_no_budget, Hno|]);
    (split; [apply polling_no_budget, Hno|]);
    intros n; eexists _, _, _; apply zero_budget_renders_whole_batch.
Qed.

Lemma zero_budget_behaves_as_no_budget_witness :
  fst (watch_loop (with_max_tweets (Some 0) sample_config)
         [sample_target "A" "1" None]
         {| clock := 0;
            script := [sample_timeline [];
                       sample_timeline [sample_tweet "8" "y"; sample_tweet "7" "x"]] |}
         1) = Interrupted.
Proof.
  exact (proj1 (proj2 (zero_budget_behaves_as_no_budget
    (with_max_tweets (Some 0) sample_config)
    [sample_target "A" "1" None]
    {| clock := 0;
       script := [sample_timeline [];
                  sample_timeline [sample_tweet "8" "y"; sample_tweet "7" "x"]] |}
    1 eq_refl))).
Defined.

(** ** A positive budget *)

Section Budget.
Context {World : Type} `{Client World}.
Variable cfg : Config.
Variable N : Z.
Hypothesis N_positive : 0 < N.
Hypothesis budget_is_N : max_tweets cfg = Some N.

Lemma budget_reached_N (seen : Z) :
  budget_reached (max_tweets cfg) seen = (N <=? seen).
Proof.
  rewrite budget_is_N. unfold budget_reached.
  destruct (Z.eqb_spec N 0); [lia | reflexivity].
Qed.

Lemma within_budget_quiet (s s' : State World) :
  within_budget N s ->
  rendered (trace s') = rendered (trace s) ->
  tweets_seen (stats s') = tweets_seen (stats s) ->
  within_budget N s'.
Proof.
  intros [Hcount Hlt] Htr Hseen. unfold within_budget, rendered_count in *.
  rewrite Htr, Hseen. now split.
Qed.

Ltac quiet_step Hin :=
  apply (within_budget_quiet _ _ Hin); simpl;
  rewrite ?rendered_app; simpl; rewrite ?app_nil_r; reflexivity.

Lemma process_tweet_budget (name : string) (inc : Includes) (tw : Tweet) (s : State World) :
  within_budget N s ->
  match process_tweet cfg name inc tw s with
  | Normal _ s' => within_budget N s'
  | Returned s' => stopped_at_budget cfg N s'
  end.
Proof.
  intros [Hcount Hlt].
  destruct (_matches_filters (display_text tw) (filters cfg)) eqn:Hm.
  2: { rewrite process_tweet_skip by assumption. now split. }
  rewrite process_tweet_match by assumption. cbv zeta.
  rewrite budget_reached_N, budget_is_N.
  assert (Hnext : Z.of_nat (length (rendered (trace s ++ tweet_events cfg name inc tw)))
                  = tweets_seen (stats s) + 1).
  { rewrite rendered_app, rendered_tweet_events, length_app.
    unfold rendered_count in Hcount. simpl length. lia. }
  destruct (Z.leb_spec N (tweets_seen (stats s) + 1)) as [Hge|Hlt'].
  - assert (HN : tweets_seen (stats s) + 1 = N) by lia.
    split; [|split].
    + unfold rendered_count. simpl. rewrite rendered_app. simpl.
      rewrite app_nil_r. lia.
    + simpl. exact HN.
    + exists (trace s), name, inc, tw. split.
      * simpl. now rewrite <- List.app_assoc.
      * unfold rendered_count in Hcount. lia.
  - split; [|simpl; lia]. unfold rendered_count. simpl. exact Hnext.
Qed.

Lemma poll_target_budget (i : nat) (s : State World) :
  within_budget N s ->
  match poll_target cfg i s with
  | Normal _ s' => within_budget N s'
  | Returned s' => stopped_at_budget cfg N s'
  end.
Proof.
  intros Hin. rewrite poll_target_eq.
  destruct (targets s !! i) as [target|]; [|exact Hin].
  destruct (get_timeline _ _ _ _) as [r w]. cbv zeta.
  assert (H1 : within_budget N
            (set_world w (add_events [Fetch (user_id target) 10 (last_seen_id target)] s))).
  { quiet_step Hin. }
  destruct r as [d|reset_at|msg].
  - destruct (data d) as [|newest rest]; [exact H1|].
    pose proof (for_each_ind (within_budget N) (stopped_at_budget cfg N)
      (process_tweet cfg (username target) (includes d)) (rev (newest :: rest))
      (fun tw s0 _ => process_tweet_budget _ _ tw s0) _ H1) as Hloop.
    destruct (for_each _ _ _) as [[] s2|s2]; exact Hloop.
  - quiet_step Hin.
  - quiet_step Hin.
Qed.

Lemma run_pass_budget (s : State World) :
  within_budget N s ->
  match run_pass cfg s with
  | Normal _ s' => within_budget N s'
  | Returned s' => stopped_at_budget cfg N s'
  end.
Proof.
  intros Hin. unfold run_pass, bind, get_state.
  apply (for_each_ind (within_budget N) (stopped_at_budget cfg N)); [|exact Hin].
  intros i s0 _. apply poll_target_budget.
Qed.

Lemma polling_budget (fuel : nat) (s : State World) :
  within_budget N s ->
  (fst (polling cfg fuel s) = Interrupted /\ within_budget N (snd (polling cfg fuel s))) \/
  (fst (polling cfg fuel s) = BudgetReached /\
   stopped_at_budget cfg N (snd (polling cfg fuel s))).
Proof.
  revert s. induction fuel as [|fuel IH]; intros s Hin.
  - left. rewrite polling_O. split; [reflexivity|].
    quiet_step Hin.
  - rewrite polling_S. pose proof (run_pass_budget s Hin) as Hpass.
    destruct (run_pass cfg s) as [[] s1|s1]; [|right; split; [reflexivity | exact Hpass]].
    apply IH. quiet_step Hpass.
Qed.


End Budget.


(** ** The cursors *)

Section Cursor.
Context {World : Type} `{Client World}.
Variable cfg : Config.
Variable id_le : relation string.
Hypothesis id_le_preorder : PreOrder id_le.

Lemma cursor_le_refl (c : option string) : cursor_le id_le c c.
Proof. destruct c; simpl; [reflexivity | exact I]. Qed.

Lemma cursor_le_trans (a b c : option string) :
  cursor_le id_le a b -> cursor_le id_le b c -> cursor_le id_le a c.
Proof.
  destruct a, b, c; simpl; try tauto. intros Hab Hbc. now transitivity s0.
Qed.

Lemma targets_le_refl (l : list WatchTarget) : Forall2 (target_le id_le) l l.
Proof.
  induction l; constructor; [|assumption].
  repeat split. apply cursor_le_refl.
Qed.

Lemma targets_le_trans (l k m : list WatchTarget) :
  Forall2 (target_le id_le) l k -> Forall2 (target_le id_le) k m ->
  Forall2 (target_le id_le) l m.
Proof.
  apply Forall2_trans. intros x y z (Hn & Hu & Hc) (Hn' & Hu' & Hc').
  repeat split; try congruence. eapply cursor_le_trans; eassumption.
Qed.

(** a successful poll with a non-empty batch *)
Lemma poll_target_batch (i : nat) (s : State World) (target : WatchTarget)
    (d : Timeline) (w : World) (newest : Tweet) (rest : list Tweet) :
  targets s !! i = Some target ->
  get_timeline (user_id target) 10 (last_seen_id target) (world s) = (FetchOk d, w) ->
  data d = newest :: rest ->
  match poll_target cfg i s with
  | Normal _ s' =>
      targets s' = alter (set_last_seen (Some (tweet_id newest))) i (targets s) /\
      rendered (trace s') =
        rendered (trace s) ++ List.filter (tweet_matches cfg) (rev (newest :: rest))
  | Returned s' =>
      targets s' = targets s /\
      budget_reached (max_tweets cfg) (tweets_seen (stats s')) = true
  end.
Proof.
  intros Hi Hfetch Hdata. rewrite poll_target_eq, Hi, Hfetch. cbv zeta.
  rewrite Hdata.
  pose proof (process_batch_spec cfg (username target) (includes d)
    (rev (newest :: rest))
    (set_world w (add_events [Fetch (user_id target) 10 (last_seen_id target)] s)))
    as Hbatch.
  destruct (for_each _ _ _) as [[] s2|s2].
  - destruct Hbatch as (Hts & _ & Htr & _). split.
    + simpl. now rewrite Hts.
    + simpl. rewrite Htr. simpl. rewrite rendered_app. simpl.
      now rewrite app_nil_r.
  - exact Hbatch.
Qed.

Hypothesis client_honours_since_id : honours_since_id id_le.

Lemma poll_target_advances (i : nat) (s : State World) :
  Forall2 (target_le id_le) (targets s) (targets (result_state (poll_target cfg i s))).
Proof.
  destruct (targets s !! i) as [target|] eqn:Hi.
  2: { rewrite poll_target_eq, Hi. apply targets_le_refl. }
  destruct (get_timeline (user_id target) 10 (last_seen_id target) (world s))
    as [r w] eqn:Hfetch.
  destruct r as [d|reset_at|msg].
  - destruct (data d) as [|newest rest] eqn:Hdata.
    + rewrite poll_target_eq, Hi, Hfetch. cbv zeta. rewrite Hdata.
      apply targets_le_refl.
    + pose proof (poll_target_batch i s target d w newest rest Hi Hfetch Hdata) as Hb.
      destruct (poll_target cfg i s) as [[] s'|s']; simpl.
      * destruct Hb as [-> _]. apply Forall2_alter_r; [apply targets_le_refl|].
        intros x y Hx Hy _. rewrite Hi in Hx, Hy.
        injection Hx as <-. injection Hy as <-.
        repeat split. simpl.
        exact (client_honours_since_id _ _ _ _ _ _ _ _ Hfetch Hdata).
      * destruct Hb as [-> _]. apply targets_le_refl.
  - rewrite poll_target_eq, Hi, Hfetch. apply targets_le_refl.
  - rewrite poll_target_eq, Hi, Hfetch. apply targets_le_refl.
Qed.

Lemma run_pass_advances (s : State World) :
  Forall2 (target_le id_le) (targets s) (targets (result_state (run_pass cfg s))).
Proof.
  unfold run_pass, bind, get_state.
  pose proof (for_each_ind
    (fun s' => Forall2 (target_le id_le) (targets s) (targets s'))
    (fun s' => Forall2 (target_le id_le) (targets s) (targets s'))
    (poll_target cfg) (seq 0 (length (targets s)))) as Hloop.
  specialize (Hloop ltac:(
    intros i s0 _ H0; pose proof (poll_target_advances i s0) as Hstep;
    destruct (poll_target cfg i s0); simpl in Hstep; cbv beta in H0 |- *;
    exact (targets_le_trans _ _ _ H0 Hstep)) s (targets_le_refl _)).
  destruct (for_each _ _ s); exact Hloop.
Qed.

Lemma polling_advances (fuel : nat) (s : State World) :
  Forall2 (target_le id_le) (targets s) (targets (snd (polling cfg fuel s))).
Proof.
  revert s. induction fuel as [|fuel IH]; intros s.
  - rewrite polling_O. apply targets_le_refl.
  - rewrite polling_S. pose proof (run_pass_advances s) as Hpass.
    destruct (run_pass cfg s) as [[] s1|s1]; simpl in Hpass; [|exact Hpass].
    eapply targets_le_trans; [exact Hpass|].
    match goal with |- context [polling cfg fuel ?s'] => exact (IH s') end.
Qed.

End Cursor.

Lemma snowflake_le_preorder : PreOrder snowflake_le.
Proof.
  split; unfold snowflake_le.
  - intros x. lia.
  - intros x y z. lia.
Qed.

Lemma service_honours_since_id : honours_since_id (World := Service) snowflake_le.
Proof.
  intros uid n since w d w' newest rest Hfetch Hdata. simpl in Hfetch.
  destruct (feed w) as [|b bs]; injection Hfetch as <- _; simpl in Hdata;
    [discriminate Hdata|].
  assert (Hin : In newest (List.filter (newer_than since) b))
    by (rewrite Hdata; left; reflexivity).
  apply filter_In in Hin. destruct Hin as [_ Hnew].
  destruct since as [c|]; simpl; [|exact I].
  unfold newer_than in Hnew. apply Z.ltb_lt in Hnew.
  unfold snowflake_le. lia.
Qed.

End WatchProofs.


(** * More on the signer *)

Module AuthFacts.

Import PyStr PyText Auth AuthProofs.

(** ** Decoding what was encoded *)

Lemma unquote_escape_append (c : ascii) (rest : string) :
  unquote (escape c +:+ rest) = String c (unquote rest).
Proof. each_byte c; reflexivity. Qed.

Lemma unquote_unreserved (c : ascii) (rest : string) :
  is_unreserved c = true -> unquote (String c rest) = String c (unquote rest).
Proof. each_byte c; intros Hc; try discriminate Hc; reflexivity. Qed.

Lemma unquote_encoded (s : string) : unquote (_percent_encode s) = s.
Proof.
  induction s as [|c s IH]; [reflexivity|].
  cbn [_percent_encode]. unfold quote_byte.
  destruct (is_unreserved c) eqn:Hc.
  - rewrite append_cons. change (EmptyString +:+ _percent_encode s) with (_percent_encode s).
    rewrite unquote_unreserved by assumption. now rewrite IH.
  - rewrite unquote_escape_append. now rewrite IH.
Qed.

Lemma percent_encode_injective (a b : string) :
  _percent_encode a = _percent_encode b -> a = b.
Proof.
  intros Hab. rewrite <- (unquote_encoded a), <- (unquote_encoded b).
  now rewrite Hab.
Qed.

(** X1. Percent-decoding undoes percent-encoding, for every string; so two
    strings with the same encoding are the same string. *)
Theorem unquote_percent_encode (s : string) :
  unquote (_percent_encode s) = s /\
  (forall t, _percent_encode t = _percent_encode s <-> t = s).
Proof.
  split; [apply unquote_encoded|].
  intros t. split; [apply percent_encode_injective | now intros ->].
Qed.

Lemma unquote_percent_encode_witness :
  unquote "a%20b%2Fc" = "a b/c" /\
  (_percent_encode "a b/c" = "a%20b%2Fc" -> "a b/c" = "a b/c").
Proof.
  split; [exact (proj1 (unquote_percent_encode "a b/c"))|].
  exact (proj1 (proj2 (unquote_percent_encode "a b/c") "a b/c")).
Defined.

Lemma percent_encode_free_of (c : ascii) (s : string) :
  is_unreserved c = false -> Ascii.eqb c "%"%char = false ->
  has_char c (_percent_encode s) = false.
Proof.
  intros Hc Hp. eapply all_chars_has_char; [apply percent_encode_alphabet|].
  cbv beta. now rewrite Hc, Hp.
Qed.

(** ** Taking a joined string apart *)

Lemma partition_append (c : ascii) (a b : string) :
  has_char c a = false ->
  partition c (a +:+ String c b) = (a, Some b).
Proof.
  induction a as [|x a IH]; intros Ha.
  - simpl. now rewrite Ascii.eqb_refl.
  - simpl in Ha. apply orb_false_iff in Ha. destruct Ha as [Hx Ha].
    rewrite append_cons. cbn [partition]. rewrite Hx, (IH Ha). reflexivity.
Qed.

Lemma split_plain (c : ascii) (a : string) :
  has_char c a = false -> split c a = [a].
Proof.
  induction a as [|x a IH]; intros Ha; [reflexivity|].
  simpl in Ha. apply orb_false_iff in Ha. destruct Ha as [Hx Ha].
  cbn [split]. rewrite Hx, (IH Ha). reflexivity.
Qed.

Lemma split_append (c : ascii) (a b : string) :
  has_char c a = false ->
  split c (a +:+ String c b) = a :: split c b.
Proof.
  induction a as [|x a IH]; intros Ha.
  - simpl. now rewrite Ascii.eqb_refl.
  - simpl in Ha. apply orb_false_iff in Ha. destruct Ha as [Hx Ha].
    rewrite append_cons. cbn [split]. rewrite Hx, (IH Ha). reflexivity.
Qed.

Lemma plus_to_space_id (s : string) :
  has_char "+"%char s = false -> plus_to_space s = s.
Proof.
  unfold plus_to_space. induction s as [|x s IH]; intros Hs; [reflexivity|].
  simpl in Hs. apply orb_false_iff in Hs. destruct Hs as [Hx Hs].
  cbn [map_chars]. rewrite (IH Hs).
  destruct (Ascii.eqb_spec x "+"%char) as [->|]; [discriminate Hx | reflexivity].
Qed.

Lemma encode_pair_free_of_amp (kv : string * string) :
  has_char "&"%char (encode_pair kv) = false.
Proof.
  unfold encode_pair. rewrite !has_char_append.
  rewrite !percent_encode_free_of by reflexivity. reflexivity.
Qed.

Lemma parse_field_encode_pair (kv : string * string) :
  parse_field (encode_pair kv) = Some kv.
Proof.
  destruct kv as [k v]. unfold parse_field, encode_pair. cbn [fst snd].
  assert (Htruthy : truthy (_percent_encode k +:+ "=" +:+ _percent_encode v) = true).
  { destruct (_percent_encode k); reflexivity. }
  rewrite Htruthy.
  change ("=" +:+ _percent_encode v) with (String "="%char (_percent_encode v)).
  rewrite partition_append by (apply percent_encode_free_of; reflexivity).
  change (default EmptyString (Some (_percent_encode v))) with (_percent_encode v).
  rewrite !plus_to_space_id by (apply percent_encode_free_of; reflexivity).
  now rewrite !unquote_encoded.
Qed.

Lemma omap_cons_eq {A B : Type} (f : A -> option B) (x : A) (l : list A) :
  omap f (x :: l) = match f x with Some y => y :: omap f l | None => omap f l end.
Proof. reflexivity. Qed.

Lemma parse_qsl_joined_pairs (l : list (string * string)) :
  parse_qsl (String.concat "&" (map encode_pair l)) = l.
Proof.
  unfold parse_qsl. induction l as [|x l IH]; [reflexivity|].
  destruct l as [|y l].
  - cbn [map String.concat]. rewrite split_plain by apply encode_pair_free_of_amp.
    rewrite omap_cons_eq, parse_field_encode_pair. reflexivity.
  - change (String.concat "&" (map encode_pair (x :: y :: l)))
      with (encode_pair x +:+ String "&"%char (String.concat "&" (map encode_pair (y :: l)))).
    rewrite split_append by apply encode_pair_free_of_amp.
    rewrite omap_cons_eq, parse_field_encode_pair. now rewrite IH.
Qed.

(** X2. The parameter string reads back: parsing it as a query string gives
    the sorted signed parameters, pair for pair. *)
Theorem param_string_parses_back
    (nonce timestamp url : string) (creds : Credentials)
    (extra : option (PyDict.t string)) :
  parse_qsl (param_string nonce timestamp url creds extra)
  = sorted_params nonce timestamp url creds extra.
Proof. apply parse_qsl_joined_pairs. Qed.

(** X3. The signing key tells the two secrets apart: credentials with the
    same signing key have the same consumer secret and the same token
    secret. *)
Theorem signing_key_determines_secrets (c1 c2 : Credentials) :
  signing_key c1 = signing_key c2 ->
  api_secret c1 = api_secret c2 /\
  access_token_secret c1 = access_token_secret c2.
Proof.
  unfold signing_key. intros Hkey.
  assert (Hpart : forall a b,
    partition "&"%char (_percent_encode a +:+ "&" +:+ _percent_encode b)
    = (_percent_encode a, Some (_percent_encode b))).
  { intros a b. change ("&" +:+ _percent_encode b) with (String "&"%char (_percent_encode b)).
    apply partition_append, percent_encode_free_of; reflexivity. }
  pose proof (Hpart (api_secret c1) (access_token_secret c1)) as H1.
  rewrite Hkey, Hpart in H1. injection H1 as Ha Hb.
  split; apply percent_encode_injective; congruence.
Qed.

Lemma signing_key_determines_secrets_witness :
  api_secret {| api_key := "k1"; api_secret := "s&t"; access_token := "a1";
                access_token_secret := "u"; bearer_token := "b1" |}
  = api_secret {| api_key := "k2"; api_secret := "s&t"; access_token := "a2";
                  access_token_secret := "u"; bearer_token := "b2" |}.
Proof.
  exact (proj1 (signing_key_determines_secrets
    {| api_key := "k1"; api_secret := "s&t"; access_token := "a1";
       access_token_secret := "u"; bearer_token := "b1" |}
    {| api_key := "k2"; api_secret := "s&t"; access_token := "a2";
       access_token_secret := "u"; bearer_token := "b2" |} eq_refl)).
Defined.

(** ** The merged parameters *)

Section DictKeys.
Context {V : Type}.
Implicit Types (d : PyDict.t V) (k : string) (v : V).

Lemma set_keys k v d x :
  x ∈ map fst (PyDict.set k v d) -> x = k \/ x ∈ map fst d.
Proof.
  induction d as [|[k0 v0] d IH]; simpl.
  - rewrite list_elem_of_singleton. auto.
  - destruct (String.eqb_spec k k0) as [->|Hne]; simpl; rewrite !elem_of_cons.
    + tauto.
    + intros [->|Hin]; [tauto|]. destruct (IH Hin); tauto.
Qed.

Lemma set_NoDup k v d :
  NoDup (map fst d) -> NoDup (map fst (PyDict.set k v d)).
Proof.
  induction d as [|[k0 v0] d IH]; simpl.
  - intros _. apply NoDup_singleton.
  - destruct (String.eqb_spec k k0) as [->|Hne]; simpl; [auto|].
    rewrite !NoDup_cons. intros [Hnotin Hnd]. split; [|auto].
    intros [->|Hin]%set_keys; [congruence | contradiction].
Qed.

Lemma get_set k k' v d :
  PyDict.get k (PyDict.set k' v d) = if String.eqb k k' then Some v else PyDict.get k d.
Proof.
  destruct (String.eqb_spec k k') as [->|Hne].
  - apply get_set_eq.
  - now apply get_set_ne.
Qed.

Lemma get_snoc k d k' v :
  PyDict.get k (d ++ [(k', v)]) =
  match PyDict.get k d with
  | Some x => Some x
  | None => if String.eqb k k' then Some v else None
  end.
Proof.
  induction d as [|[k0 v0] d IH]; simpl; [reflexivity|].
  destruct (String.eqb k k0); [reflexivity | exact IH].
Qed.

Lemma update_NoDup (items : PyDict.t V) d :
  NoDup (map fst d) -> NoDup (map fst (PyDict.update items d)).
Proof.
  unfold PyDict.update. revert d.
  induction items as [|[k v] items IH]; simpl; intros d Hd; [exact Hd|].
  apply IH, set_NoDup, Hd.
Qed.

(** [d.update(items)]: the last value given for a key wins *)
Lemma get_update (items : PyDict.t V) d k :
  PyDict.get k (PyDict.update items d) =
  match PyDict.get k (rev items) with
  | Some x => Some x
  | None => PyDict.get k d
  end.
Proof.
  unfold PyDict.update. revert d.
  induction items as [|[k0 v0] items IH]; intros d; [reflexivity|].
  cbn [fold_left fst snd rev]. rewrite IH, get_snoc, get_set.
  destruct (PyDict.get k (rev items)); [reflexivity|].
  destruct (String.eqb k k0); reflexivity.
Qed.
End DictKeys.

Lemma add_query_NoDup (qs : PyDict.t (list string)) (d : PyDict.t string) :
  NoDup (map fst d) -> NoDup (map fst (add_query qs d)).
Proof.
  revert d. induction qs as [|[k vs] qs IH]; intros d Hd; [exact Hd|].
  rewrite add_query_cons. apply IH.
  destruct vs; [exact Hd | now apply set_NoDup].
Qed.

Lemma get_not_key {V : Type} (k : string) (d : PyDict.t V) :
  k ∉ map fst d -> PyDict.get k d = None.
Proof.
  induction d as [|[k0 v0] d IH]; simpl; [reflexivity|].
  rewrite not_elem_of_cons. intros [Hne Hnotin].
  destruct (String.eqb_spec k k0); [contradiction | auto].
Qed.

(** the query is merged last: a key of the query takes the first value the
    query gives it *)
Lemma get_add_query (qs : PyDict.t (list string)) (d : PyDict.t string) (k : string) :
  NoDup (map fst qs) ->
  PyDict.get k (add_query qs d) =
  match PyDict.get k qs with
  | Some (v :: _) => Some v
  | _ => PyDict.get k d
  end.
Proof.
  revert d. induction qs as [|[k0 vs] qs IH]; intros d Hnd; [reflexivity|].
  simpl in Hnd. rewrite NoDup_cons in Hnd. destruct Hnd as [Hnotin Hnd].
  rewrite add_query_cons. cbn [PyDict.get].
  destruct (String.eqb_spec k k0) as [->|Hne].
  - rewrite add_query_get_other by assumption.
    destruct vs as [|v vs]; [reflexivity | apply get_set_eq].
  - rewrite IH by assumption.
    destruct (PyDict.get k qs) as [[|v' vs']|]; try reflexivity;
      destruct vs as [|v vs]; try reflexivity; now apply get_set_ne.
Qed.

Lemma oauth_params_NoDup (nonce timestamp : string) (creds : Credentials) :
  NoDup (map fst (oauth_params nonce timestamp creds)).
Proof.
  change (NoDup ["oauth_consumer_key"; "oauth_nonce"; "oauth_signature_method";
                 "oauth_timestamp"; "oauth_token"; "oauth_version"]).
  apply (bool_decide_unpack _). vm_compute. reflexivity.
Qed.

Lemma all_params_NoDup (nonce timestamp url : string) (creds : Credentials)
    (extra : option (PyDict.t string)) :
  NoDup (map fst (all_params nonce timestamp url creds extra)).
Proof.
  unfold all_params.
  assert (Hextra : NoDup (map fst
    match extra with
    | Some (p :: ps) => PyDict.update (p :: ps) (oauth_params nonce timestamp creds)
    | _ => oauth_params nonce timestamp creds
    end)).
  { destruct extra as [[|p ps]|]; try apply oauth_params_NoDup.
    apply update_NoDup, oauth_params_NoDup. }
  destruct (truthy (query (parsed url))); [now apply add_query_NoDup | exact Hextra].
Qed.

(** X6. Which value is signed for a key: the first value the URL's query
    gives it; failing that the (last) value the extra parameters give it;
    failing that the oauth parameter of that name.  So a query or extra
    parameter named like an oauth parameter replaces it in the signed set. *)
Theorem signed_value_precedence
    (nonce timestamp url : string) (creds : Credentials)
    (extra : option (PyDict.t string)) (k : string) :
  PyDict.get k (all_params nonce timestamp url creds extra) =
  match PyDict.get k (parse_qs (query (urlparse url))) with
  | Some (v :: _) => Some v
  | _ =>
      match PyDict.get k (rev (default [] extra)) with
      | Some v => Some v
      | None => PyDict.get k (oauth_params nonce timestamp creds)
      end
  end.
Proof.
  unfold all_params, parsed.
  assert (Hextra : PyDict.get k
    match extra with
    | Some (p :: ps) => PyDict.update (p :: ps) (oauth_params nonce timestamp creds)
    | _ => oauth_params nonce timestamp creds
    end =
    match PyDict.get k (rev (default [] extra)) with
    | Some v => Some v
    | None => PyDict.get k (oauth_params nonce timestamp creds)
    end).
  { destruct extra as [[|p ps]|]; try reflexivity. apply get_update. }
  destruct (query (urlparse url)) as [|c q] eqn:Hq.
  - rewrite parse_qs_empty. exact Hextra.
  - cbn [truthy]. rewrite get_add_query by apply parse_qs_NoDup.
    destruct (PyDict.get k (parse_qs (String c q))) as [[|v vs]|]; auto.
Qed.

(** ** What sorting does to the merged parameters *)

Lemma insert_sorted_perm (x : string * string) (l : list (string * string)) :
  insert_sorted x l ≡ₚ x :: l.
Proof.
  induction l as [|y l IH]; simpl; [reflexivity|].
  destruct (pair_leb x y); [reflexivity|].
  rewrite IH. apply Permutation_swap.
Qed.

Lemma sorted_perm (l : list (string * string)) : sorted l ≡ₚ l.
Proof.
  induction l as [|x l IH]; simpl; [reflexivity|].
  now rewrite insert_sorted_perm, IH.
Qed.

Lemma pair_leb_strict (a b : string * string) :
  pair_leb a b = true -> fst a <> fst b -> String.ltb (fst a) (fst b) = true.
Proof.
  unfold pair_leb, String.ltb.
  destruct (String.compare (fst a) (fst b)) eqn:Hc; try easy.
  apply String.compare_eq_iff in Hc. congruence.
Qed.

Lemma sorted_strict (l : list (string * string)) :
  NoDup (map fst l) ->
  Sorted (fun a b => pair_leb a b = true) l ->
  Sorted (fun a b => String.ltb (fst a) (fst b) = true) l.
Proof.
  intros Hnd Hs. induction Hs as [|a l Hs IH Hhd]; [constructor|].
  simpl in Hnd. rewrite NoDup_cons in Hnd. destruct Hnd as [Hnotin Hnd].
  constructor; [auto|].
  destruct Hhd as [|b l Hab]; constructor.
  apply pair_leb_strict; [exact Hab|].
  intros Heq. apply Hnotin. simpl. rewrite Heq. left.
Qed.

(** X5. The signed parameters are the merged parameters, each once, with
    every key once, in strictly increasing order of the raw key. *)
Theorem signed_params_strictly_sorted
    (nonce timestamp url : string) (creds : Credentials)
    (extra : option (PyDict.t string)) :
  sorted_params nonce timestamp url creds extra
    ≡ₚ all_params nonce timestamp url creds extra /\
  NoDup (map fst (sorted_params nonce timestamp url creds extra)) /\
  Sorted (fun a b => String.ltb (fst a) (fst b) = true)
    (sorted_params nonce timestamp url creds extra).
Proof.
  unfold sorted_params.
  assert (Hnd : NoDup (map fst (sorted (all_params nonce timestamp url creds extra)))).
  { rewrite sorted_perm. apply all_params_NoDup. }
  split; [apply sorted_perm|]. split; [exact Hnd|].
  apply sorted_strict; [exact Hnd | apply sorted_is_sorted].
Qed.

(** ** When the order of the raw keys is the order of the encoded keys *)

Section EncodedOrder.
Variable f : string * string -> string * string.

Lemma pair_leb_keys (a b a' b' : string * string) :
  fst a' = fst a -> fst b' = fst b -> fst a <> fst b ->
  pair_leb a' b' = pair_leb a b.
Proof.
  intros Ha Hb Hne. unfold pair_leb. rewrite Ha, Hb.
  destruct (String.compare (fst a) (fst b)) eqn:Hc; try reflexivity.
  apply String.compare_eq_iff in Hc. contradiction.
Qed.

Lemma insert_sorted_map (x : string * string) (l : list (string * string)) :
  fst (f x) = fst x ->
  (forall y, y ∈ l -> fst (f y) = fst y /\ fst x <> fst y) ->
  insert_sorted (f x) (map f l) = map f (insert_sorted x l).
Proof.
  intros Hx Hl. induction l as [|y l IH]; [reflexivity|].
  destruct (Hl y ltac:(left)) as [Hy Hne].
  cbn [map insert_sorted]. rewrite (pair_leb_keys x y (f x) (f y)) by assumption.
  destruct (pair_leb x y); [reflexivity|].
  cbn [map]. rewrite IH; [reflexivity|]. intros z Hz. apply Hl. now right.
Qed.

Lemma sorted_map (l : list (string * string)) :
  NoDup (map fst l) ->
  (forall y, y ∈ l -> fst (f y) = fst y) ->
  sorted (map f l) = map f (sorted l).
Proof.
  induction l as [|x l IH]; intros Hnd Hl; [reflexivity|].
  simpl in Hnd. rewrite NoDup_cons in Hnd. destruct Hnd as [Hnotin Hnd].
  cbn [map sorted fold_right]. fold (sorted (map f l)). fold (sorted l).
  rewrite IH; [|assumption | intros y Hy; apply Hl; now right].
  apply insert_sorted_map; [apply Hl; left|].
  intros y Hy. apply (proj1 (elem_of_sorted _ _)) in Hy. split.
  - apply Hl. apply elem_of_cons. right. exact Hy.
  - intros Heq. apply Hnotin. rewrite Heq. apply list_elem_of_fmap. eauto.
Qed.
End EncodedOrder.

(** X4. When every key of the merged parameters consists of unreserved
    characters, the parameter string is the one OAuth 1.0a asks for: sorting
    the raw pairs and sorting the encoded pairs give the same string, whatever
    the values hold. *)
Theorem param_string_conforms_for_unreserved_keys
    (nonce timestamp url : string) (creds : Credentials)
    (extra : option (PyDict.t string)) :
  forallb (fun kv => all_chars is_unreserved (fst kv))
          (all_params nonce timestamp url creds extra) = true ->
  param_string nonce timestamp url creds extra
  = spec_param_string nonce timestamp url creds extra.
Proof.
  intros Hkeys. unfold param_string, spec_param_string, sorted_params, encoded_params.
  rewrite sorted_map.
  - rewrite map_map. reflexivity.
  - apply all_params_NoDup.
  - intros y Hy. cbn [fst]. apply percent_encode_unreserved.
    rewrite forallb_forall in Hkeys. apply (Hkeys y). now apply list_elem_of_In.
Qed.

Lemma param_string_conforms_for_unreserved_keys_witness :
  param_string "nonce" "1700000000"
    "https://api.x.com/2/tweets/123?tweet.fields=public_metrics,non_public_metrics"
    {| api_key := "ck"; api_secret := "cs"; access_token := "at";
       access_token_secret := "ats"; bearer_token := "bt" |} None
  = spec_param_string "nonce" "1700000000"
    "https://api.x.com/2/tweets/123?tweet.fields=public_metrics,non_public_metrics"
    {| api_key := "ck"; api_secret := "cs"; access_token := "at";
       access_token_secret := "ats"; bearer_token := "bt" |} None.
Proof.
  apply (param_string_conforms_for_unreserved_keys "nonce" "1700000000"
    "https://api.x.com/2/tweets/123?tweet.fields=public_metrics,non_public_metrics"
    {| api_key := "ck"; api_secret := "cs"; access_token := "at";
       access_token_secret := "ats"; bearer_token := "bt" |} None).
  vm_compute. reflexivity.
Defined.

End AuthFacts.


(** * Loading the credentials *)

Module CredentialsFacts.

Import PyStr Auth AuthCredentials.

Lemma require_ok (environ : gmap string string) (name v : string) :
  require environ name = Ok v <-> environ !! name = Some v /\ truthy v = true.
Proof.
  unfold require. destruct (environ !! name) as [val|].
  - destruct (truthy val) eqn:Hval; split.
    + intros [= ->]. auto.
    + intros [[= ->] _]. reflexivity.
    + discriminate.
    + intros [[= ->] Hv]. congruence.
  - split; [discriminate | intros [Hv _]; discriminate Hv].
Qed.

Lemma require_exit (environ : gmap string string) (name msg : string) :
  require environ name = SystemExit msg <->
  is_set environ name = false /\ msg = missing_message name.
Proof.
  unfold require, is_set. destruct (environ !! name) as [val|].
  - destruct (truthy val); split; try discriminate.
    + intros [Hf _]. discriminate Hf.
    + intros [= <-]. auto.
    + intros [_ ->]. reflexivity.
  - split; [intros [= <-]; auto | intros [_ ->]; reflexivity].
Qed.

Lemma require_is_set (environ : gmap string string) (name v : string) :
  require environ name = Ok v -> is_set environ name = true.
Proof.
  intros [Hv Ht]%require_ok. unfold is_set. now rewrite Hv.
Qed.

(** X7. [load_credentials] returns credentials exactly when the five
    variables are all set to non-empty values, and then each field is its
    variable; otherwise it exits with the message that names the first of
    the five, in the order they are read, that is unset or empty. *)
Theorem load_credentials_needs_all_five (environ : gmap string string) :
  (forall creds,
     load_credentials environ = Ok creds <->
     forallb (is_set environ) required_names = true /\
     map (fun name => environ !! name) required_names =
       map Some [api_key creds; api_secret creds; access_token creds;
                 access_token_secret creds; bearer_token creds]) /\
  (forall msg,
     load_credentials environ = SystemExit msg ->
     exists pre name post,
       required_names = pre ++ name :: post /\
       forallb (is_set environ) pre = true /\
       is_set environ name = false /\
       msg = missing_message name).
Proof.
  unfold load_credentials, required_names. split.
  - intros creds. split.
    + destruct (require environ "X_API_KEY") as [k|] eqn:H1; [|discriminate].
      destruct (require environ "X_API_SECRET") as [s|] eqn:H2; [|discriminate].
      destruct (require environ "X_ACCESS_TOKEN") as [t|] eqn:H3; [|discriminate].
      destruct (require environ "X_ACCESS_TOKEN_SECRET") as [ts|] eqn:H4; [|discriminate].
      destruct (require environ "X_BEARER_TOKEN") as [b|] eqn:H5; [|discriminate].
      cbn [and_then]. intros [= <-]. cbn [forallb map api_key api_secret access_token
        access_token_secret bearer_token].
      rewrite (require_is_set _ _ _ H1), (require_is_set _ _ _ H2),
        (require_is_set _ _ _ H3), (require_is_set _ _ _ H4), (require_is_set _ _ _ H5).
      apply require_ok in H1, H2, H3, H4, H5.
      destruct H1 as [-> _], H2 as [-> _], H3 as [-> _], H4 as [-> _], H5 as [-> _].
      split; reflexivity.
    + intros [Hset Hvals]. cbn [forallb map] in Hset, Hvals.
      injection Hvals as V1 V2 V3 V4 V5.
      unfold is_set in Hset. rewrite V1, V2, V3, V4, V5 in Hset.
      repeat (apply andb_true_iff in Hset; destruct Hset as [? Hset]).
      unfold require. rewrite V1, V2, V3, V4, V5.
      repeat match goal with Ht : truthy _ = true |- _ => rewrite Ht; clear Ht end.
      cbn [and_then]. destruct creds; reflexivity.
  - intros msg.
    destruct (require environ "X_API_KEY") as [k|m1] eqn:H1.
    2: { cbn [and_then]. intros [= <-]. apply require_exit in H1. destruct H1 as [Hs ->].
         exists [], "X_API_KEY", ["X_API_SECRET"; "X_ACCESS_TOKEN";
           "X_ACCESS_TOKEN_SECRET"; "X_BEARER_TOKEN"]. auto. }
    destruct (require environ "X_API_SECRET") as [s|m2] eqn:H2.
    2: { cbn [and_then]. intros [= <-]. apply require_exit in H2. destruct H2 as [Hs ->].
         exists ["X_API_KEY"], "X_API_SECRET", ["X_ACCESS_TOKEN";
           "X_ACCESS_TOKEN_SECRET"; "X_BEARER_TOKEN"].
         cbn [forallb]. rewrite (require_is_set _ _ _ H1). auto. }
    destruct (require environ "X_ACCESS_TOKEN") as [t|m3] eqn:H3.
    2: { cbn [and_then]. intros [= <-]. apply require_exit in H3. destruct H3 as [Hs ->].
         exists ["X_API_KEY"; "X_API_SECRET"], "X_ACCESS_TOKEN",
           ["X_ACCESS_TOKEN_SECRET"; "X_BEARER_TOKEN"].
         cbn [forallb]. rewrite (require_is_set _ _ _ H1), (require_is_set _ _ _ H2).
         auto. }
    destruct (require environ "X_ACCESS_TOKEN_SECRET") as [ts|m4] eqn:H4.
    2: { cbn [and_then]. intros [= <-]. apply require_exit in H4. destruct H4 as [Hs ->].
         exists ["X_API_KEY"; "X_API_SECRET"; "X_ACCESS_TOKEN"], "X_ACCESS_TOKEN_SECRET",
           ["X_BEARER_TOKEN"].
         cbn [forallb]. rewrite (require_is_set _ _ _ H1), (require_is_set _ _ _ H2),
           (require_is_set _ _ _ H3). auto. }
    destruct (require environ "X_BEARER_TOKEN") as [b|m5] eqn:H5.
    2: { cbn [and_then]. intros [= <-]. apply require_exit in H5. destruct H5 as [Hs ->].
         exists ["X_API_KEY"; "X_API_SECRET"; "X_ACCESS_TOKEN"; "X_ACCESS_TOKEN_SECRET"],
           "X_BEARER_TOKEN", [].
         cbn [forallb]. rewrite (require_is_set _ _ _ H1), (require_is_set _ _ _ H2),
           (require_is_set _ _ _ H3), (require_is_set _ _ _ H4). auto. }
    discriminate.
Qed.

Lemma load_credentials_needs_all_five_witness :
  exists pre name post,
    required_names = pre ++ name :: post /\
    forallb (is_set (<["X_API_SECRET" := EmptyString]> {["X_API_KEY" := "k"]})) pre = true /\
    is_set (<["X_API_SECRET" := EmptyString]> {["X_API_KEY" := "k"]}) name = false /\
    missing_message "X_API_SECRET" = missing_message name.
Proof.
  apply (proj2 (load_credentials_needs_all_five
    (<["X_API_SECRET" := EmptyString]> {["X_API_KEY" := "k"]}))
    (missing_message "X_API_SECRET")).
  vm_compute. reflexivity.
Defined.

End CredentialsFacts.


(** * Responses and the timeline request *)

Module ApiFacts.

Import PyStr PyText Api.

Lemma rate_limit_wait_at_least_5 (reset_at : string) (now : Z) :
  5 <= Watch.rate_limit_wait reset_at now.
Proof.
  unfold Watch.rate_limit_wait. destruct (PyStr.int reset_at); lia.
Qed.

(** X8. A response with status 429 raises the rate-limit error before its
    body is looked at, with the value of the [x-rate-limit-reset] header or
    ["unknown"]; the watch loop then waits at least 5 seconds, and 60 when
    the header is missing. *)
Theorem handle_429_is_rate_limit {P : Type} (resp : Response P) (now : Z) :
  status_code resp = 429 ->
  let reset := default "unknown" (header resp "x-rate-limit-reset") in
  _handle resp = RaisesRateLimit reset /\
  5 <= Watch.rate_limit_wait reset now /\
  (header resp "x-rate-limit-reset" = None -> Watch.rate_limit_wait reset now = 60).
Proof.
  intros H429 reset. unfold _handle. rewrite H429. cbn [Z.eqb Pos.eqb].
  split; [reflexivity|]. split; [apply rate_limit_wait_at_least_5|].
  intros Hnone. subst reset. rewrite Hnone. reflexivity.
Qed.

Lemma handle_429_is_rate_limit_witness :
  @_handle unit {| status_code := 429; header := fun _ => None;
                   json := None; text := "Too Many Requests" |}
  = RaisesRateLimit "unknown" /\
  Watch.rate_limit_wait "unknown" 1700000000 = 60.
Proof.
  pose proof (handle_429_is_rate_limit (P := unit)
    {| status_code := 429; header := fun _ => None;
       json := None; text := "Too Many Requests" |} 1700000000 eq_refl)
    as (Hhandle & _ & Hwait).
  split; [exact Hhandle | exact (Hwait eq_refl)].
Defined.

(** X9. What [_handle] does, by cases: it returns the body exactly for a
    status from 200 to 299 whose body parses; it raises the rate-limit error
    exactly for status 429; a body that does not parse raises the JSON error
    for every other status; the remaining responses raise a runtime error
    whose message starts with the status line. *)
Theorem handle_outcomes {P : Type} (resp : Response P) :
  (forall data, _handle resp = Returns data <->
     200 <= status_code resp <= 299 /\ json resp = Some data) /\
  (forall reset, _handle resp = RaisesRateLimit reset <->
     status_code resp = 429 /\
     reset = default "unknown" (header resp "x-rate-limit-reset")) /\
  (_handle resp = RaisesJSONDecode <-> status_code resp <> 429 /\ json resp = None) /\
  (forall msg, _handle resp = RaisesRuntime msg ->
     status_code resp <> 429 /\
     ~ (200 <= status_code resp <= 299) /\
     is_Some (json resp) /\
     exists rest, msg = "API error (HTTP " +:+ str_int (status_code resp) +:+ "): " +:+ rest).
Proof.
  unfold _handle, is_success.
  destruct (Z.eqb_spec (status_code resp) 429) as [H429|Hne].
  - split; [|split; [|split]].
    + intros data. split; [discriminate | intros [Hrange _]; lia].
    + intros reset. split; [intros [= <-]; auto | intros [_ ->]; reflexivity].
    + split; [discriminate | intros [Hno _]; contradiction].
    + discriminate.
  - destruct (json resp) as [data|].
    + destruct ((200 <=? status_code resp) && (status_code resp <=? 299)) eqn:Hr;
        cbn [negb].
      * assert (Hrange : 200 <= status_code resp <= 299)
          by (rewrite andb_true_iff, !Z.leb_le in Hr; exact Hr).
        split; [|split; [|split]].
        -- intros d. split; [intros [= <-]; auto | intros [_ [= <-]]; reflexivity].
        -- intros reset. split; [discriminate | intros [Hs _]; contradiction].
        -- split; [discriminate | intros [_ Hj]; discriminate Hj].
        -- discriminate.
      * assert (Hrange : ~ (200 <= status_code resp <= 299)).
        { intros Hin. rewrite andb_false_iff, !Z.leb_gt in Hr. lia. }
        split; [|split; [|split]].
        -- intros d. split; [discriminate | intros [Hin _]; contradiction].
        -- intros reset. split; [discriminate | intros [Hs _]; contradiction].
        -- split; [discriminate | intros [_ Hj]; discriminate Hj].
        -- intros msg [= <-]. split; [assumption|]. split; [assumption|].
           split; [eauto|]. eexists. reflexivity.
    + split; [|split; [|split]].
      * intros data. split; [discriminate | intros [_ Hd]; discriminate Hd].
      * intros reset. split; [discriminate | intros [Hs _]; contradiction].
      * split; auto.
      * discriminate.
Qed.

Lemma handle_outcomes_witness :
  @_handle unit {| status_code := 200; header := fun _ => None;
                   json := Some {| errors := []; payload := tt |}; text := "{}" |}
  = Returns {| errors := []; payload := tt |}.
Proof.
  apply (proj1 (handle_outcomes (P := unit)
    {| status_code := 200; header := fun _ => None;
       json := Some {| errors := []; payload := tt |}; text := "{}" |})).
  split; [cbn [status_code]; lia | reflexivity].
Defined.

(** X10. The timeline request always asks for between 5 and 100 results (a
    request within that range is sent as it is, a smaller one as 5, a larger
    one as 100), and carries [since_id] exactly when the cursor is a
    non-empty string. *)
Theorem timeline_params_bounds (max_results : Z) (since_id : option string) :
  exists m,
    PyDict.get "max_results" (timeline_params max_results since_id) = Some (str_int m) /\
    5 <= m <= 100 /\
    (m = max_results \/ (max_results < 5 /\ m = 5) \/ (100 < max_results /\ m = 100)) /\
    PyDict.get "since_id" (timeline_params max_results since_id) =
      match since_id with
      | Some i => if truthy i then Some i else None
      | None => None
      end.
Proof.
  exists (Z.max 5 (Z.min max_results 100)).
  unfold timeline_params. cbv zeta.
  split; [|split; [lia|split; [lia|]]].
  - destruct since_id as [[|c i]|]; reflexivity.
  - destruct since_id as [[|c i]|]; reflexivity.
Qed.

End ApiFacts.


(** * Small helpers *)

Module UtilsFacts.

Import PyStr PyText Utils.

(** X11. [strip_at] removes every leading [@], not only one: the name is
    some [@]s followed by the result, the result does not start with [@],
    and stripping again changes nothing. *)
Theorem strip_at_removes_all_leading_ats (username : string) :
  (exists n, username = string_of_list_ascii (repeat "@"%char n) +:+ strip_at username) /\
  String.prefix "@" (strip_at username) = false /\
  strip_at (strip_at username) = strip_at username.
Proof.
  unfold strip_at. induction username as [|c u (IHn & IHp & IHi)].
  - split; [exists 0%nat; reflexivity|]. split; reflexivity.
  - cbn [lstrip_chars has_char]. rewrite orb_false_r.
    destruct (Ascii.eqb_spec c "@"%char) as [->|Hne].
    + split; [|split; assumption].
      destruct IHn as (n & Hn). exists (S n). cbn [repeat string_of_list_ascii].
      rewrite AuthProofs.append_cons. now rewrite <- Hn.
    + split; [exists 0%nat; reflexivity|]. split.
      * cbn [String.prefix]. destruct (ascii_dec "@"%char c); [congruence | reflexivity].
      * cbn [lstrip_chars has_char]. rewrite orb_false_r.
        destruct (Ascii.eqb_spec c "@"%char); [contradiction | reflexivity].
Qed.

End UtilsFacts.

Module NotifyFacts.

Import PyStr PyText WatchNotify.

Lemma has_char_replaced (c : ascii) (by_ s : string) :
  has_char c by_ = false -> has_char c (replace_char c by_ s) = false.
Proof.
  intros Hby. induction s as [|d s IH]; [reflexivity|].
  cbn [replace_char]. destruct (Ascii.eqb c d) eqn:Hcd.
  - rewrite AuthProofs.has_char_append, Hby, IH. reflexivity.
  - cbn [has_char]. now rewrite Hcd, IH.
Qed.

Lemma quotes_escaped_after_escaping (b : bool) (s : string) :
  quotes_escaped b
    (replace_char quote_mark (String backslash (String quote_mark EmptyString)) s) = true.
Proof.
  revert b. induction s as [|d s IH]; intros b; [reflexivity|].
  cbn [replace_char]. destruct (Ascii.eqb quote_mark d) eqn:Hd.
  - rewrite !AuthProofs.append_cons.
    change (EmptyString +:+ ?x) with x.
    cbn [quotes_escaped]. rewrite IH. reflexivity.
  - cbn [quotes_escaped]. rewrite IH, andb_true_r.
    rewrite Ascii.eqb_sym, Hd. reflexivity.
Qed.

Lemma quotes_escaped_without_line_feeds (b : bool) (s : string) :
  quotes_escaped b s = true ->
  quotes_escaped b (replace_char line_feed " " s) = true.
Proof.
  revert b. induction s as [|d s IH]; intros b; [reflexivity|].
  cbn [replace_char quotes_escaped]. intros [Hd Hs]%andb_true_iff.
  destruct (Ascii.eqb_spec line_feed d) as [<-|Hne].
  - change (" " +:+ ?x) with (String " "%char x). cbn [quotes_escaped].
    apply andb_true_iff. split; [reflexivity|]. apply IH. exact Hs.
  - cbn [quotes_escaped]. rewrite Hd. apply IH. exact Hs.
Qed.

Lemma len_take_chars (n : nat) (s : string) : (len_chars (take_chars n s) <= n)%nat.
Proof.
  revert n. induction s as [|c s IH]; intros n; [simpl; lia|].
  cbn [take_chars]. destruct (is_continuation c) eqn:Hc.
  - cbn [len_chars]. rewrite Hc. apply IH.
  - destruct n as [|n]; [simpl; lia|].
    cbn [len_chars]. rewrite Hc. specialize (IH n). lia.
Qed.

Lemma len_escaped_quotes (s : string) :
  (len_chars (replace_char quote_mark (String backslash (String quote_mark EmptyString)) s)
   <= 2 * len_chars s)%nat.
Proof.
  induction s as [|d s IH]; [simpl; lia|].
  cbn [replace_char]. destruct (Ascii.eqb_spec quote_mark d) as [<-|Hne].
  - rewrite !AuthProofs.append_cons. change (EmptyString +:+ ?x) with x.
    change (len_chars (String backslash (String quote_mark ?x))) with (S (S (len_chars x))).
    change (len_chars (String quote_mark s)) with (S (len_chars s)). lia.
  - cbn [len_chars]. destruct (is_continuation d); lia.
Qed.

Lemma len_without_line_feeds (s : string) :
  len_chars (replace_char line_feed " " s) = len_chars s.
Proof.
  induction s as [|d s IH]; [reflexivity|].
  cbn [replace_char]. destruct (Ascii.eqb_spec line_feed d) as [<-|Hne].
  - change (" " +:+ ?x) with (String " "%char x).
    change (len_chars (String " "%char ?x)) with (S (len_chars x)).
    change (len_chars (String line_feed s)) with (S (len_chars s)). now rewrite IH.
  - cbn [len_chars]. now rewrite IH.
Qed.

(** X12. The preview put into the notification script is one line of at
    most 200 characters in which every double quote follows a backslash. *)
Theorem preview_is_one_line_with_escaped_quotes (text : string) :
  has_char line_feed (preview text) = false /\
  quotes_escaped false (preview text) = true /\
  (len_chars (preview text) <= 200)%nat.
Proof.
  unfold preview. split; [|split].
  - apply has_char_replaced. reflexivity.
  - apply quotes_escaped_without_line_feeds, quotes_escaped_after_escaping.
  - rewrite len_without_line_feeds.
    pose proof (len_escaped_quotes (take_chars 100 text)).
    pose proof (len_take_chars 100 text). lia.
Qed.

End NotifyFacts.


(** * More on the watch loop *)

Module WatchFacts.

Import PyStr Watch WatchObs WatchProofs.

(** ** The filter *)

Lemma contains_empty (h : string) : contains EmptyString h = true.
Proof. destruct h; reflexivity. Qed.

Lemma existsb_app_in {A : Type} (p : A -> bool) (l1 l2 : list A) :
  existsb p (l1 ++ l2) = existsb p l1 || existsb p l2.
Proof. apply existsb_app. Qed.

(** X18. A filter list that holds the empty keyword matches every text; and
    for two non-empty filter lists, a text matches their concatenation
    exactly when it matches one of them, so adding keywords to a non-empty
    filter list never loses a match. *)
Theorem matches_filters_empty_keyword_and_union :
  (forall text kws, EmptyString ∈ kws -> _matches_filters text kws = true) /\
  (forall text kws1 kws2, kws1 <> [] -> kws2 <> [] ->
     _matches_filters text (kws1 ++ kws2) =
     _matches_filters text kws1 || _matches_filters text kws2).
Proof.
  split.
  - intros text kws Hin.
    assert (Hne : kws <> []) by (intros ->; inversion Hin).
    rewrite matches_nonempty by assumption. apply existsb_exists.
    exists EmptyString. split; [|apply contains_empty].
    apply in_map_iff. exists EmptyString. split; [reflexivity|].
    now apply list_elem_of_In.
  - intros text kws1 kws2 H1 H2.
    rewrite !matches_nonempty; try assumption.
    + rewrite map_app. apply existsb_app.
    + destruct kws1; [contradiction | discriminate].
Qed.

Lemma matches_filters_empty_keyword_and_union_witness :
  _matches_filters "markets are quiet" ["flow"; EmptyString] = true /\
  _matches_filters "Big $NVDA sweep" (["$tsla"] ++ ["$nvda"]) =
    _matches_filters "Big $NVDA sweep" ["$tsla"]
    || _matches_filters "Big $NVDA sweep" ["$nvda"].
Proof.
  destruct matches_filters_empty_keyword_and_union as [Hempty Hunion].
  split.
  - apply Hempty. apply list_elem_of_In. simpl. auto.
  - apply Hunion; discriminate.
Defined.

(** ** Failed polls and empty polls *)

Section QuietPolls.
Context {World : Type} `{Client World}.
Variable cfg : Config.

(** X17. A poll that fails with an error other than a rate limit logs the
    error and goes on at once; a poll that returns no tweets only records
    the fetch.  Neither sleeps, renders, counts or moves a cursor. *)
Theorem failed_or_empty_poll_changes_nothing
    (i : nat) (s : State World) (target : WatchTarget) (r : FetchResult) (w : World) :
  targets s !! i = Some target ->
  get_timeline (user_id target) 10 (last_seen_id target) (world s) = (r, w) ->
  (forall msg, r = RuntimeError msg ->
     poll_target cfg i s = Normal tt
       (set_world w
          (add_events [Fetch (user_id target) 10 (last_seen_id target);
                       Stderr (LogError (username target) msg)] s))) /\
  (forall d, r = FetchOk d -> data d = [] ->
     poll_target cfg i s = Normal tt
       (set_world w
          (add_events [Fetch (user_id target) 10 (last_seen_id target)] s))).
Proof.
  intros Hi Hfetch. split.
  - intros msg ->. rewrite poll_target_eq, Hi, Hfetch. cbv zeta.
    unfold set_world, add_events. simpl. rewrite <- List.app_assoc. reflexivity.
  - intros d -> Hd. rewrite poll_target_eq, Hi, Hfetch. cbv zeta. now rewrite Hd.
Qed.

End QuietPolls.

Lemma failed_or_empty_poll_changes_nothing_witness :
  poll_target sample_config 0
    (sample_state [sample_target "A" "1" (Some "100")]
       {| clock := 0; script := [RuntimeError "boom"] |})
  = Normal tt
      (set_world {| clock := 0; script := [] |}
         (add_events [Fetch "1" 10 (Some "100"); Stderr (LogError "A" "boom")]
            (sample_state [sample_target "A" "1" (Some "100")]
               {| clock := 0; script := [RuntimeError "boom"] |}))).
Proof.
  exact (proj1 (failed_or_empty_poll_changes_nothing sample_config 0
    (sample_state [sample_target "A" "1" (Some "100")]
       {| clock := 0; script := [RuntimeError "boom"] |})
    (sample_target "A" "1" (Some "100")) (RuntimeError "boom")
    {| clock := 0; script := [] |} eq_refl eq_refl) "boom" eq_refl).
Defined.

(** ** What a session does to the outside, and to its targets *)

Lemma map_alter_set_last_seen {B : Type} (f : WatchTarget -> B) (c : option string)
    (i : nat) (l : list WatchTarget) :
  (forall t, f (set_last_seen c t) = f t) ->
  map f (alter (set_last_seen c) i l) = map f l.
Proof.
  intros Hf. revert i. induction l as [|t l IH]; intros [|i]; simpl;
    rewrite ?Hf; try reflexivity.
  f_equal. apply IH.
Qed.

Section Session.
Context {World : Type} `{Client World}.
Variable cfg : Config.

Lemma evolves_refl (s : State World) : evolves cfg s s.
Proof.
  split; [|split; reflexivity]. exists []. now rewrite app_nil_r.
Qed.

Lemma evolves_trans (s1 s2 s3 : State World) :
  evolves cfg s1 s2 -> evolves cfg s2 s3 -> evolves cfg s1 s3.
Proof.
  intros [(e1 & Ht1 & Ha1) [Hn1 Hu1]] [(e2 & Ht2 & Ha2) [Hn2 Hu2]].
  split; [|split; congruence].
  exists (e1 ++ e2). split.
  - rewrite Ht2, Ht1. now rewrite <- List.app_assoc.
  - rewrite forallb_app, Ha1, Ha2. reflexivity.
Qed.

(** a step that appends events and keeps the accounts *)
Lemma evolves_by (evs : list Event) (s s' : State World) :
  trace s' = trace s ++ evs ->
  forallb (event_allowed cfg) evs = true ->
  map username (targets s') = map username (targets s) ->
  map user_id (targets s') = map user_id (targets s) ->
  evolves cfg s s'.
Proof. intros Ht Ha Hn Hu. split; [eauto | auto]. Qed.

Lemma for_each_evolves {A : Type} (body : A -> M unit) (l : list A) (s : State World) :
  (forall x s0, evolves cfg s0 (result_state (body x s0))) ->
  evolves cfg s (result_state (for_each l body s)).
Proof.
  intros Hbody.
  pose proof (for_each_ind (evolves cfg s) (evolves cfg s) body l) as Hloop.
  specialize (Hloop ltac:(
    intros x s0 _ H0; specialize (Hbody x s0);
    destruct (body x s0); simpl in Hbody;
    exact (evolves_trans _ _ _ H0 Hbody)) s (evolves_refl s)).
  destruct (for_each l body s); exact Hloop.
Qed.

Lemma tweet_events_allowed (name : string) (inc : Includes) (tw : Tweet) :
  tweet_matches cfg tw = true ->
  forallb (event_allowed cfg) (tweet_events cfg name inc tw) = true.
Proof.
  intros Hm. unfold tweet_events. cbn [forallb event_allowed].
  rewrite Hm, String.eqb_refl, Bool.eqb_reflx.
  destruct (notify cfg) eqn:Hn; cbn [forallb event_allowed]; rewrite ?Hn; reflexivity.
Qed.

Lemma process_tweet_evolves (name : string) (inc : Includes) (tw : Tweet) (s : State World) :
  evolves cfg s (result_state (process_tweet cfg name inc tw s)).
Proof.
  destruct (_matches_filters (display_text tw) (filters cfg)) eqn:Hm.
  2: { rewrite process_tweet_skip by assumption. apply evolves_refl. }
  rewrite process_tweet_match by assumption. cbv zeta.
  destruct (budget_reached _ _); cbn [result_state].
  - eapply (evolves_by (tweet_events cfg name inc tw ++ [_; _])); try reflexivity.
    + simpl. now rewrite <- List.app_assoc.
    + rewrite forallb_app, tweet_events_allowed by exact Hm. reflexivity.
  - eapply (evolves_by (tweet_events cfg name inc tw)); try reflexivity.
    now apply tweet_events_allowed.
Qed.

Lemma poll_target_evolves (i : nat) (s : State World) :
  evolves cfg s (result_state (poll_target cfg i s)).
Proof.
  rewrite poll_target_eq.
  destruct (targets s !! i) as [target|]; [|apply evolves_refl].
  destruct (get_timeline _ _ _ _) as [r w]. cbv zeta.
  set (s1 := set_world w (add_events [Fetch (user_id target) 10 (last_seen_id target)] s)).
  assert (H1 : evolves cfg s s1) by (eapply (evolves_by [_]); reflexivity).
  destruct r as [d|reset_at|msg].
  - destruct (data d) as [|newest rest]; [exact H1|].
    pose proof (for_each_evolves (process_tweet cfg (username target) (includes d))
      (rev (newest :: rest)) s1 (process_tweet_evolves _ _)) as Hbatch.
    destruct (for_each _ _ s1) as [[] s2|s2]; cbn [result_state] in *.
    + eapply evolves_trans; [exact H1|]. eapply evolves_trans; [exact Hbatch|].
      eapply (evolves_by []); simpl; rewrite ?app_nil_r; try reflexivity;
        now apply map_alter_set_last_seen.
    + eapply evolves_trans; eassumption.
  - eapply evolves_trans; [exact H1|]. eapply (evolves_by [_; _]); reflexivity.
  - eapply evolves_trans; [exact H1|]. eapply (evolves_by [_]); reflexivity.
Qed.

Lemma run_pass_evolves (s : State World) :
  evolves cfg s (result_state (run_pass cfg s)).
Proof.
  unfold run_pass, bind, get_state. apply for_each_evolves, poll_target_evolves.
Qed.

Lemma polling_evolves (fuel : nat) (s : State World) :
  evolves cfg s (snd (polling cfg fuel s)).
Proof.
  revert s. induction fuel as [|fuel IH]; intros s.
  - rewrite polling_O. eapply (evolves_by [_]); reflexivity.
  - rewrite polling_S. pose proof (run_pass_evolves s) as Hpass.
    destruct (run_pass cfg s) as [[] s1|s1]; cbn [result_state snd] in *; [|exact Hpass].
    eapply evolves_trans; [exact Hpass|].
    eapply evolves_trans; [|apply IH].
    eapply (evolves_by [_]); reflexivity.
Qed.

Lemma seed_evolves (i : nat) (s : State World) :
  evolves cfg s (result_state (_seed_last_seen i s)).
Proof.
  unfold _seed_last_seen. unfold_m.
  destruct (targets s !! i) as [target|]; [|apply evolves_refl].
  simpl. destruct (get_timeline _ _ _ _) as [r w]. simpl.
  destruct r as [[[|newest rest] inc]|reset_at|msg]; simpl;
    eapply (evolves_by [_; _]); simpl; rewrite <- ?List.app_assoc; try reflexivity;
    now apply map_alter_set_last_seen.
Qed.

Lemma initialize_evolves (s : State World) :
  evolves cfg s (result_state (initialize cfg s)).
Proof.
  unfold initialize. unfold bind at 1. unfold emit at 1.
  unfold bind at 1. unfold get_state at 1. unfold bind at 1.
  set (s0 := add_events [Stderr LogInitializing] s).
  assert (H0 : evolves cfg s s0) by (eapply (evolves_by [_]); reflexivity).
  pose proof (for_each_evolves _seed_last_seen (seq 0 (length (targets s0))) s0
                seed_evolves) as Hloop.
  destruct (for_each _ _ s0) as [[] s1|s1]; cbn [result_state] in *.
  - eapply evolves_trans; [exact H0|]. eapply evolves_trans; [exact Hloop|].
    unfold_m. destruct (filters cfg); simpl.
    + eapply (evolves_by [_; _]); simpl; rewrite <- ?List.app_assoc; reflexivity.
    + eapply (evolves_by [_; _; _]); simpl; rewrite <- ?List.app_assoc; reflexivity.
  - eapply evolves_trans; eassumption.
Qed.

Lemma watch_loop_evolves (ts : list WatchTarget) (w : World) (fuel : nat) :
  evolves cfg (initial_state ts w) (snd (watch_loop cfg ts w fuel)).
Proof.
  unfold watch_loop. pose proof (initialize_evolves (initial_state ts w)) as Hinit.
  destruct (initialize cfg (initial_state ts w)) as [[] s|s]; cbn [result_state] in *;
    (eapply evolves_trans; [exact Hinit | apply polling_evolves]).
Qed.

(** X20. A session never renders a tweet that does not pass the filter,
    renders in no other mode or verbosity than the ones it was given, and
    sends no notification when notifications are off: every event of its
    trace is an allowed one. *)
Theorem session_does_only_what_is_allowed
    (ts : list WatchTarget) (w : World) (fuel : nat) :
  forallb (event_allowed cfg) (trace (snd (watch_loop cfg ts w fuel))) = true /\
  forallb (tweet_matches cfg) (rendered (trace (snd (watch_loop cfg ts w fuel)))) = true.
Proof.
  destruct (watch_loop_evolves ts w fuel) as [(evs & Htr & Hall) _].
  simpl in Htr. rewrite Htr. split; [exact Hall|].
  clear Htr. induction evs as [|e evs IH]; [reflexivity|].
  cbn [forallb] in Hall. apply andb_true_iff in Hall. destruct Hall as [He Hall].
  destruct e as [l|uid n since|tw inc m title v|name text|secs];
    try (apply IH; exact Hall).
  change (rendered (FormatOutput tw inc m title v :: evs))
    with (tw :: rendered evs).
  cbn [forallb]. rewrite (IH Hall), andb_true_r.
  cbn [event_allowed] in He. apply andb_true_iff in He. destruct He as [He _].
  apply andb_true_iff in He. apply He.
Qed.

(** X21. A session watches the accounts it was started with: whatever it
    does to the cursors, the user names and user ids of its targets are at
    every interruption or stop the ones given, in the same order. *)
Theorem session_keeps_its_accounts
    (ts : list WatchTarget) (w : World) (fuel : nat) :
  map username (targets (snd (watch_loop cfg ts w fuel))) = map username ts /\
  map user_id (targets (snd (watch_loop cfg ts w fuel))) = map user_id ts.
Proof. exact (proj2 (watch_loop_evolves ts w fuel)). Qed.

End Session.

(** ** Counting the passes *)

Section Polls.
Context {World : Type} `{Client World}.
Variable cfg : Config.

Lemma for_each_keeps {A B : Type} (obs : State World -> B)
    (body : A -> M unit) (l : list A) (s : State World) :
  (forall x s0, obs (result_state (body x s0)) = obs s0) ->
  obs (result_state (for_each l body s)) = obs s.
Proof.
  intros Hbody.
  pose proof (for_each_ind (fun s' => obs s' = obs s) (fun s' => obs s' = obs s)
                body l) as Hloop.
  specialize (Hloop ltac:(
    intros x s0 _ H0; specialize (Hbody x s0);
    destruct (body x s0); simpl in Hbody; congruence) s eq_refl).
  destruct (for_each l body s); exact Hloop.
Qed.

Lemma process_tweet_polls (name : string) (inc : Includes) (tw : Tweet) (s : State World) :
  polls (stats (result_state (process_tweet cfg name inc tw s))) = polls (stats s).
Proof.
  destruct (_matches_filters (display_text tw) (filters cfg)) eqn:Hm.
  - rewrite process_tweet_match by assumption. cbv zeta.
    destruct (budget_reached _ _); reflexivity.
  - rewrite process_tweet_skip by assumption. reflexivity.
Qed.

Lemma poll_target_polls (i : nat) (s : State World) :
  polls (stats (result_state (poll_target cfg i s))) = polls (stats s).
Proof.
  rewrite poll_target_eq.
  destruct (targets s !! i) as [target|]; [|reflexivity].
  destruct (get_timeline _ _ _ _) as [r w]. cbv zeta.
  destruct r as [d|reset_at|msg]; try reflexivity.
  destruct (data d) as [|newest rest]; [reflexivity|].
  pose proof (for_each_keeps (fun s' => polls (stats s'))
    (process_tweet cfg (username target) (includes d)) (rev (newest :: rest))
    (set_world w (add_events [Fetch (user_id target) 10 (last_seen_id target)] s))
    (process_tweet_polls _ _)) as Hbatch.
  destruct (for_each _ _ _); exact Hbatch.
Qed.

Lemma run_pass_polls (s : State World) :
  polls (stats (result_state (run_pass cfg s))) = polls (stats s).
Proof.
  unfold run_pass, bind, get_state.
  apply (for_each_keeps (fun s' => polls (stats s'))), poll_target_polls.
Qed.

Lemma polling_polls (fuel : nat) (s : State World) :
  match fst (polling cfg fuel s) with
  | Interrupted =>
      polls (stats (snd (polling cfg fuel s))) = polls (stats s) + Z.of_nat fuel
  | BudgetReached =>
      polls (stats s) <= polls (stats (snd (polling cfg fuel s)))
        < polls (stats s) + Z.of_nat fuel
  end.
Proof.
  revert s. induction fuel as [|fuel IH]; intros s.
  - rewrite polling_O. simpl. lia.
  - rewrite polling_S. pose proof (run_pass_polls s) as Hpass.
    destruct (run_pass cfg s) as [[] s1|s1]; cbn [result_state fst snd] in *; [|lia].
    match goal with |- context [polling cfg fuel ?s'] =>
      specialize (IH s'); assert (Hs' : polls (stats s') = polls (stats s) + 1)
        by (simpl; lia)
    end.
    destruct (fst (polling cfg fuel _)); lia.
Qed.


End Polls.

(** ** One fetch for each target in a pass *)

Lemma fetched_app (a b : list Event) : fetched (a ++ b) = fetched a ++ fetched b.
Proof. unfold fetched. apply omap_app. Qed.

Lemma omap_lookup_seq {A : Type} (pre l : list A) :
  omap (fun i => (pre ++ l) !! i) (seq (length pre) (length l)) = l.
Proof.
  revert pre. induction l as [|x l IH]; intros pre; [reflexivity|].
  cbn [length seq]. rewrite AuthFacts.omap_cons_eq, list_lookup_middle by reflexivity.
  f_equal. specialize (IH (pre ++ [x])).
  rewrite <- List.app_assoc, length_app in IH. cbn [length app] in IH.
  rewrite Nat.add_1_r in IH. exact IH.
Qed.

Section Fetches.
Context {World : Type} `{Client World}.
Variable cfg : Config.

Lemma process_tweet_fetched (name : string) (inc : Includes) (tw : Tweet) (s : State World) :
  fetched (trace (result_state (process_tweet cfg name inc tw s))) = fetched (trace s).
Proof.
  destruct (_matches_filters (display_text tw) (filters cfg)) eqn:Hm.
  - rewrite process_tweet_match by assumption. cbv zeta.
    assert (Hev : fetched (tweet_events cfg name inc tw) = [])
      by (unfold tweet_events; destruct (notify cfg); reflexivity).
    destruct (budget_reached _ _); simpl; rewrite !fetched_app, Hev; simpl;
      rewrite ?app_nil_r; reflexivity.
  - rewrite process_tweet_skip by assumption. reflexivity.
Qed.

Lemma poll_target_fetched (i : nat) (s : State World) :
  fetched (trace (result_state (poll_target cfg i s))) =
  fetched (trace s) ++ omap (fun j => map user_id (targets s) !! j) [i].
Proof.
  rewrite AuthFacts.omap_cons_eq, list_lookup_fmap. rewrite poll_target_eq.
  destruct (targets s !! i) as [target|]; [|simpl; now rewrite app_nil_r].
  destruct (get_timeline _ _ _ _) as [r w]. cbv zeta. cbn [fmap option_fmap option_map].
  destruct r as [d|reset_at|msg].
  - destruct (data d) as [|newest rest]; [simpl; now rewrite fetched_app|].
    pose proof (for_each_keeps (fun s' => fetched (trace s'))
      (process_tweet cfg (username target) (includes d)) (rev (newest :: rest))
      (set_world w (add_events [Fetch (user_id target) 10 (last_seen_id target)] s))
      (process_tweet_fetched _ _)) as Hbatch.
    destruct (for_each _ _ _) as [[] s2|s2]; cbn [result_state] in *;
      simpl; rewrite Hbatch; simpl; now rewrite fetched_app.
  - simpl. rewrite !fetched_app. simpl. now rewrite app_nil_r.
  - simpl. rewrite !fetched_app. simpl. now rewrite app_nil_r.
Qed.

Lemma polls_fetched (l : list nat) (s : State World) :
  match for_each l (poll_target cfg) s with
  | Normal _ s' =>
      fetched (trace s') =
      fetched (trace s) ++ omap (fun j => map user_id (targets s) !! j) l
  | Returned s' =>
      exists l1 l2, l = l1 ++ l2 /\
        fetched (trace s') =
        fetched (trace s) ++ omap (fun j => map user_id (targets s) !! j) l1
  end.
Proof.
  revert s. induction l as [|i l IH]; intros s.
  - simpl. now rewrite app_nil_r.
  - cbn [for_each]. unfold bind.
    pose proof (poll_target_fetched i s) as Hi.
    pose proof (poll_target_evolves cfg i s) as (_ & _ & Hids).
    destruct (poll_target cfg i s) as [[] s1|s1]; cbn [result_state] in *.
    + specialize (IH s1). rewrite Hids in IH.
      destruct (for_each l (poll_target cfg) s1) as [[] s2|s2].
      * rewrite IH, Hi, <- List.app_assoc. f_equal.
        change (i :: l) with ([i] ++ l). now rewrite omap_app.
      * destruct IH as (l1 & l2 & -> & Hf). exists (i :: l1), l2.
        split; [reflexivity|].
        rewrite Hf, Hi, <- List.app_assoc. f_equal.
        change (i :: l1) with ([i] ++ l1). now rewrite omap_app.
    + exists [i], l. split; [reflexivity | exact Hi].
Qed.

(** X15. A pass that runs to its end fetches every target once, in the
    order of the target list; a pass cut short by the budget has fetched a
    first part of that list, each of its targets once. *)
Theorem pass_fetches_each_target_once (s : State World) :
  match run_pass cfg s with
  | Normal _ s' =>
      fetched (trace s') = fetched (trace s) ++ map user_id (targets s)
  | Returned s' =>
      exists done rest,
        fetched (trace s') = fetched (trace s) ++ done /\
        map user_id (targets s) = done ++ rest
  end.
Proof.
  unfold run_pass, bind, get_state.
  pose proof (polls_fetched (seq 0 (length (targets s))) s) as Hf.
  pose proof (omap_lookup_seq [] (map user_id (targets s))) as Hall.
  rewrite length_map in Hall. cbn [app length] in Hall.
  destruct (for_each _ _ s) as [[] s'|s'].
  - now rewrite Hf, Hall.
  - destruct Hf as (l1 & l2 & Hl & Hf).
    exists (omap (fun j => map user_id (targets s) !! j) l1),
           (omap (fun j => map user_id (targets s) !! j) l2).
    split; [exact Hf|]. now rewrite <- omap_app, <- Hl, Hall.
Qed.

End Fetches.

(** ** The sum of the per-user counters *)

Lemma per_user_total_delete (u : string) (m : gmap string Z) :
  per_user_total m = default 0 (m !! u) + per_user_total (delete u m).
Proof.
  unfold per_user_total.
  destruct (m !! u) as [n|] eqn:Hu; simpl.
  - apply (map_fold_delete_L _ _ u n m); [intros; lia | exact Hu].
  - now rewrite delete_id.
Qed.

Lemma sum_over_usernames (us : list string) (m : gmap string Z) :
  NoDup us ->
  (forall u, is_Some (m !! u) -> u ∈ us) ->
  sum_counts (map (fun u => (u, default 0 (m !! u))) us) = per_user_total m.
Proof.
  revert m. induction us as [|u us IH]; intros m Hnd Hdom.
  - simpl. assert (Hm : m = ∅).
    { apply map_empty. intros k. destruct (m !! k) eqn:Hk; [|reflexivity].
      exfalso. specialize (Hdom k ltac:(eauto)). inversion Hdom. }
    subst m. unfold per_user_total. now rewrite map_fold_empty.
  - rewrite NoDup_cons in Hnd. destruct Hnd as [Hnotin Hnd].
    cbn [map sum_counts fold_right snd]. fold (sum_counts (map (fun u0 => (u0, default 0 (m !! u0))) us)).
    rewrite (per_user_total_delete u m). f_equal.
    rewrite <- (IH (delete u m) Hnd).
    + f_equal. apply map_ext_in. intros k Hk.
      rewrite lookup_delete_ne; [reflexivity|].
      intros ->. apply Hnotin. now apply list_elem_of_In.
    + intros k [v Hk]. destruct (decide (u = k)) as [->|Hne].
      * rewrite lookup_delete_eq in Hk. discriminate.
      * rewrite lookup_delete_ne in Hk by assumption.
        specialize (Hdom k ltac:(eauto)). apply elem_of_cons in Hdom.
        destruct Hdom as [->|Hin]; [contradiction | exact Hin].
Qed.

End WatchFacts.


(** * The loop, statement by statement *)

Module StepProofs.

Import PyStr Watch WatchObs WatchSteps WatchProofs WatchFacts.

(** ** Rules for [triple] *)

Section Rules.
Context {World : Type} `{Remote World}.

Lemma triple_ret {A : Type} (P : State World -> Prop) (a : A)
    (Q : A -> State World -> Prop) (E : Stop -> State World -> Prop) :
  (forall s, P s -> Q a s) -> triple P (sret a) Q E.
Proof. intros HQ fuel s HP. apply HQ, HP. Qed.

Lemma triple_bind {A B : Type} (P : State World -> Prop) (m : MS World A)
    (k : A -> MS World B) (R : A -> State World -> Prop)
    (Q : B -> State World -> Prop) (E : Stop -> State World -> Prop) :
  triple P m R E -> (forall a, triple (R a) (k a) Q E) -> triple P (sbind m k) Q E.
Proof.
  intros Hm Hk fuel s HP. unfold sbind.
  specialize (Hm fuel s HP). destruct (m fuel s) as [a s' fuel'|why s']; [|exact Hm].
  apply Hk, Hm.
Qed.

Lemma triple_get {B : Type} (P : State World -> Prop) (k : State World -> MS World B)
    (Q : B -> State World -> Prop) (E : Stop -> State World -> Prop) :
  (forall s0, P s0 -> triple (fun s => s = s0) (k s0) Q E) -> triple P (sbind sget k) Q E.
Proof. intros Hk fuel s HP. unfold sbind, sget. now apply (Hk s HP). Qed.

Lemma triple_stmt (line : nat) (f : State World -> State World)
    (P : State World -> Prop) (Q : unit -> State World -> Prop)
    (E : Stop -> State World -> Prop) :
  (forall s, P s -> E (ByKeyboardInterrupt line) s) ->
  (forall s, P s -> Q tt (f s)) ->
  triple P (stmt line f) Q E.
Proof. intros HE HQ [|fuel] s HP; simpl; auto. Qed.

Lemma triple_return (line : nat) (P : State World -> Prop)
    (Q : unit -> State World -> Prop) (E : Stop -> State World -> Prop) :
  (forall s, P s -> E (ByKeyboardInterrupt line) s) ->
  (forall s, P s -> E ByReturn s) ->
  triple P (stmt_return line) Q E.
Proof. intros HE HR [|fuel] s HP; simpl; auto. Qed.

Lemma triple_fetch (line : nat) (uid : string) (n : Z) (since : option string)
    (P : State World -> Prop) (Q : FetchResult -> State World -> Prop)
    (E : Stop -> State World -> Prop) :
  (forall s, P s -> E (ByKeyboardInterrupt line) s) ->
  (forall s r w, P s -> call_timeline uid n since (world s) = (Completes r, w) ->
     Q r (set_world w (add_events [Fetch uid n since] s))) ->
  (forall s exc w, P s -> call_timeline uid n since (world s) = (OtherError exc, w) ->
     E (ByException exc) (set_world w (add_events [Fetch uid n since] s))) ->
  triple P (stmt_fetch line uid n since) Q E.
Proof.
  intros HE HQ HX [|fuel] s HP; simpl; [auto|].
  destruct (call_timeline uid n since (world s)) as [[r|exc] w] eqn:Hcall; eauto.
Qed.

Lemma triple_for_each {A : Type} (I : State World -> Prop) (l : list A)
    (body : A -> MS World unit) (E : Stop -> State World -> Prop) :
  (forall x, triple I (body x) (fun _ => I) E) ->
  triple I (sfor_each l body) (fun _ => I) E.
Proof.
  intros Hbody. induction l as [|x l IH]; simpl.
  - now apply triple_ret.
  - eapply triple_bind; [apply Hbody|]. intros u. exact IH.
Qed.

Lemma triple_weaken {A : Type} (P P' : State World -> Prop) (m : MS World A)
    (Q Q' : A -> State World -> Prop) (E E' : Stop -> State World -> Prop) :
  triple P m Q E ->
  (forall s, P' s -> P s) ->
  (forall a s, Q a s -> Q' a s) ->
  (forall why s, E why s -> E' why s) ->
  triple P' m Q' E'.
Proof.
  intros Hm HP HQ HE fuel s Hs. specialize (Hm fuel s (HP s Hs)).
  destruct (m fuel s); auto.
Qed.

Lemma triple_assume {A : Type} (fact : Prop) (P : State World -> Prop) (m : MS World A)
    (Q : A -> State World -> Prop) (E : Stop -> State World -> Prop) :
  (forall s, P s -> fact) -> (fact -> triple P m Q E) -> triple P m Q E.
Proof. intros Hfact Hm fuel s HP. exact (Hm (Hfact s HP) fuel s HP). Qed.

Lemma triple_loop (cfg : Config) (I : State World -> Prop) (E : Stop -> State World -> Prop) :
  triple I (run_pass_steps cfg) (fun _ => I) E ->
  (forall s, I s -> E (ByKeyboardInterrupt 106) s) ->
  forall passes fuel s, I s ->
    E (fst (loop_steps cfg passes fuel s)) (snd (loop_steps cfg passes fuel s)).
Proof.
  intros Hpass H106. induction passes as [|passes IH]; intros fuel s Hs; simpl.
  - now apply H106.
  - specialize (Hpass fuel s Hs).
    destruct (run_pass_steps cfg fuel s) as [[] s' fuel'|why s']; simpl; auto.
Qed.
End Rules.

(** ** One statement later *)

Section OneMore.
Context {World : Type} `{Remote World}.
Variable rel : relation (State World).
Hypothesis rel_refl : Reflexive rel.

Lemma steady_ret {A : Type} (P : State World -> Prop) (a : A) : steady P rel (sret a).
Proof. intros fuel s _. reflexivity. Qed.

Lemma idle_ret {A : Type} (a : A) : idle (sret (World := World) a).
Proof. intros s. now split. Qed.

Lemma steady_stmt (line : nat) (f : State World -> State World) (P : State World -> Prop) :
  (forall s, P s -> rel s (f s)) -> steady P rel (stmt line f).
Proof. intros Hf [|fuel] s HP; cbn; [split; auto | reflexivity]. Qed.

Lemma idle_stmt (line : nat) (f : State World -> State World) : idle (stmt line f).
Proof. intros s. reflexivity. Qed.

Lemma steady_return (line : nat) (P : State World -> Prop) : steady P rel (stmt_return line).
Proof. intros [|fuel] s HP; cbn; [apply rel_refl | reflexivity]. Qed.

Lemma idle_return (line : nat) : idle (stmt_return (World := World) line).
Proof. intros s. reflexivity. Qed.

Lemma steady_fetch (line : nat) (uid : string) (n : Z) (since : option string)
    (P : State World -> Prop) :
  (forall s w, P s -> rel s (set_world w (add_events [Fetch uid n since] s))) ->
  steady P rel (stmt_fetch line uid n since).
Proof.
  intros Hf [|fuel] s HP; cbn;
    destruct (call_timeline uid n since (world s)) as [[r|exc] w]; cbn; auto.
Qed.

Lemma idle_fetch (line : nat) (uid : string) (n : Z) (since : option string) :
  idle (stmt_fetch line uid n since).
Proof. intros s. reflexivity. Qed.

Lemma steady_bind {A B : Type} (P : State World -> Prop) (m : MS World A)
    (k : A -> MS World B) (Q : A -> State World -> Prop) (E : Stop -> State World -> Prop) :
  triple P m Q E -> steady P rel m ->
  (forall a, steady (Q a) rel (k a)) -> (forall a, idle (k a)) ->
  steady P rel (sbind m k).
Proof.
  intros Ht Hm Hk Hidle fuel s HP. unfold sbind.
  specialize (Ht fuel s HP). specialize (Hm fuel s HP). unfold one_more in Hm.
  destruct (m fuel s) as [a s1 k1|[|line|exc] s1].
  - rewrite Hm. now apply Hk.
  - now rewrite Hm.
  - destruct (m (S fuel) s) as [a s2 k2|why s2]; [|exact Hm].
    destruct Hm as [-> Hrel]. specialize (Hidle a s2).
    destruct (k a 0%nat s2) as [b s3 k3|why s3].
    + destruct Hidle as [-> ->]. now split.
    + now subst s3.
  - now rewrite Hm.
Qed.

Lemma idle_bind {A B : Type} (m : MS World A) (k : A -> MS World B) :
  idle m -> (forall a, idle (k a)) -> idle (sbind m k).
Proof.
  intros Hm Hk s. unfold sbind. specialize (Hm s).
  destruct (m 0%nat s) as [a s1 k1|why s1]; [|exact Hm].
  destruct Hm as [-> ->]. apply Hk.
Qed.

Lemma steady_get {B : Type} (P : State World -> Prop) (k : State World -> MS World B) :
  (forall s0, P s0 -> steady (fun s => s = s0) rel (k s0)) -> steady P rel (sbind sget k).
Proof. intros Hk fuel s HP. unfold sbind, sget. now apply (Hk s HP). Qed.

Lemma idle_get {B : Type} (k : State World -> MS World B) :
  (forall s0, idle (k s0)) -> idle (sbind sget k).
Proof. intros Hk s. unfold sbind, sget. apply Hk. Qed.

Lemma idle_for_each {A : Type} (l : list A) (body : A -> MS World unit) :
  (forall x, idle (body x)) -> idle (sfor_each l body).
Proof.
  intros Hbody. induction l as [|x l IH]; cbn [sfor_each]; [apply idle_ret|].
  apply idle_bind; [apply Hbody|]. intros u. exact IH.
Qed.

Lemma steady_for_each {A : Type} (I : State World -> Prop) (l : list A)
    (body : A -> MS World unit) (E : Stop -> State World -> Prop) :
  (forall x, triple I (body x) (fun _ => I) E) ->
  (forall x, steady I rel (body x)) -> (forall x, idle (body x)) ->
  steady I rel (sfor_each l body).
Proof.
  intros Ht Hbody Hidle. induction l as [|x l IH]; cbn [sfor_each]; [apply steady_ret|].
  eapply steady_bind; [apply Ht|apply Hbody| |].
  - intros u. exact IH.
  - intros u. now apply idle_for_each.
Qed.

Lemma steady_weaken {A : Type} (P P' : State World -> Prop) (m : MS World A) :
  (forall s, P' s -> P s) -> steady P rel m -> steady P' rel m.
Proof. intros HP Hm fuel s Hs. apply Hm, HP, Hs. Qed.

Lemma steady_assume {A : Type} (fact : Prop) (P : State World -> Prop) (m : MS World A) :
  (forall s, P s -> fact) -> (fact -> steady P rel m) -> steady P rel m.
Proof. intros Hfact Hm fuel s HP. exact (Hm (Hfact s HP) fuel s HP). Qed.

(** a run that fell through falls through the same with more statements
    left *)
Lemma steady_done {A : Type} (P : State World -> Prop) (m : MS World A)
    (s : State World) (a : A) (s' : State World) (fuel k more : nat) :
  steady P rel m -> P s ->
  m fuel s = Done a s' k -> m (more + fuel)%nat s = Done a s' (more + k)%nat.
Proof.
  intros Hm HP Hrun. induction more as [|more IH]; [exact Hrun|].
  specialize (Hm (more + fuel)%nat s HP). rewrite IH in Hm. exact Hm.
Qed.

End OneMore.

(** ** Statements use up the time to Ctrl+C *)

Section Fuel.
Context {World : Type} `{Remote World}.
Variable cfg : Config.

Local Notation "'spends' n m" :=
  (forall fuel (s : State World) a s' k, m fuel s = Done a s' k -> (k + n <= fuel)%nat)
  (at level 10, n at level 9, m at level 9).

Lemma spends_bind {A B : Type} (n1 n2 : nat) (m : MS World A) (k : A -> MS World B) :
  spends n1 m -> (forall a, spends n2 (k a)) -> spends (n1 + n2) (sbind m k).
Proof.
  intros Hm Hk fuel s b s' left. unfold sbind.
  destruct (m fuel s) as [a s1 fuel1|why s1] eqn:Hrun; [|discriminate].
  intros Hrun'. specialize (Hm _ _ _ _ _ Hrun). specialize (Hk _ _ _ _ _ _ Hrun'). lia.
Qed.

Lemma spends_less {A : Type} (n n' : nat) (m : MS World A) :
  (n' <= n)%nat -> spends n m -> spends n' m.
Proof. intros Hle Hm fuel s a s' k Hrun. specialize (Hm _ _ _ _ _ Hrun). lia. Qed.

Lemma spends_stmt (line : nat) (f : State World -> State World) : spends 1 (stmt line f).
Proof. intros [|fuel] s a s' k; cbn; [discriminate|]. intros [= _ _ <-]. lia. Qed.

Lemma spends_for_each {A : Type} (l : list A) (body : A -> MS World unit) :
  (forall x, spends 0 (body x)) -> spends 0 (sfor_each l body).
Proof.
  intros Hbody. induction l as [|x l IH]; cbn [sfor_each].
  - intros fuel s a s' k [= _ _ <-]. lia.
  - apply (spends_bind 0 0); [apply Hbody|]. intros _. exact IH.
Qed.

Lemma spends_ret {A : Type} (a : A) : spends 0 (sret (World := World) a).
Proof. intros fuel s b s' k [= _ _ <-]. lia. Qed.

Lemma spends_get {B : Type} (n : nat) (k : State World -> MS World B) :
  (forall s0, spends n (k s0)) -> spends n (sbind sget k).
Proof. intros Hk fuel s b s' left. unfold sbind, sget. apply Hk. Qed.

Lemma spends_fetch (line : nat) (uid : string) (n : Z) (since : option string) :
  spends 1 (stmt_fetch line uid n since).
Proof.
  intros [|fuel] s a s' k; cbn; [discriminate|].
  destruct (call_timeline uid n since (world s)) as [[r|exc] w]; [|discriminate].
  intros [= _ _ <-]. lia.
Qed.

Lemma spends_process_tweet (name : string) (inc : Includes) (tw : Tweet) :
  spends 0 (process_tweet_steps cfg name inc tw).
Proof.
  unfold process_tweet_steps.
  destruct (negb (_matches_filters (display_text tw) (filters cfg))); [apply spends_ret|].
  apply (spends_bind 0 0); [eapply spends_less, spends_stmt; lia|]. intros _.
  apply (spends_bind 0 0).
  { destruct (notify cfg); [eapply spends_less, spends_stmt; lia|apply spends_ret]. }
  intros _. apply (spends_bind 0 0); [eapply spends_less, spends_stmt; lia|]. intros _.
  apply (spends_bind 0 0); [eapply spends_less, spends_stmt; lia|]. intros _.
  apply spends_get. intros s0.
  destruct (budget_reached (max_tweets cfg) (tweets_seen (stats s0))); [|apply spends_ret].
  apply (spends_bind 0 0); [eapply spends_less, spends_stmt; lia|]. intros _.
  apply (spends_bind 0 0); [eapply spends_less, spends_stmt; lia|]. intros _.
  intros [|fuel] s a s' k; discriminate.
Qed.

Lemma spends_poll_target (i : nat) : spends 0 (poll_target_steps cfg i).
Proof.
  unfold poll_target_steps. apply spends_get. intros s0.
  destruct (targets s0 !! i) as [target|]; [|apply spends_ret].
  apply (spends_bind 0 0); [eapply spends_less, spends_fetch; lia|].
  intros [d|reset_at|msg].
  - destruct (data d) as [|newest rest]; [apply spends_ret|].
    apply (spends_bind 0 0); [|intros _; eapply spends_less, spends_stmt; lia].
    apply spends_for_each. intros tw. apply spends_process_tweet.
  - apply spends_get. intros s1.
    apply (spends_bind 0 0); [|intros _]; eapply spends_less, spends_stmt; lia.
  - eapply spends_less, spends_stmt; lia.
Qed.

Lemma spends_run_pass : spends 2 (run_pass_steps cfg).
Proof.
  unfold run_pass_steps. apply spends_get. intros s0.
  apply (spends_bind 0 2); [apply spends_for_each, spends_poll_target|]. intros _.
  apply (spends_bind 1 1); [apply spends_stmt|]. intros _. apply spends_stmt.
Qed.

(** with more turns allowed than statements are left, the number of turns
    allowed does not matter *)
Lemma loop_steps_turns (turns fuel : nat) (s : State World) :
  (fuel < turns)%nat -> loop_steps cfg turns fuel s = loop_steps cfg (S fuel) fuel s.
Proof.
  revert turns s. induction fuel as [fuel IH] using lt_wf_ind. intros turns s Hlt.
  destruct turns as [|turns]; [lia|]. cbn [loop_steps].
  destruct (run_pass_steps cfg fuel s) as [[] s1 fuel1|why s1] eqn:Hpass; [|reflexivity].
  pose proof (spends_run_pass _ _ _ _ _ Hpass) as Hspent.
  rewrite (IH fuel1) by lia. symmetry. apply IH; lia.
Qed.

End Fuel.

(** ** A session between passes is a session of statements

    What [Watch.watch_loop] does with Ctrl+C after a number of whole passes,
    [watch_loop_steps] does with Ctrl+C at the first statement of the pass
    that follows. *)

Section Refinement.
Context {World : Type} `{Client World}.
Variable cfg : Config.

Lemma runs_as_for_each {A : Type} (body : A -> M unit) (sbody : A -> MS World unit)
    (l : list A) :
  (forall x s, exists c, runs_as (body x s) (sbody x) s c) ->
  forall s, exists c, runs_as (for_each l body s) (sfor_each l sbody) s c.
Proof.
  intros Hbody. induction l as [|x l IH]; intros s.
  - exists 0%nat. intros k. reflexivity.
  - destruct (Hbody x s) as [c1 H1]. cbn [for_each sfor_each]. unfold bind, sbind.
    destruct (body x s) as [[] s1|s1]; cbn [runs_as] in H1.
    + destruct (IH s1) as [c2 H2]. exists (c1 + c2)%nat.
      destruct (for_each l body s1) as [[] s2|s2]; cbn [runs_as] in *;
        intros k; rewrite <- Nat.add_assoc, H1; apply H2.
    + exists c1. intros k. now rewrite H1.
Qed.

Lemma process_tweet_runs (name : string) (inc : Includes) (tw : Tweet) (s : State World) :
  exists c, runs_as (process_tweet cfg name inc tw s) (process_tweet_steps cfg name inc tw) s c.
Proof.
  destruct (_matches_filters (display_text tw) (filters cfg)) eqn:Hm.
  2: { rewrite process_tweet_skip by assumption. exists 0%nat. intros k.
       unfold process_tweet_steps. now rewrite Hm. }
  rewrite process_tweet_match by assumption. cbv zeta.
  unfold process_tweet_steps, tweet_events. rewrite Hm. cbn [negb].
  destruct (notify cfg);
    destruct (budget_reached (max_tweets cfg) (tweets_seen (stats s) + 1)) eqn:Hb.
  - exists 7%nat. intros k. cbn. rewrite Hb. cbn.
    unfold print, set_stats, add_events, summary_line; cbn.
    rewrite <- ?List.app_assoc. reflexivity.
  - exists 4%nat. intros k. cbn. rewrite Hb. cbn.
    unfold print, set_stats, add_events, summary_line; cbn.
    rewrite <- ?List.app_assoc. reflexivity.
  - exists 6%nat. intros k. cbn. rewrite Hb. cbn.
    unfold print, set_stats, add_events, summary_line; cbn.
    rewrite <- ?List.app_assoc. reflexivity.
  - exists 3%nat. intros k. cbn. rewrite Hb. cbn.
    unfold print, set_stats, add_events, summary_line; cbn.
    rewrite <- ?List.app_assoc. reflexivity.
Qed.

Lemma poll_target_runs (i : nat) (s : State World) :
  exists c, runs_as (poll_target cfg i s) (poll_target_steps cfg i) s c.
Proof.
  rewrite poll_target_eq.
  destruct (targets s !! i) as [target|] eqn:Hi.
  2: { exists 0%nat. intros k. unfold poll_target_steps, sbind, sget. now rewrite Hi. }
  destruct (get_timeline (user_id target) 10 (last_seen_id target) (world s))
    as [r w] eqn:Hfetch. cbv zeta.
  set (s1 := set_world w (add_events [Fetch (user_id target) 10 (last_seen_id target)] s)).
  assert (Hstep : forall k,
    stmt_fetch 109 (user_id target) 10 (last_seen_id target) (S k) s = Done r s1 k).
  { intros k. cbn. now rewrite Hfetch. }
  assert (Hpoll : forall k,
    poll_target_steps cfg i (S k) s =
    match r with
    | RateLimitError reset_at =>
        let wait := rate_limit_wait reset_at (clock_time (world s1)) in
        sbind (stmt 120 (print (LogRateLimited wait))) (fun _ => stmt 121 (sleep wait)) k s1
    | RuntimeError msg => stmt 124 (print (LogError (username target) msg)) k s1
    | FetchOk d =>
        match data d with
        | [] => Done tt s1 k
        | newest :: _ =>
            sbind (sfor_each (rev (data d))
                     (process_tweet_steps cfg (username target) (includes d)))
                  (fun _ => stmt 162 (fun s => set_targets
                     (alter (set_last_seen (Some (tweet_id newest))) i (targets s)) s)) k s1
        end
    end).
  { intros k. unfold poll_target_steps. unfold sbind at 1 2. unfold sget at 1.
    rewrite Hi, Hstep. destruct r as [d|reset_at|msg]; [|reflexivity|reflexivity].
    destruct (data d); reflexivity. }
  destruct r as [d|reset_at|msg].
  - destruct (data d) as [|newest rest] eqn:Hdata.
    { exists 1%nat. intros k. cbn [Nat.add]. now rewrite Hpoll. }
    destruct (runs_as_for_each (process_tweet cfg (username target) (includes d))
                (process_tweet_steps cfg (username target) (includes d))
                (rev (newest :: rest))
                (process_tweet_runs (username target) (includes d)) s1)
      as [c Hc].
    destruct (for_each _ _ _) as [[] s2|s2]; cbn [runs_as] in Hc.
    + exists (S (c + 1))%nat. intros k. cbn [Nat.add]. rewrite Hpoll.
      unfold sbind. rewrite <- Nat.add_assoc, Hc. reflexivity.
    + exists (S c). intros k. cbn [Nat.add]. rewrite Hpoll.
      unfold sbind. now rewrite Hc.
  - exists 3%nat. intros k. cbn [Nat.add]. rewrite Hpoll. cbn.
    unfold sleep, print, set_world, add_events. cbn. rewrite <- ?List.app_assoc. reflexivity.
  - exists 2%nat. intros k. cbn [Nat.add]. rewrite Hpoll. reflexivity.
Qed.

(** a whole turn of the loop: the pass, the count and the sleep *)
Lemma run_pass_runs (s : State World) :
  exists c,
    match run_pass cfg s with
    | Normal _ s1 =>
        forall k, run_pass_steps cfg (c + 2 + k)%nat s
                  = Done tt (set_world (time_sleep (interval cfg) (world s1))
                               (add_events [Sleep (interval cfg)]
                                  (set_stats (count_poll (stats s1)) s1))) k
    | Returned s1 => forall k, run_pass_steps cfg (c + k)%nat s = Stopped ByReturn s1
    end.
Proof.
  unfold run_pass, run_pass_steps, bind, get_state, sbind, sget.
  destruct (runs_as_for_each (poll_target cfg) (poll_target_steps cfg)
              (seq 0 (length (targets s))) poll_target_runs s) as [c Hc].
  exists c. destruct (for_each _ _ s) as [[] s1|s1]; cbn [runs_as] in Hc; intros k.
  - rewrite <- Nat.add_assoc, Hc. reflexivity.
  - now rewrite Hc.
Qed.

Lemma run_pass_steps_interrupted (s : State World) :
  exists line, run_pass_steps cfg 0%nat s = Stopped (ByKeyboardInterrupt line) s.
Proof.
  unfold run_pass_steps, sbind, sget.
  destruct (targets s) as [|t ts] eqn:Hts.
  - exists 164%nat. reflexivity.
  - exists 109%nat. cbn. unfold poll_target_steps, sbind, sget. rewrite Hts. reflexivity.
Qed.

Lemma polling_runs (passes : nat) (s : State World) :
  exists c why s',
    (passes <= c)%nat /\
    (forall turns, (passes < turns)%nat -> loop_steps cfg turns c s = (why, s')) /\
    polling cfg passes s =
      match why with
      | ByReturn => (BudgetReached, s')
      | _ => (Interrupted, print (summary_line s') s')
      end /\
    (forall exc, why <> ByException exc).
Proof.
  revert s. induction passes as [|passes IH]; intros s.
  - destruct (run_pass_steps_interrupted s) as [line Hline].
    exists 0%nat, (ByKeyboardInterrupt line), s. split; [lia|]. split; [|split; [|discriminate]].
    + intros [|turns] Hturns; [lia|]. cbn [loop_steps]. now rewrite Hline.
    + reflexivity.
  - rewrite polling_S. destruct (run_pass_runs s) as [c1 H1].
    destruct (run_pass cfg s) as [[] s1|s1].
    + destruct (IH (set_world (time_sleep (interval cfg) (world s1))
                      (add_events [Sleep (interval cfg)]
                         (set_stats (count_poll (stats s1)) s1))))
        as (c2 & why & s' & Hle & Hloop & Hpoll & Hwhy).
      exists (c1 + 2 + c2)%nat, why, s'. split; [lia|]. split; [|split; assumption].
      intros [|turns] Hturns; [lia|]. cbn [loop_steps]. rewrite H1.
      apply Hloop. lia.
    + exists (S (c1 + passes)), ByReturn, s1. split; [lia|]. split; [|split; [|discriminate]].
      * intros [|turns] Hturns; [lia|]. cbn [loop_steps].
        replace (S (c1 + passes)) with (c1 + S passes)%nat by lia. now rewrite H1.
      * reflexivity.
Qed.

Lemma seed_runs (i : nat) (s : State World) :
  exists c, runs_as (_seed_last_seen i s) (seed_steps i) s c.
Proof.
  assert (Hseed : forall k, seed_steps i k s =
    match targets s !! i with
    | None => Done tt s k
    | Some target =>
        sbind (stmt_fetch 62 (user_id target) 5 None)
          (fun r => sbind
             match r with
             | FetchOk {| data := newest :: _ |} =>
                 stmt 65 (fun s => set_targets
                            (alter (set_last_seen (Some (tweet_id newest))) i (targets s)) s)
             | _ => sret tt
             end
             (fun _ => stmt 97 (print (LogTracking (username target) (user_id target)))))
          k s
    end).
  { intros k. unfold seed_steps. unfold sbind at 1. unfold sget at 1.
    destruct (targets s !! i); reflexivity. }
  unfold _seed_last_seen. unfold_m.
  destruct (targets s !! i) as [target|].
  2: { exists 0%nat. intros k. now rewrite Hseed. }
  cbn -[seed_steps].
  destruct (get_timeline (user_id target) 5 None (world s)) as [r w] eqn:Hfetch.
  destruct r as [[[|newest rest] inc]|reset_at|msg]; cbn -[seed_steps].
  2: exists 3%nat. 1, 3, 4: exists 2%nat.
  all: intros k; rewrite Hseed; unfold sbind; cbn; rewrite Hfetch; cbn;
    unfold print, set_world, set_targets, add_events; cbn;
    rewrite <- ?List.app_assoc; reflexivity.
Qed.

Lemma initialize_runs (s : State World) :
  exists c s', initialize cfg s = Normal tt s' /\
               forall k, initialize_steps cfg (c + k)%nat s = Done tt s' k.
Proof.
  unfold initialize, initialize_steps.
  unfold bind at 1. unfold emit at 1. unfold bind at 1. unfold get_state at 1.
  unfold bind at 1.
  set (s0 := add_events [Stderr LogInitializing] s).
  destruct (runs_as_for_each _seed_last_seen seed_steps (seq 0 (length (targets s0)))
              seed_runs s0) as [c Hc].
  pose proof (for_each_evolves cfg _seed_last_seen (seq 0 (length (targets s0))) s0
                (seed_evolves cfg)) as (_ & Hnames & _).
  pose proof (for_each_ind (fun _ : State World => True) (fun _ => False)
                _seed_last_seen (seq 0 (length (targets s0)))) as Hnormal.
  specialize (Hnormal ltac:(
    intros i s1 _ _; destruct (seed_last_seen_normal i s1) as (s2 & -> & _); exact I) s0 I).
  destruct (for_each _ _ s0) as [[] s1|s1]; [|contradiction].
  cbn [result_state runs_as] in *. rewrite <- Hnames. unfold_m.
  destruct (filters cfg) as [|kw kws]; cbn [bind].
  - exists (S (c + 2)), (add_events [Stderr LogBlank]
      (add_events [Stderr (LogWatching (map username (targets s1)) (interval cfg))] s1)).
    split; [reflexivity|]. intros k. unfold sbind, sget. cbn [Nat.add stmt].
    fold s0. rewrite <- Nat.add_assoc, Hc. reflexivity.
  - exists (S (c + 3)), (add_events [Stderr LogBlank]
      (add_events [Stderr (LogFilters (kw :: kws))]
         (add_events [Stderr (LogWatching (map username (targets s1)) (interval cfg))] s1))).
    split; [reflexivity|]. intros k. unfold sbind, sget. cbn [Nat.add stmt].
    fold s0. rewrite <- Nat.add_assoc, Hc. reflexivity.
Qed.

End Refinement.

(** Whatever [Watch.watch_loop] does when Ctrl+C arrives after [passes]
    passes, [watch_loop_steps] does for some number of statements: it ends
    the same way and in the same state. *)
Lemma watch_loop_is_watch_loop_steps {World : Type} `{Client World} (cfg : Config)
    (ts : list WatchTarget) (w : World) (passes : nat) :
  exists fuel ending,
    watch_loop_steps cfg ts w fuel = (ending, snd (watch_loop cfg ts w passes)) /\
    match fst (watch_loop cfg ts w passes) with
    | BudgetReached => ending = EndBudget
    | Interrupted => exists line, ending = EndInterrupted line
    end.
Proof.
  unfold watch_loop, watch_loop_steps.
  destruct (initialize_runs cfg (initial_state ts w)) as (c1 & s1 & -> & Hinit).
  destruct (polling_runs cfg passes s1) as (c2 & why & s2 & Hle & Hloop & Hpoll & Hwhy).
  exists (c1 + c2)%nat. rewrite Hinit. unfold try_loop.
  rewrite (Hloop (S c2)) by lia. rewrite Hpoll.
  destruct why as [|line|exc].
  - exists EndBudget. split; reflexivity.
  - exists (EndInterrupted line). split; [reflexivity|]. now exists line.
  - now destruct (Hwhy exc).
Qed.

(** ** The statistics *)

Lemma count_tweet_lines (u : string) (st : WatchStats) :
  count_tweet u st = line_154 u (line_153 st).
Proof. reflexivity. Qed.

Lemma stats_between_153 (st : WatchStats) : stats_ok st -> stats_between (line_153 st).
Proof.
  intros (Hsum & Hseen & Hpolls & Hpos). unfold stats_between, line_153; simpl.
  repeat split; [lia|lia|lia|exact Hpos].
Qed.

Lemma stats_ok_154 (u : string) (st : WatchStats) :
  stats_between st -> stats_ok (line_154 u st).
Proof.
  intros (Hsum & Hseen & Hpolls & Hpos). unfold stats_ok, line_154; simpl.
  rewrite per_user_total_count. repeat split; [lia|lia|lia|].
  intros v n. destruct (decide (u = v)) as [->|Hne].
  - rewrite lookup_insert_eq. intros [= <-].
    destruct (per_user st !! v) as [k|] eqn:Hk; simpl; [|lia].
    specialize (Hpos v k Hk). lia.
  - rewrite lookup_insert_ne by exact Hne. apply Hpos.
Qed.

Lemma stats_between_not_ok (st : WatchStats) : stats_between st -> ~ stats_ok st.
Proof. intros (Hsum & _) (Hsum' & _). lia. Qed.

Section Statistics.
Context {World : Type} `{Remote World}.
Variable cfg : Config.

Local Notation "'Ok'" := (fun s : State World => stats_ok (stats s)).
Local Notation "'When'" :=
  (fun (why : Stop) (s : State World) => stats_when why (stats s)).

Lemma process_tweet_steps_stats (name : string) (inc : Includes) (tw : Tweet) :
  triple Ok (process_tweet_steps cfg name inc tw) (fun _ => Ok) When.
Proof.
  unfold process_tweet_steps.
  destruct (negb (_matches_filters (display_text tw) (filters cfg))).
  { now apply triple_ret. }
  eapply triple_bind with (R := fun _ => Ok).
  { apply triple_stmt; auto. }
  intros _. eapply triple_bind with (R := fun _ => Ok).
  { destruct (notify cfg); [apply triple_stmt|apply triple_ret]; auto. }
  intros _. eapply triple_bind with (R := fun _ s => stats_between (stats s)).
  { apply triple_stmt; [auto|]. intros s Hs. apply stats_between_153, Hs. }
  intros _. eapply triple_bind with (R := fun _ => Ok).
  { apply triple_stmt; [auto|]. intros s Hs. apply stats_ok_154, Hs. }
  intros _. apply triple_get. intros s0 Hs0.
  destruct (budget_reached (max_tweets cfg) (tweets_seen (stats s0))).
  - eapply triple_bind with (R := fun _ => Ok).
    { apply triple_stmt; intros s ->; exact Hs0. }
    intros _. eapply triple_bind with (R := fun _ => Ok).
    { apply triple_stmt; auto. }
    intros _. apply triple_return; auto.
  - apply triple_ret. now intros s ->.
Qed.

Lemma poll_target_steps_stats (i : nat) :
  triple Ok (poll_target_steps cfg i) (fun _ => Ok) When.
Proof.
  unfold poll_target_steps. apply triple_get. intros s0 Hs0.
  destruct (targets s0 !! i) as [target|]; [|apply triple_ret; now intros s ->].
  eapply triple_bind with (R := fun _ => Ok).
  { apply triple_fetch; intros s; intros; subst s; exact Hs0. }
  intros [d|reset_at|msg].
  - destruct (data d) as [|newest rest]; [now apply triple_ret|].
    eapply triple_bind with (R := fun _ => Ok).
    { apply triple_for_each. intros tw. apply process_tweet_steps_stats. }
    intros _. apply triple_stmt; auto.
  - apply triple_get. intros s1 Hs1.
    eapply triple_bind with (R := fun _ => Ok).
    { apply triple_stmt; intros s ->; exact Hs1. }
    intros _. apply triple_stmt; auto.
  - apply triple_stmt; auto.
Qed.

Lemma run_pass_steps_stats : triple Ok (run_pass_steps cfg) (fun _ => Ok) When.
Proof.
  unfold run_pass_steps. apply triple_get. intros s0 Hs0.
  eapply triple_bind with (R := fun _ => Ok).
  { eapply triple_weaken; [apply triple_for_each, poll_target_steps_stats| |auto|auto].
    now intros s ->. }
  intros _. eapply triple_bind with (R := fun _ => Ok).
  { apply triple_stmt; [auto|]. intros s Hs. apply stats_ok_count_poll, Hs. }
  intros _. apply triple_stmt; auto.
Qed.

Lemma seed_steps_keeps_stats (st : WatchStats) (i : nat) :
  triple (fun s => stats s = st) (seed_steps i) (fun _ s => stats s = st)
         (fun _ s => stats s = st).
Proof.
  unfold seed_steps. apply triple_get. intros s0 Hs0.
  destruct (targets s0 !! i) as [target|]; [|apply triple_ret; now intros s ->].
  eapply triple_bind with (R := fun _ s => stats s = st).
  { apply triple_fetch; intros s; intros; subst s; exact Hs0. }
  intros r. eapply triple_bind with (R := fun _ s => stats s = st).
  { destruct r as [[[|newest rest] inc]|reset_at|msg];
      first [apply triple_stmt | apply triple_ret]; auto. }
  intros _. apply triple_stmt; auto.
Qed.

Lemma initialize_steps_keeps_stats (st : WatchStats) :
  triple (fun s => stats s = st) (initialize_steps cfg) (fun _ s => stats s = st)
         (fun _ s => stats s = st).
Proof.
  unfold initialize_steps.
  eapply triple_bind with (R := fun _ s => stats s = st).
  { apply triple_stmt; auto. }
  intros _. apply triple_get. intros s0 Hs0.
  eapply triple_bind with (R := fun _ s => stats s = st).
  { eapply triple_weaken; [apply triple_for_each, (seed_steps_keeps_stats st)| |auto|auto].
    now intros s ->. }
  intros _. apply triple_get. intros s1 Hs1.
  eapply triple_bind with (R := fun _ s => stats s = st).
  { apply triple_stmt; intros s ->; exact Hs1. }
  intros _. eapply triple_bind with (R := fun _ s => stats s = st).
  { destruct (filters cfg) as [|kw kws]; [apply triple_ret|apply triple_stmt]; auto. }
  intros _. apply triple_stmt; auto.
Qed.

Lemma try_loop_stats (fuel : nat) (s : State World) :
  stats_ok (stats s) ->
  match try_loop cfg fuel s with
  | (EndInterrupted line, s') =>
      last (trace s') = Some (Stderr (summary_line s')) /\
      if (line =? 154)%nat then stats_between (stats s') else stats_ok (stats s')
  | (_, s') => stats_ok (stats s')
  end.
Proof.
  intros Hs. unfold try_loop.
  pose proof (triple_loop cfg Ok When run_pass_steps_stats (fun s Hs => Hs) (S fuel) fuel s Hs)
    as Hloop.
  destruct (loop_steps cfg (S fuel) fuel s) as [[|line|exc] s']; [exact Hloop| |exact Hloop].
  split; [apply last_snoc | exact Hloop].
Qed.

End Statistics.

(** The statistics between the two updates.  One target, one new tweet,
    and Ctrl+C when line 154 is next: the handler prints a summary with
    [Tweets seen: 1] and no tweet for the only target, and the total is not
    the sum of the counters. *)
Lemma total_is_ahead_between_the_two_updates :
  let w := {| tape_clock := 0;
              tape := [Completes (sample_timeline []);
                       Completes (sample_timeline [sample_tweet "5" "x"])] |} in
  let end_ := watch_loop_steps sample_config [sample_target "A" "1" None] w 8 in
  fst end_ = EndInterrupted 154 /\
  tweets_seen (stats (snd end_)) = 1 /\
  per_user_total (per_user (stats (snd end_))) = 0 /\
  last (trace (snd end_)) = Some (Stderr (LogSummary 0 1 [("A", 0)])) /\
  ~ stats_ok (stats (snd end_)).
Proof.
  cbv zeta. repeat split; try reflexivity.
  intros [Hsum _]. vm_compute in Hsum. discriminate Hsum.
Qed.

(** C9 (as the code has it).  The statistics start as [WatchStats()] with
    the total equal to the sum of the per-user counters and no counter
    negative; line 153 puts the total one ahead of the sum and line 154
    makes them equal again, line 164 keeps them equal, and initialization
    and the summary leave the statistics as they are.  So, wherever a
    session is left, the total is the sum of the per-user counters and no
    counter is negative, except when Ctrl+C arrives with line 154 next: then
    the total is the sum plus one, still no counter is negative, and the
    summary the handler prints is the summary of these statistics. *)
Theorem stats_total_is_sum_except_between_the_two_updates :
  forall (World : Type) (R : Remote World) (cfg : Config),
    stats_ok new_stats /\
    (forall u st, stats_ok st ->
       stats_between (line_153 st) /\ ~ stats_ok (line_153 st) /\
       stats_ok (line_154 u (line_153 st))) /\
    (forall st, stats_ok st -> stats_ok (count_poll st)) /\
    (forall ts w fuel,
       match initialize_steps cfg fuel (initial_state ts w) with
       | Done _ s _ | Stopped _ s => stats s = new_stats
       end) /\
    (forall s : State World, stats (print (summary_line s) s) = stats s) /\
    (forall ts w fuel,
       match watch_loop_steps cfg ts w fuel with
       | (EndInterrupted line, s) =>
           last (trace s) = Some (Stderr (summary_line s)) /\
           if (line =? 154)%nat then stats_between (stats s) else stats_ok (stats s)
       | (_, s) => stats_ok (stats s)
       end).
Proof.
  intros World R cfg. split; [exact stats_ok_new|]. split.
  { intros u st Hst. pose proof (stats_between_153 st Hst) as Hmid.
    split; [exact Hmid|]. split; [now apply stats_between_not_ok|now apply stats_ok_154]. }
  split; [exact stats_ok_count_poll|].
  assert (Hinit : forall ts w fuel,
             match initialize_steps cfg fuel (initial_state ts w) with
             | Done _ s _ | Stopped _ s => stats s = new_stats
             end).
  { intros ts w fuel.
    pose proof (initialize_steps_keeps_stats cfg new_stats fuel (initial_state ts w) eq_refl)
      as Hi.
    destruct (initialize_steps cfg fuel (initial_state ts w)); exact Hi. }
  split; [exact Hinit|]. split; [reflexivity|].
  intros ts w fuel. unfold watch_loop_steps. specialize (Hinit ts w fuel).
  destruct (initialize_steps cfg fuel (initial_state ts w)) as [[] s fuel'|[|line|exc] s].
  - apply try_loop_stats. rewrite Hinit. exact stats_ok_new.
  - rewrite Hinit. exact stats_ok_new.
  - rewrite Hinit. exact stats_ok_new.
  - rewrite Hinit. exact stats_ok_new.
Qed.

Lemma stats_total_is_sum_except_between_the_two_updates_witness :
  stats_between (line_153 new_stats) /\
  stats_ok (line_154 "A" (line_153 new_stats)) /\
  stats_ok (count_poll new_stats).
Proof.
  pose proof (stats_total_is_sum_except_between_the_two_updates Replay
                (remote_of_client) sample_config)
    as (Hnew & Hlines & Hpoll & _).
  destruct (Hlines "A"%string new_stats Hnew) as (Hmid & _ & Hok).
  exact (conj Hmid (conj Hok (Hpoll new_stats Hnew))).
Defined.

(** ** The summary *)

Lemma summary_counts_total {World : Type} (names : list string) (s : State World) :
  NoDup names -> counted_among names s ->
  sum_counts (summary_counts s) = per_user_total (per_user (stats s)).
Proof.
  intros Hnd [Hnames Hc]. subst names.
  rewrite <- (sum_over_usernames (map username (targets s)) _ Hnd Hc).
  unfold summary_counts. now rewrite map_map.
Qed.

Lemma no_summary_add {World : Type} (evs : list Event) (s : State World) :
  forallb (fun e => negb (is_summary e)) evs = true ->
  no_summary s -> no_summary (add_events evs s).
Proof.
  intros Hevs Hs. unfold no_summary in *. cbn [add_events trace].
  rewrite forallb_app, Hs, Hevs. reflexivity.
Qed.

Section Summary.
Context {World : Type} `{Remote World}.
Variable cfg : Config.
Variable names : list string.

(** between two tweets *)
Local Notation "'Quiet'" :=
  (fun s : State World => counted_among names s /\ stats_ok (stats s) /\ no_summary s).

(** where the loop stops *)
Local Notation "'Stops'" :=
  (fun (why : Stop) (s : State World) =>
     counted_among names s /\
     match why with
     | ByKeyboardInterrupt _ => stats_when why (stats s)
     | ByReturn => stats_ok (stats s) /\ last (trace s) = Some (Stderr (summary_line s))
     | ByException _ => no_summary s
     end).

Lemma process_tweet_steps_summary (name : string) (inc : Includes) (tw : Tweet) :
  name ∈ names ->
  triple Quiet (process_tweet_steps cfg name inc tw) (fun _ => Quiet) Stops.
Proof.
  intros Hname. unfold process_tweet_steps.
  destruct (negb (_matches_filters (display_text tw) (filters cfg))).
  { now apply triple_ret. }
  eapply triple_bind with (R := fun _ => Quiet).
  { apply triple_stmt; intros s (Hc & Hok & Hno); [exact (conj Hc Hok)|].
    split; [exact Hc|]. split; [exact Hok|]. now apply no_summary_add. }
  intros _. eapply triple_bind with (R := fun _ => Quiet).
  { destruct (notify cfg); [apply triple_stmt|apply triple_ret; auto];
      intros s (Hc & Hok & Hno); [exact (conj Hc Hok)|].
    split; [exact Hc|]. split; [exact Hok|]. now apply no_summary_add. }
  intros _. eapply triple_bind
    with (R := fun _ s => counted_among names s /\ stats_between (stats s) /\ no_summary s).
  { apply triple_stmt; intros s (Hc & Hok & Hno); [exact (conj Hc Hok)|].
    split; [exact Hc|]. split; [now apply stats_between_153 | exact Hno]. }
  intros _. eapply triple_bind with (R := fun _ => Quiet).
  { apply triple_stmt; intros s (Hc & Hmid & Hno); [exact (conj Hc Hmid)|].
    split; [|split; [now apply stats_ok_154 | exact Hno]].
    split; [apply Hc|]. intros u. cbn [set_stats stats line_154 per_user].
    destruct (decide (name = u)) as [<-|Hne]; [auto|].
    rewrite lookup_insert_ne by exact Hne. apply Hc. }
  intros _. apply triple_get. intros s0 (Hc & Hok & Hno).
  destruct (budget_reached (max_tweets cfg) (tweets_seen (stats s0))).
  - eapply triple_bind with (R := fun _ => Quiet).
    { apply triple_stmt; intros s ->; [exact (conj Hc Hok)|].
      split; [exact Hc|]. split; [exact Hok|]. now apply no_summary_add. }
    intros _. eapply triple_bind
      with (R := fun _ s => counted_among names s /\ stats_ok (stats s) /\
                            last (trace s) = Some (Stderr (summary_line s))).
    { apply triple_stmt; intros s (Hc1 & Hok1 & Hno1); [exact (conj Hc1 Hok1)|].
      split; [exact Hc1|]. split; [exact Hok1|]. apply last_snoc. }
    intros _. apply triple_return; intros s (Hc1 & Hok1 & Hlast).
    + exact (conj Hc1 Hok1).
    + exact (conj Hc1 (conj Hok1 Hlast)).
  - apply triple_ret. now intros s ->.
Qed.

Lemma poll_target_steps_summary (i : nat) :
  triple Quiet (poll_target_steps cfg i) (fun _ => Quiet) Stops.
Proof.
  unfold poll_target_steps. apply triple_get. intros s0 (Hc & Hok & Hno).
  destruct (targets s0 !! i) as [target|] eqn:Hi; [|apply triple_ret; now intros s ->].
  assert (Hname : username target ∈ names).
  { destruct Hc as [<- _]. apply list_elem_of_fmap. exists target. split; [reflexivity|].
    eapply list_elem_of_lookup_2, Hi. }
  eapply triple_bind with (R := fun _ => Quiet).
  { apply triple_fetch.
    - intros s ->. exact (conj Hc Hok).
    - intros s r w -> _. split; [exact Hc|]. split; [exact Hok|]. now apply no_summary_add.
    - intros s exc w -> _. split; [exact Hc|]. now apply no_summary_add. }
  intros [d|reset_at|msg].
  - destruct (data d) as [|newest rest]; [now apply triple_ret|].
    eapply triple_bind with (R := fun _ => Quiet).
    { apply triple_for_each. intros tw. now apply process_tweet_steps_summary. }
    intros _. apply triple_stmt; intros s (Hc1 & Hok1 & Hno1); [exact (conj Hc1 Hok1)|].
    split; [|exact (conj Hok1 Hno1)].
    destruct Hc1 as [Hn1 Hc1]. split; [|exact Hc1].
    cbn [set_targets targets]. now rewrite map_alter_set_last_seen.
  - apply triple_get. intros s1 (Hc1 & Hok1 & Hno1).
    eapply triple_bind with (R := fun _ => Quiet).
    { apply triple_stmt; intros s ->; [exact (conj Hc1 Hok1)|].
      split; [exact Hc1|]. split; [exact Hok1|]. now apply no_summary_add. }
    intros _. apply triple_stmt; intros s (Hc2 & Hok2 & Hno2); [exact (conj Hc2 Hok2)|].
    split; [exact Hc2|]. split; [exact Hok2|]. now apply no_summary_add.
  - apply triple_stmt; intros s (Hc1 & Hok1 & Hno1); [exact (conj Hc1 Hok1)|].
    split; [exact Hc1|]. split; [exact Hok1|]. now apply no_summary_add.
Qed.

Lemma run_pass_steps_summary : triple Quiet (run_pass_steps cfg) (fun _ => Quiet) Stops.
Proof.
  unfold run_pass_steps. apply triple_get. intros s0 Hs0.
  eapply triple_bind with (R := fun _ => Quiet).
  { eapply triple_weaken; [apply triple_for_each, poll_target_steps_summary| |auto|auto].
    now intros s ->. }
  intros _. eapply triple_bind with (R := fun _ => Quiet).
  { apply triple_stmt; intros s (Hc & Hok & Hno); [exact (conj Hc Hok)|].
    split; [exact Hc|]. split; [now apply stats_ok_count_poll | exact Hno]. }
  intros _. apply triple_stmt; intros s (Hc & Hok & Hno); [exact (conj Hc Hok)|].
  split; [exact Hc|]. split; [exact Hok|]. now apply no_summary_add.
Qed.

Lemma seed_steps_summary (i : nat) :
  triple Quiet (seed_steps i) (fun _ => Quiet) (fun why s => why <> ByReturn /\ no_summary s).
Proof.
  unfold seed_steps. apply triple_get. intros s0 (Hc & Hok & Hno).
  destruct (targets s0 !! i) as [target|] eqn:Hi; [|apply triple_ret; now intros s ->].
  eapply triple_bind with (R := fun _ => Quiet).
  { apply triple_fetch.
    - intros s ->. now split.
    - intros s r w -> _. split; [exact Hc|]. split; [exact Hok|]. now apply no_summary_add.
    - intros s exc w -> _. split; [discriminate|]. now apply no_summary_add. }
  intros r. eapply triple_bind with (R := fun _ => Quiet).
  { destruct r as [[[|newest rest] inc]|reset_at|msg];
      first [apply triple_stmt | apply triple_ret; auto];
      intros s (Hc1 & Hok1 & Hno1); [now split|].
    split; [|exact (conj Hok1 Hno1)].
    destruct Hc1 as [Hn1 Hc1]. split; [|exact Hc1].
    cbn [set_targets targets]. now rewrite map_alter_set_last_seen. }
  intros _. apply triple_stmt; intros s (Hc1 & Hok1 & Hno1); [now split|].
  split; [exact Hc1|]. split; [exact Hok1|]. now apply no_summary_add.
Qed.

Lemma initialize_steps_summary :
  triple Quiet (initialize_steps cfg) (fun _ => Quiet)
         (fun why s => why <> ByReturn /\ no_summary s).
Proof.
  unfold initialize_steps.
  eapply triple_bind with (R := fun _ => Quiet).
  { apply triple_stmt; intros s (Hc & Hok & Hno); [now split|].
    split; [exact Hc|]. split; [exact Hok|]. now apply no_summary_add. }
  intros _. apply triple_get. intros s0 Hs0.
  eapply triple_bind with (R := fun _ => Quiet).
  { eapply triple_weaken; [apply triple_for_each, seed_steps_summary| |auto|auto].
    now intros s ->. }
  intros _. apply triple_get. intros s1 (Hc1 & Hok1 & Hno1).
  eapply triple_bind with (R := fun _ => Quiet).
  { apply triple_stmt; intros s ->; [now split|].
    split; [exact Hc1|]. split; [exact Hok1|]. now apply no_summary_add. }
  intros _. eapply triple_bind with (R := fun _ => Quiet).
  { destruct (filters cfg) as [|kw kws]; [apply triple_ret; auto|apply triple_stmt];
      intros s (Hc & Hok & Hno); [now split|].
    split; [exact Hc|]. split; [exact Hok|]. now apply no_summary_add. }
  intros _. apply triple_stmt; intros s (Hc & Hok & Hno); [now split|].
  split; [exact Hc|]. split; [exact Hok|]. now apply no_summary_add.
Qed.

End Summary.




(** ** A negative budget *)

Lemma rendered_count_add {World : Type} (evs : list Event) (s : State World) :
  rendered_count (add_events evs s) = rendered_count s + Z.of_nat (length (rendered evs)).
Proof.
  unfold rendered_count. cbn [add_events trace].
  rewrite rendered_app, length_app. lia.
Qed.

Lemma rendered_count_print {World : Type} (l : LogLine) (s : State World) :
  rendered_count (print l s) = rendered_count s.
Proof. unfold print. rewrite rendered_count_add. cbn. lia. Qed.

Section NegativeBudget.
Context {World : Type} `{Remote World}.
Variable cfg : Config.
Variable N : Z.
Hypothesis N_negative : N < 0.
Hypothesis budget_is_N : max_tweets cfg = Some N.

Local Notation "'Rendered' n" :=
  (fun s : State World => rendered_count s = n /\ 0 <= tweets_seen (stats s))
  (at level 10, n at level 9).

Local Notation "'Stops'" :=
  (fun (why : Stop) (s : State World) =>
     rendered_count s = match why with
                        | ByKeyboardInterrupt line => if after_rendering line then 1 else 0
                        | ByReturn => 1
                        | ByException _ => 0
                        end).

Lemma budget_reached_negative (seen : Z) :
  0 <= seen -> budget_reached (max_tweets cfg) seen = true.
Proof.
  intros Hseen. rewrite budget_is_N. unfold budget_reached.
  destruct (Z.eqb_spec N 0) as [|_]; [lia|].
  destruct (Z.leb_spec N seen) as [_|Hlt]; [reflexivity|lia].
Qed.

Lemma process_tweet_steps_negative (name : string) (inc : Includes) (tw : Tweet) :
  triple (Rendered 0) (process_tweet_steps cfg name inc tw) (fun _ => Rendered 0) Stops.
Proof.
  unfold process_tweet_steps.
  destruct (negb (_matches_filters (display_text tw) (filters cfg))).
  { now apply triple_ret. }
  eapply triple_bind with (R := fun _ => Rendered 1).
  { apply triple_stmt; intros s [Hr Hs]; [exact Hr|].
    split; [|exact Hs]. rewrite rendered_count_add, Hr. reflexivity. }
  intros _. eapply triple_bind with (R := fun _ => Rendered 1).
  { destruct (notify cfg); [apply triple_stmt|apply triple_ret; auto];
      intros s [Hr Hs]; [exact Hr|].
    split; [|exact Hs]. rewrite rendered_count_add, Hr. reflexivity. }
  intros _. eapply triple_bind with (R := fun _ => Rendered 1).
  { apply triple_stmt; intros s [Hr Hs]; [exact Hr|].
    split; [exact Hr|]. cbn [set_stats stats line_153 tweets_seen]. lia. }
  intros _. eapply triple_bind with (R := fun _ => Rendered 1).
  { apply triple_stmt; intros s [Hr Hs]; [exact Hr|]. now split. }
  intros _. apply triple_get. intros s0 [Hr0 Hs0].
  rewrite (budget_reached_negative _ Hs0).
  eapply triple_bind with (R := fun _ => Rendered 1).
  { apply triple_stmt; intros s ->; [exact Hr0|].
    split; [|exact Hs0]. now rewrite rendered_count_print. }
  intros _. eapply triple_bind with (R := fun _ => Rendered 1).
  { apply triple_stmt; intros s [Hr Hs]; [exact Hr|].
    split; [|exact Hs]. now rewrite rendered_count_print. }
  intros _. apply triple_return; intros s [Hr Hs]; exact Hr.
Qed.

Lemma poll_target_steps_negative (i : nat) :
  triple (Rendered 0) (poll_target_steps cfg i) (fun _ => Rendered 0) Stops.
Proof.
  unfold poll_target_steps. apply triple_get. intros s0 [Hr0 Hs0].
  destruct (targets s0 !! i) as [target|]; [|apply triple_ret; now intros s ->].
  eapply triple_bind with (R := fun _ => Rendered 0).
  { apply triple_fetch.
    - intros s ->. exact Hr0.
    - intros s r w -> _. split; [|exact Hs0].
      change (rendered_count (add_events [Fetch (user_id target) 10 (last_seen_id target)] s0) = 0).
      rewrite rendered_count_add, Hr0. reflexivity.
    - intros s exc w -> _.
      change (rendered_count (add_events [Fetch (user_id target) 10 (last_seen_id target)] s0) = 0).
      rewrite rendered_count_add, Hr0. reflexivity. }
  intros [d|reset_at|msg].
  - destruct (data d) as [|newest rest]; [now apply triple_ret|].
    eapply triple_bind with (R := fun _ => Rendered 0).
    { apply triple_for_each. intros tw. apply process_tweet_steps_negative. }
    intros _. apply triple_stmt; intros s [Hr Hs]; [exact Hr|now split].
  - apply triple_get. intros s1 [Hr1 Hs1].
    eapply triple_bind with (R := fun _ => Rendered 0).
    { apply triple_stmt; intros s ->; [exact Hr1|].
      split; [|exact Hs1]. now rewrite rendered_count_print. }
    intros _. apply triple_stmt; intros s [Hr Hs]; [exact Hr|].
    split; [|exact Hs].
    change (rendered_count (add_events [Sleep (rate_limit_wait reset_at (clock_time (world s1)))] s) = 0).
    rewrite rendered_count_add, Hr. reflexivity.
  - apply triple_stmt; intros s [Hr Hs]; [exact Hr|].
    split; [|exact Hs]. now rewrite rendered_count_print.
Qed.

Lemma run_pass_steps_negative :
  triple (Rendered 0) (run_pass_steps cfg) (fun _ => Rendered 0) Stops.
Proof.
  unfold run_pass_steps. apply triple_get. intros s0 Hs0.
  eapply triple_bind with (R := fun _ => Rendered 0).
  { eapply triple_weaken; [apply triple_for_each, poll_target_steps_negative| |auto|auto].
    now intros s ->. }
  intros _. eapply triple_bind with (R := fun _ => Rendered 0).
  { apply triple_stmt; intros s [Hr Hs]; [exact Hr|now split]. }
  intros _. apply triple_stmt; intros s [Hr Hs]; [exact Hr|].
  split; [|exact Hs].
  change (rendered_count (add_events [Sleep (interval cfg)] s) = 0).
  rewrite rendered_count_add, Hr. reflexivity.
Qed.

End NegativeBudget.

Section Quiet.
Context {World : Type} `{Remote World}.
Variable cfg : Config.

Local Notation "'Nothing'" :=
  (fun s : State World => rendered_count s = 0 /\ 0 <= tweets_seen (stats s)).

Lemma seed_steps_renders_nothing (i : nat) :
  triple Nothing (seed_steps i) (fun _ => Nothing) (fun why s => why <> ByReturn /\ Nothing s).
Proof.
  unfold seed_steps. apply triple_get. intros s0 [Hr0 Hs0].
  destruct (targets s0 !! i) as [target|]; [|apply triple_ret; now intros s ->].
  assert (Hf : Nothing (add_events [Fetch (user_id target) 5 None] s0)).
  { split; [|exact Hs0]. rewrite rendered_count_add, Hr0. reflexivity. }
  eapply triple_bind with (R := fun _ => Nothing).
  { apply triple_fetch.
    - intros s ->. now split.
    - intros s r w -> _. exact Hf.
    - intros s exc w -> _. split; [discriminate|exact Hf]. }
  intros r. eapply triple_bind with (R := fun _ => Nothing).
  { destruct r as [[[|newest rest] inc]|reset_at|msg];
      first [apply triple_stmt | apply triple_ret; auto];
      intros s Hs; [now split|exact Hs]. }
  intros _. apply triple_stmt; intros s [Hr Hs]; [now split|].
  split; [|exact Hs]. now rewrite rendered_count_print.
Qed.

Lemma initialize_steps_renders_nothing :
  triple Nothing (initialize_steps cfg) (fun _ => Nothing)
         (fun why s => why <> ByReturn /\ Nothing s).
Proof.
  assert (Hprint : forall l (s : State World), Nothing s -> Nothing (print l s)).
  { intros l s [Hr Hs]. split; [|exact Hs]. now rewrite rendered_count_print. }
  unfold initialize_steps.
  eapply triple_bind with (R := fun _ => Nothing).
  { apply triple_stmt; intros s Hs; [now split|now apply Hprint]. }
  intros _. apply triple_get. intros s0 Hs0.
  eapply triple_bind with (R := fun _ => Nothing).
  { eapply triple_weaken; [apply triple_for_each, seed_steps_renders_nothing| |auto|auto].
    now intros s ->. }
  intros _. apply triple_get. intros s1 Hs1.
  eapply triple_bind with (R := fun _ => Nothing).
  { apply triple_stmt; intros s ->; [now split|now apply Hprint]. }
  intros _. eapply triple_bind with (R := fun _ => Nothing).
  { destruct (filters cfg) as [|kw kws]; [apply triple_ret; auto|apply triple_stmt];
      intros s Hs; [now split|now apply Hprint]. }
  intros _. apply triple_stmt; intros s Hs; [now split|now apply Hprint].
Qed.
End Quiet.



(** ** Seeding *)

Lemma alter_lookup_insert {A : Type} (f : A -> A) (i : nat) (l : list A) (x : A) :
  l !! i = Some x -> alter f i l = <[i := f x]> l.
Proof.
  intros Hi. apply list_eq. intros j.
  destruct (decide (i = j)) as [<-|Hne].
  - rewrite list_lookup_alter_eq, Hi.
    rewrite list_lookup_insert_eq; [reflexivity|].
    apply lookup_lt_Some in Hi. exact Hi.
  - rewrite list_lookup_alter_ne, list_lookup_insert_ne by assumption. reflexivity.
Qed.

(** X13. Seeding a target makes one fetch of 5 results without
    [since_id].  When the fetch returns, or raises a [RuntimeError] (a rate
    limit is one), seeding goes on to log the target: it has set that
    target's cursor to the newest id when tweets came back, and left the
    targets alone otherwise, and a rate limit or an error is neither logged
    nor waited for.  When the fetch raises any other exception, the
    exception leaves seeding at once: no cursor is set and the target is not
    logged.  The statistics are not touched either way. *)
Theorem seed_sets_cursor_or_lets_exception_through
    {World : Type} `{Remote World}
    (i : nat) (s : State World) (target : WatchTarget) (o : CallResult) (w : World)
    (fuel : nat) :
  targets s !! i = Some target ->
  call_timeline (user_id target) 5 None (world s) = (o, w) ->
  seed_steps i (S (S (S fuel))) s =
    match o with
    | Completes r =>
        Done tt
          {| world := w;
             targets := match r with
                        | FetchOk {| data := newest :: _ |} =>
                            <[i := set_last_seen (Some (tweet_id newest)) target]> (targets s)
                        | _ => targets s
                        end;
             stats := stats s;
             trace := trace s ++ [Fetch (user_id target) 5 None;
                                  Stderr (LogTracking (username target) (user_id target))] |}
          match r with
          | FetchOk {| data := _ :: _ |} => fuel
          | _ => S fuel
          end
    | OtherError exc =>
        Stopped (ByException exc)
          {| world := w; targets := targets s; stats := stats s;
             trace := trace s ++ [Fetch (user_id target) 5 None] |}
    end.
Proof.
  intros Hi Hcall. unfold seed_steps, sbind, sget. rewrite Hi.
  cbn [stmt_fetch]. rewrite Hcall.
  destruct o as [r|exc]; [|reflexivity].
  destruct r as [[[|newest rest] inc]|reset_at|msg];
    cbn [sret stmt]; unfold print, set_world, set_targets, add_events;
    cbn [world targets stats trace];
    rewrite <- ?List.app_assoc, ?(alter_lookup_insert _ _ _ _ Hi); reflexivity.
Qed.

Lemma seed_sets_cursor_or_lets_exception_through_witness :
  seed_steps 0 3%nat
    (sample_state [sample_target "A" "1" None]
       {| tape_clock := 0; tape := [OtherError "json.JSONDecodeError"] |})
  = Stopped (ByException "json.JSONDecodeError")
      {| world := {| tape_clock := 0; tape := [] |};
         targets := [sample_target "A" "1" None];
         stats := new_stats;
         trace := [Fetch "1" 5 None] |}.
Proof.
  exact (seed_sets_cursor_or_lets_exception_through 0
    (sample_state [sample_target "A" "1" None]
       {| tape_clock := 0; tape := [OtherError "json.JSONDecodeError"] |})
    (sample_target "A" "1" None) (OtherError "json.JSONDecodeError")
    {| tape_clock := 0; tape := [] |} 0 eq_refl eq_refl).
Defined.

(** ** The cursors *)

Section CursorSteps.
Context {World : Type} `{Remote World}.
Variable cfg : Config.
Variable id_le : relation string.
Hypothesis id_le_preorder : PreOrder id_le.

Local Notation "'Targets' tg" := (fun s : State World => targets s = tg)
  (at level 10, tg at level 9).

Lemma process_tweet_steps_targets (tg : list WatchTarget)
    (name : string) (inc : Includes) (tw : Tweet) :
  triple (Targets tg) (process_tweet_steps cfg name inc tw)
         (fun _ => Targets tg) (fun _ => Targets tg).
Proof.
  unfold process_tweet_steps.
  destruct (negb (_matches_filters (display_text tw) (filters cfg))).
  { now apply triple_ret. }
  eapply triple_bind with (R := fun _ => Targets tg).
  { apply triple_stmt; auto. }
  intros _. eapply triple_bind with (R := fun _ => Targets tg).
  { destruct (notify cfg); [apply triple_stmt|apply triple_ret]; auto. }
  intros _. eapply triple_bind with (R := fun _ => Targets tg).
  { apply triple_stmt; auto. }
  intros _. eapply triple_bind with (R := fun _ => Targets tg).
  { apply triple_stmt; auto. }
  intros _. apply triple_get. intros s0 Hs0.
  destruct (budget_reached (max_tweets cfg) (tweets_seen (stats s0))).
  - eapply triple_bind with (R := fun _ => Targets tg).
    { apply triple_stmt; intros s ->; exact Hs0. }
    intros _. eapply triple_bind with (R := fun _ => Targets tg).
    { apply triple_stmt; auto. }
    intros _. apply triple_return; auto.
  - apply triple_ret. now intros s ->.
Qed.

Hypothesis remote_answers_since_id : answers_since_id id_le.

Variable start : list WatchTarget.

Local Notation "'Forward'" :=
  (fun s : State World => Forall2 (target_le id_le) start (targets s)).

Lemma poll_target_steps_advances (i : nat) :
  triple Forward (poll_target_steps cfg i) (fun _ => Forward) (fun _ => Forward).
Proof.
  unfold poll_target_steps. apply triple_get. intros s0 Hs0.
  destruct (targets s0 !! i) as [target|] eqn:Hi; [|apply triple_ret; now intros s ->].
  eapply triple_bind
    with (R := fun r (s : State World) =>
            targets s = targets s0 /\
            forall d newest rest, r = FetchOk d -> data d = newest :: rest ->
              cursor_le id_le (last_seen_id target) (Some (tweet_id newest))).
  { apply triple_fetch.
    - intros s ->. exact Hs0.
    - intros s r w -> Hcall. split; [reflexivity|].
      intros d newest rest -> Hdata.
      exact (remote_answers_since_id _ _ _ _ _ _ _ _ Hcall Hdata).
    - intros s exc w -> _. exact Hs0. }
  assert (Hsame : forall s : State World, targets s = targets s0 -> Forward s).
  { intros s Hs. cbv beta. rewrite Hs. exact Hs0. }
  intros [d|reset_at|msg].
  - destruct (data d) as [|newest rest] eqn:Hdata.
    { apply triple_ret. intros s [Hs _]. now apply Hsame. }
    apply triple_assume
      with (fact := cursor_le id_le (last_seen_id target) (Some (tweet_id newest))).
    { intros s [_ Hle]. exact (Hle d newest rest eq_refl Hdata). }
    intros Hle.
    eapply triple_bind with (R := fun _ => Targets (targets s0)).
    { eapply triple_weaken.
      - apply triple_for_each. intros tw. apply (process_tweet_steps_targets (targets s0)).
      - intros s [Hs _]. exact Hs.
      - auto.
      - intros why s Hs. now apply Hsame. }
    intros _. apply triple_stmt; intros s Hs; [now apply Hsame|].
    cbn [set_targets targets]. rewrite Hs.
    eapply targets_le_trans; [exact id_le_preorder|exact Hs0|].
    apply Forall2_alter_r; [now apply targets_le_refl|].
    intros x y Hx Hy _. rewrite Hi in Hx, Hy.
    injection Hx as <-. injection Hy as <-.
    repeat split. exact Hle.
  - apply triple_get. intros s1 [Hs1 _].
    eapply triple_bind with (R := fun _ => Targets (targets s0)).
    { apply triple_stmt; intros s ->; [now apply Hsame|exact Hs1]. }
    intros _. apply triple_stmt; intros s Hs; now apply Hsame.
  - apply triple_stmt; intros s [Hs _]; now apply Hsame.
Qed.

Lemma run_pass_steps_advances :
  triple Forward (run_pass_steps cfg) (fun _ => Forward) (fun _ => Forward).
Proof.
  unfold run_pass_steps. apply triple_get. intros s0 Hs0.
  eapply triple_bind with (R := fun _ => Forward).
  { eapply triple_weaken; [apply triple_for_each, poll_target_steps_advances| |auto|auto].
    now intros s ->. }
  intros _. eapply triple_bind with (R := fun _ => Forward).
  { apply triple_stmt; auto. }
  intros _. apply triple_stmt; auto.
Qed.

End CursorSteps.

Lemma try_loop_advances {World : Type} `{Remote World}
    (cfg : Config) (id_le : relation string) (fuel : nat) (s : State World) :
  PreOrder id_le -> answers_since_id id_le ->
  Forall2 (target_le id_le) (targets s) (targets (snd (try_loop cfg fuel s))).
Proof.
  intros Hpre Hcontract. unfold try_loop.
  pose proof (triple_loop cfg _ _
                (run_pass_steps_advances cfg id_le Hpre Hcontract (targets s))
                (fun s' Hs' => Hs') (S fuel) fuel s (targets_le_refl id_le Hpre _)) as Hloop.
  destruct (loop_steps cfg (S fuel) fuel s) as [[|line|exc] s']; exact Hloop.
Qed.

(** *** No cursor is ever behind an earlier one *)

Lemma triple_true {World : Type} {A : Type} (m : MS World A) :
  triple (fun _ => True) m (fun _ _ => True) (fun _ _ => True).
Proof. intros fuel s _. now destruct (m fuel s). Qed.

Section Initialization.
Context {World : Type} `{Remote World}.
Variable cfg : Config.

Local Notation "'any'" := (fun _ _ : State World => True).

Lemma idle_seed (i : nat) : idle (seed_steps i).
Proof.
  unfold seed_steps. apply idle_get. intros s0.
  destruct (targets s0 !! i) as [target|]; [|apply idle_ret].
  intros s. reflexivity.
Qed.

Lemma steady_seed (i : nat) : steady (fun _ => True) any (seed_steps i).
Proof.
  unfold seed_steps. apply steady_get. intros s0 _.
  apply (steady_weaken any (fun _ => True)); [trivial|].
  destruct (targets s0 !! i) as [target|]; [|apply steady_ret].
  eapply steady_bind; [apply triple_true|apply steady_fetch; trivial| |].
  - intros r. eapply steady_bind; [apply triple_true| | |].
    + destruct r as [[[|newest rest] inc]|reset_at|msg];
        first [apply steady_stmt; trivial | apply steady_ret].
    + intros ?. apply steady_stmt; trivial.
    + intros ?. apply idle_stmt.
  - intros r. apply idle_bind; [|intros ?; apply idle_stmt].
    destruct r as [[[|newest rest] inc]|reset_at|msg];
      first [apply idle_stmt | apply idle_ret].
Qed.

Lemma steady_initialize : steady (fun _ => True) any (initialize_steps cfg).
Proof.
  unfold initialize_steps.
  eapply steady_bind; [apply triple_true|apply steady_stmt; trivial| |].
  2: { intros ?. apply idle_get. intros s0.
       apply idle_bind; [apply idle_for_each, idle_seed|].
       intros ?. apply idle_get. intros s1 s. reflexivity. }
  intros ?. apply steady_get. intros s0 _.
  apply (steady_weaken any (fun _ => True)); [trivial|].
  eapply steady_bind; [apply triple_true| | |].
  - eapply steady_for_each with (E := fun _ _ => True).
    + intros i. apply triple_true.
    + intros i. apply steady_seed.
    + intros i. apply idle_seed.
  - intros ?. apply steady_get. intros s1 _.
    apply (steady_weaken any (fun _ => True)); [trivial|].
    eapply steady_bind; [apply triple_true|apply steady_stmt; trivial| |].
    + intros ?. eapply steady_bind; [apply triple_true| | |].
      * destruct (filters cfg) as [|kw kws]; [apply steady_ret|apply steady_stmt; trivial].
      * intros ?. apply steady_stmt; trivial.
      * intros ?. apply idle_stmt.
    + intros ?. apply idle_bind; [|intros ?; apply idle_stmt].
      destruct (filters cfg) as [|kw kws]; [apply idle_ret|apply idle_stmt].
  - intros ?. apply idle_get. intros s1 s. reflexivity.
Qed.

(** once initialization is over, it is over the same with Ctrl+C later *)
Lemma initialize_steps_later (sooner later : nat) (s s' : State World) (left : nat) :
  (sooner <= later)%nat ->
  initialize_steps cfg sooner s = Done tt s' left ->
  initialize_steps cfg later s = Done tt s' (later - sooner + left)%nat.
Proof.
  intros Hle Hrun.
  pose proof (steady_done any (fun _ => True) (initialize_steps cfg) s tt s' sooner left
                (later - sooner) steady_initialize I Hrun) as Hlater.
  replace (later - sooner + sooner)%nat with later in Hlater by lia. exact Hlater.
Qed.

End Initialization.

Section Moments.
Context {World : Type} `{Remote World}.
Variable cfg : Config.
Variable id_le : relation string.
Hypothesis id_le_preorder : PreOrder id_le.

Local Notation "'onward'" := (cursors_le (World := World) id_le).

Lemma cursors_le_refl : Reflexive onward.
Proof. intros s. now apply targets_le_refl. Qed.

Lemma cursors_le_trans : Transitive onward.
Proof. intros s1 s2 s3. now apply targets_le_trans. Qed.

Lemma cursors_le_same (s s' : State World) : targets s' = targets s -> onward s s'.
Proof. intros Hs. unfold cursors_le. rewrite Hs. now apply targets_le_refl. Qed.

Lemma idle_process_tweet (name : string) (inc : Includes) (tw : Tweet) :
  idle (World := World) (process_tweet_steps cfg name inc tw).
Proof.
  unfold process_tweet_steps.
  destruct (negb (_matches_filters (display_text tw) (filters cfg))); [apply idle_ret|].
  intros s. reflexivity.
Qed.

Lemma steady_process_tweet (name : string) (inc : Includes) (tw : Tweet) :
  steady (fun _ => True) onward (process_tweet_steps cfg name inc tw).
Proof.
  assert (Hstmt : forall line (f : State World -> State World),
             (forall s, targets (f s) = targets s) ->
             steady (fun _ => True) onward (stmt line f)).
  { intros line f Hf. apply steady_stmt. intros s _. apply cursors_le_same, Hf. }
  unfold process_tweet_steps.
  destruct (negb (_matches_filters (display_text tw) (filters cfg))); [apply steady_ret|].
  eapply steady_bind; [apply triple_true|now apply Hstmt| |].
  2: { intros ?. apply idle_bind; [destruct (notify cfg); [apply idle_stmt|apply idle_ret]|].
       intros ? s. reflexivity. }
  intros ?. eapply steady_bind; [apply triple_true| | |].
  { destruct (notify cfg); [now apply Hstmt|apply steady_ret]. }
  2: { intros ? s. reflexivity. }
  intros ?. eapply steady_bind; [apply triple_true|now apply Hstmt| |].
  2: { intros ? s. reflexivity. }
  intros ?. eapply steady_bind; [apply triple_true|now apply Hstmt| |].
  2: { intros ?. apply idle_get. intros s0.
       destruct (budget_reached (max_tweets cfg) (tweets_seen (stats s0))); [|apply idle_ret].
       intros s. reflexivity. }
  intros ?. apply steady_get. intros s0 _.
  apply (steady_weaken onward (fun _ => True)); [trivial|].
  destruct (budget_reached (max_tweets cfg) (tweets_seen (stats s0))); [|apply steady_ret].
  eapply steady_bind; [apply triple_true| | |].
  { apply steady_stmt. intros s _. now apply cursors_le_same. }
  2: { intros ? s. reflexivity. }
  intros ?. eapply steady_bind; [apply triple_true| | |].
  { apply steady_stmt. intros s _. now apply cursors_le_same. }
  2: { intros ?. apply idle_return. }
  intros ?. apply steady_return, cursors_le_refl.
Qed.

Lemma idle_poll_target (i : nat) : idle (poll_target_steps cfg i).
Proof.
  unfold poll_target_steps. apply idle_get. intros s0.
  destruct (targets s0 !! i) as [target|]; [|apply idle_ret].
  intros s. reflexivity.
Qed.

Lemma idle_run_pass : idle (run_pass_steps cfg).
Proof.
  unfold run_pass_steps. apply idle_get. intros s0.
  apply idle_bind; [apply idle_for_each, idle_poll_target|].
  intros ? s. reflexivity.
Qed.

Hypothesis remote_answers_since_id : answers_since_id id_le.

Lemma steady_poll_target (i : nat) :
  steady (fun _ => True) onward (poll_target_steps cfg i).
Proof.
  unfold poll_target_steps. apply steady_get. intros s0 _.
  destruct (targets s0 !! i) as [target|] eqn:Hi; [|apply steady_ret].
  eapply steady_bind
    with (Q := fun r (s : State World) =>
            targets s = targets s0 /\
            forall d newest rest, r = FetchOk d -> data d = newest :: rest ->
              cursor_le id_le (last_seen_id target) (Some (tweet_id newest)))
         (E := fun _ _ => True).
  { apply triple_fetch.
    - trivial.
    - intros s r w -> Hcall. split; [reflexivity|].
      intros d newest rest -> Hdata.
      exact (remote_answers_since_id _ _ _ _ _ _ _ _ Hcall Hdata).
    - trivial. }
  { apply steady_fetch. intros s w _. now apply cursors_le_same. }
  2: { intros [d|reset_at|msg].
       - destruct (data d) as [|newest rest]; [apply idle_ret|].
         apply idle_bind; [apply idle_for_each, idle_process_tweet|]. intros ?. apply idle_stmt.
       - apply idle_get. intros s1 s. reflexivity.
       - apply idle_stmt. }
  intros [d|reset_at|msg].
  - destruct (data d) as [|newest rest] eqn:Hdata; [apply steady_ret|].
    apply steady_assume
      with (fact := cursor_le id_le (last_seen_id target) (Some (tweet_id newest))).
    { intros s [_ Hle]. exact (Hle d newest rest eq_refl Hdata). }
    intros Hle.
    eapply steady_bind with (Q := fun _ (s : State World) => targets s = targets s0)
                            (E := fun _ _ => True).
    + eapply triple_weaken.
      * apply triple_for_each. intros tw. apply (process_tweet_steps_targets cfg (targets s0)).
      * intros s [Hs _]. exact Hs.
      * auto.
      * trivial.
    + apply (steady_weaken onward (fun _ => True)); [trivial|].
      eapply steady_for_each with (E := fun _ _ => True).
      * intros tw. apply triple_true.
      * intros tw. apply steady_process_tweet.
      * intros tw. apply idle_process_tweet.
    + intros ?. apply steady_stmt. intros s Hs.
      unfold cursors_le. cbn [set_targets targets]. rewrite Hs.
      apply Forall2_alter_r; [now apply targets_le_refl|].
      intros x y Hx Hy _. rewrite Hi in Hx, Hy.
      injection Hx as <-. injection Hy as <-.
      repeat split. exact Hle.
    + intros ?. apply idle_stmt.
  - apply steady_get. intros s1 _.
    apply (steady_weaken onward (fun _ => True)); [trivial|].
    eapply steady_bind; [apply triple_true| | |].
    + apply steady_stmt. intros s _. now apply cursors_le_same.
    + intros ?. apply steady_stmt. intros s _. now apply cursors_le_same.
    + intros ?. apply idle_stmt.
  - apply steady_stmt. intros s _. now apply cursors_le_same.
Qed.

Lemma steady_run_pass : steady (fun _ => True) onward (run_pass_steps cfg).
Proof.
  unfold run_pass_steps. apply steady_get. intros s0 _.
  apply (steady_weaken onward (fun _ => True)); [trivial|].
  eapply steady_bind; [apply triple_true| | |].
  - eapply steady_for_each with (E := fun _ _ => True).
    + intros i. apply triple_true.
    + intros i. apply steady_poll_target.
    + intros i. apply idle_poll_target.
  - intros ?. eapply steady_bind; [apply triple_true| | |].
    + apply steady_stmt. intros s _. now apply cursors_le_same.
    + intros ?. apply steady_stmt. intros s _. now apply cursors_le_same.
    + intros ?. apply idle_stmt.
  - intros ? s. reflexivity.
Qed.

Lemma loop_steps_idle (turns : nat) (s : State World) :
  snd (loop_steps cfg turns 0%nat s) = s.
Proof.
  revert s. induction turns as [|turns IH]; intros s; cbn [loop_steps]; [reflexivity|].
  pose proof (idle_run_pass s) as Hidle.
  destruct (run_pass_steps cfg 0%nat s) as [[] s1 k|why s1]; [|exact Hidle].
  destruct Hidle as [-> ->]. apply IH.
Qed.

Lemma loop_steps_one_more (turns fuel : nat) (s : State World) :
  onward (snd (loop_steps cfg turns fuel s)) (snd (loop_steps cfg turns (S fuel) s)).
Proof.
  revert fuel s. induction turns as [|turns IH]; intros fuel s; cbn [loop_steps].
  { apply cursors_le_refl. }
  pose proof (steady_run_pass fuel s I) as Hpass. unfold one_more in Hpass.
  destruct (run_pass_steps cfg fuel s) as [[] s1 k|[|line|exc] s1].
  - rewrite Hpass. apply IH.
  - rewrite Hpass. apply cursors_le_refl.
  - destruct (run_pass_steps cfg (S fuel) s) as [[] s2 k2|why s2]; [|exact Hpass].
    destruct Hpass as [-> Hle]. now rewrite loop_steps_idle.
  - rewrite Hpass. apply cursors_le_refl.
Qed.

Lemma loop_steps_later (turns fuel more : nat) (s : State World) :
  onward (snd (loop_steps cfg turns fuel s)) (snd (loop_steps cfg turns (more + fuel) s)).
Proof.
  induction more as [|more IH]; [apply cursors_le_refl|].
  eapply cursors_le_trans; [exact IH|]. apply loop_steps_one_more.
Qed.

Lemma try_loop_targets (fuel : nat) (s : State World) :
  targets (snd (try_loop cfg fuel s)) = targets (snd (loop_steps cfg (S fuel) fuel s)).
Proof. unfold try_loop. now destruct (loop_steps cfg (S fuel) fuel s) as [[|line|exc] s']. Qed.

Lemma try_loop_later (sooner later : nat) (s : State World) :
  (sooner <= later)%nat ->
  onward (snd (try_loop cfg sooner s)) (snd (try_loop cfg later s)).
Proof.
  intros Hle. unfold cursors_le. rewrite !try_loop_targets.
  rewrite <- (loop_steps_turns cfg (S later) sooner s) by lia.
  pose proof (loop_steps_later (S later) sooner (later - sooner) s) as Hlater.
  replace (later - sooner + sooner)%nat with later in Hlater by lia. exact Hlater.
Qed.

End Moments.

Lemma watch_loop_steps_later {World : Type} `{Remote World} (cfg : Config)
    (id_le : relation string) (ts : list WatchTarget) (w : World) (sooner later : nat) :
  PreOrder id_le -> answers_since_id id_le ->
  (sooner <= later)%nat ->
  match initialize_steps cfg sooner (initial_state ts w) with
  | Done _ _ _ =>
      cursors_le id_le (snd (watch_loop_steps cfg ts w sooner))
                 (snd (watch_loop_steps cfg ts w later))
  | Stopped _ _ => True
  end.
Proof.
  intros Hpre Hcontract Hle. unfold watch_loop_steps.
  destruct (initialize_steps cfg sooner (initial_state ts w)) as [[] s1 left|why s1] eqn:Hinit;
    [|exact I].
  rewrite (initialize_steps_later cfg sooner later _ _ _ Hle Hinit).
  apply try_loop_later; [assumption|assumption|lia].
Qed.

Lemma remote_of_client_answers {World : Type} `{Client World} (id_le : relation string) :
  honours_since_id id_le -> answers_since_id (H := remote_of_client) id_le.
Proof.
  intros Hc uid n since w d w' newest rest Hcall Hdata. cbn in Hcall.
  destruct (get_timeline uid n since w) as [r w0] eqn:Hfetch.
  injection Hcall as -> ->. exact (Hc _ _ _ _ _ _ _ _ Hfetch Hdata).
Qed.

(** Where a cursor does not go forward.  With a budget of one, a batch of
    one tweet is processed to its end and the cursor is not set.  And a
    cursor does move backward over a session: seeding fetches without
    [since_id] and sets the cursor to whatever is newest in the answer, so a
    target created with cursor 100 is left with cursor 5 by a service that
    holds nothing newer than tweet 5, although that service never answers
    with anything older than the [since_id] it is given.  A client that does
    answer a poll with a tweet older than the cursor moves the cursor back
    as well. *)
Lemma cursor_not_set_at_budget_and_moved_back_by_seeding :
  (let r := poll_target (with_max_tweets (Some 1) sample_config) 0
              (sample_state [sample_target "A" "1" None]
                 {| clock := 0; script := [sample_timeline [sample_tweet "5" "x"]] |}) in
   rendered (trace (result_state r)) = [sample_tweet "5" "x"] /\
   map last_seen_id (targets (result_state r)) = [None]) /\
  (let w := {| service_clock := 0; feed := [[sample_tweet "5" "x"]] |} in
   honours_since_id (World := Service) snowflake_le /\
   map last_seen_id
     (targets (snd (watch_loop sample_config [sample_target "B" "2" (Some "100")] w 1)))
     = [Some "5"] /\
   map last_seen_id
     (targets (snd (watch_loop_steps (H := remote_of_client) sample_config
                      [sample_target "B" "2" (Some "100")] w 9)))
     = [Some "5"] /\
   snowflake "5" < snowflake "100" /\
   ~ cursor_le snowflake_le (Some "100") (Some "5")) /\
  (let r := poll_target sample_config 0
              (sample_state [sample_target "B" "2" (Some "100")]
                 {| clock := 0; script := [sample_timeline [sample_tweet "5" "x"]] |}) in
   map last_seen_id (targets (result_state r)) = [Some "5"]).
Proof.
  split; [split; vm_compute; reflexivity|].
  split; [|vm_compute; reflexivity].
  split; [exact service_honours_since_id|].
  split; [vm_compute; reflexivity|].
  split; [vm_compute; reflexivity|].
  split; [vm_compute; reflexivity|].
  unfold cursor_le, snowflake_le. vm_compute. intros Hle. apply Hle. reflexivity.
Qed.

(** C1 (as the code has it).  A successful poll that returns a non-empty
    batch takes the tweets oldest first and renders the matching ones in
    that order; unless the budget is reached on the way, it then sets the
    target's cursor, and no other, to the identifier of the newest tweet of
    the batch, whether or not any tweet matched.  When the budget is reached
    the loop returns and leaves the cursors as they were.  Against a client
    that answers with nothing older than the [since_id] it is given, no
    cursor moves backward while the session is polling: not in a poll,
    wherever the poll starts and wherever it is left, not over any number of
    passes, and not when the loop is left at any statement, by Ctrl+C, by
    the budget or by an exception; a session ends with every cursor at or
    ahead of its seeded value, and of two moments of the polling the later
    one never finds a cursor behind where the sooner one found it.  Seeding itself
    fetches without [since_id] and sets the cursor to the newest tweet of a
    non-empty answer, whatever the cursor was. *)
Theorem cursor_set_to_newest_of_batch_and_kept_forward_while_polling
    {World : Type} `{Client World} `{Remote World}
    (cfg : Config) (id_le : relation string) :
  PreOrder id_le ->
  (forall i (s : State World) target d w newest rest,
     targets s !! i = Some target ->
     get_timeline (user_id target) 10 (last_seen_id target) (world s) = (FetchOk d, w) ->
     data d = newest :: rest ->
     match poll_target cfg i s with
     | Normal _ s' =>
         targets s' !! i = Some (set_last_seen (Some (tweet_id newest)) target) /\
         (forall j, j <> i -> targets s' !! j = targets s !! j) /\
         rendered (trace s') =
           rendered (trace s) ++ List.filter (tweet_matches cfg) (rev (newest :: rest))
     | Returned s' =>
         targets s' = targets s /\
         budget_reached (max_tweets cfg) (tweets_seen (stats s')) = true
     end) /\
  (honours_since_id id_le ->
     (forall i (s : State World),
        Forall2 (target_le id_le) (targets s)
          (targets (result_state (poll_target cfg i s)))) /\
     (forall fuel (s : State World),
        Forall2 (target_le id_le) (targets s) (targets (snd (polling cfg fuel s))))) /\
  (answers_since_id id_le ->
     (forall i fuel (s : State World),
        Forall2 (target_le id_le) (targets s)
          (targets (run_state (poll_target_steps cfg i fuel s)))) /\
     (forall fuel (s : State World),
        Forall2 (target_le id_le) (targets s) (targets (snd (try_loop cfg fuel s)))) /\
     (forall ts w fuel,
        match initialize_steps cfg fuel (initial_state ts w) with
        | Done _ seeded _ =>
            Forall2 (target_le id_le) (targets seeded)
              (targets (snd (watch_loop_steps cfg ts w fuel)))
        | Stopped _ _ => True
        end) /\
     (forall sooner later (s : State World), (sooner <= later)%nat ->
        Forall2 (target_le id_le) (targets (snd (try_loop cfg sooner s)))
          (targets (snd (try_loop cfg later s)))) /\
     (forall ts w sooner later, (sooner <= later)%nat ->
        match initialize_steps cfg sooner (initial_state ts w) with
        | Done _ _ _ =>
            Forall2 (target_le id_le) (targets (snd (watch_loop_steps cfg ts w sooner)))
              (targets (snd (watch_loop_steps cfg ts w later)))
        | Stopped _ _ => True
        end)) /\
  (forall i (s : State World) target d w newest rest fuel,
     targets s !! i = Some target ->
     call_timeline (user_id target) 5 None (world s) = (Completes (FetchOk d), w) ->
     data d = newest :: rest ->
     exists s' left,
       seed_steps i (S (S (S fuel))) s = Done tt s' left /\
       targets s' !! i = Some (set_last_seen (Some (tweet_id newest)) target)).
Proof.
  intros Hpre. split; [|split; [|split]].
  - intros i s target d w newest rest Hi Hfetch Hdata.
    pose proof (poll_target_batch cfg i s target d w newest rest Hi Hfetch Hdata) as Hb.
    destruct (poll_target cfg i s) as [[] s'|s']; [|exact Hb].
    destruct Hb as [-> Htr]. split; [|split; [|exact Htr]].
    + now rewrite list_lookup_alter_eq, Hi.
    + intros j Hj. apply list_lookup_alter_ne. congruence.
  - intros Hcontract. split.
    + now apply poll_target_advances.
    + now apply polling_advances.
  - intros Hcontract. split; [|split; [|split; [|split]]].
    + intros i fuel s.
      pose proof (poll_target_steps_advances cfg id_le Hpre Hcontract (targets s) i fuel s
                    (targets_le_refl id_le Hpre _)) as Hpoll.
      destruct (poll_target_steps cfg i fuel s); exact Hpoll.
    + intros fuel s. now apply try_loop_advances.
    + intros ts w fuel. unfold watch_loop_steps.
      destruct (initialize_steps cfg fuel (initial_state ts w)) as [[] s1 fuel1|why s1];
        [|exact I].
      now apply try_loop_advances.
    + intros sooner later s Hle. now apply (try_loop_later cfg id_le Hpre Hcontract).
    + intros ts w sooner later Hle.
      exact (watch_loop_steps_later cfg id_le ts w sooner later Hpre Hcontract Hle).
  - intros i s target [tws inc] w newest rest fuel Hi Hcall Hdata.
    cbn [data] in Hdata. subst tws.
    unfold seed_steps, sbind, sget. rewrite Hi. cbn [stmt_fetch]. rewrite Hcall.
    cbn [stmt]. eexists. eexists. split; [reflexivity|].
    unfold print, add_events, set_targets, set_world. cbn [targets].
    now rewrite list_lookup_alter_eq, Hi.
Qed.

Lemma cursor_set_to_newest_of_batch_and_kept_forward_while_polling_witness :
  match poll_target sample_config 0
          (sample_state [sample_target "A" "1" (Some "100")]
             {| service_clock := 0;
                feed := [[sample_tweet "105" "new"; sample_tweet "90" "old"]] |}) with
  | Normal _ s' =>
      targets s' !! 0%nat = Some (sample_target "A" "1" (Some "105")) /\
      (forall j, j <> 0%nat ->
         targets s' !! j = [sample_target "A" "1" (Some "100")] !! j) /\
      rendered (trace s') = [sample_tweet "105" "new"]
  | Returned s' =>
      targets s' = [sample_target "A" "1" (Some "100")] /\
      budget_reached None (tweets_seen (stats s')) = true
  end /\
  Forall2 (target_le snowflake_le) [sample_target "A" "1" (Some "100")]
    (targets (result_state
       (poll_target sample_config 0
          (sample_state [sample_target "A" "1" (Some "100")]
             {| service_clock := 0;
                feed := [[sample_tweet "105" "new"; sample_tweet "90" "old"]] |})))) /\
  Forall2 (target_le snowflake_le) [sample_target "A" "1" (Some "100")]
    (targets (snd
       (try_loop (H := remote_of_client) sample_config 4
          (sample_state [sample_target "A" "1" (Some "100")]
             {| service_clock := 0;
                feed := [[sample_tweet "105" "new"; sample_tweet "90" "old"]] |})))).
Proof.
  pose proof (cursor_set_to_newest_of_batch_and_kept_forward_while_polling
    (World := Service) (H0 := remote_of_client)
    sample_config snowflake_le snowflake_le_preorder)
    as (Hbatch & Hforward & Hsteps & _).
  split; [|split].
  - exact (Hbatch 0%nat
      (sample_state [sample_target "A" "1" (Some "100")]
         {| service_clock := 0;
            feed := [[sample_tweet "105" "new"; sample_tweet "90" "old"]] |})
      (sample_target "A" "1" (Some "100"))
      {| data := [sample_tweet "105" "new"]; includes := EmptyString |}
      {| service_clock := 0; feed := [] |}
      (sample_tweet "105" "new") [] eq_refl eq_refl eq_refl).
  - exact (proj1 (Hforward service_honours_since_id) 0%nat
      (sample_state [sample_target "A" "1" (Some "100")]
         {| service_clock := 0;
            feed := [[sample_tweet "105" "new"; sample_tweet "90" "old"]] |})).
  - exact (proj1 (proj2 (Hsteps (remote_of_client_answers snowflake_le
                                   service_honours_since_id)))
      4%nat
      (sample_state [sample_target "A" "1" (Some "100")]
         {| service_clock := 0;
            feed := [[sample_tweet "105" "new"; sample_tweet "90" "old"]] |})).
Defined.

End StepProofs.
